(** * Ad ingestion pipeline of the Meta Ad Library monitor

    A shallow embedding of the ingestion core of the server
    ([scripts/import-brands.js] from its second part on):
    [getWeekStart], [transformApifyResults] (the Deduplicator),
    [processScrapedAds] (the Reconciler and the snapshot recorder), the
    per-ad store of [runScheduledScrapeAll], and the two places where the
    AI tagging state is consulted ([analyzeAdCreative], [runBatchAnalysis]).

    Conventions of the embedding.
    - A scraped item is an arbitrary parsed JSON value ([Js.value]); member
      access, truthiness, [||], [?.] and [typeof] follow JavaScript,
      including the [TypeError] raised by a member access on [null].
    - Numbers of the feed (identifiers, Unix-second timestamps) are
      integers; [NaN], which only arises from date parsing, is [None] in
      an [option Z].
    - Strings are sequences of 8-bit code units; [trim] and [toLowerCase]
      are the ASCII ones.
    - Built-ins whose result the source does not determine (date parsing,
      ISO formatting, the clock, [Math.random], [ToNumber] on non-numbers,
      [JSON.stringify]) are the fields of a [Runtime].
    - Calendar dates ('YYYY-MM-DD' strings that the code itself writes and
      reads back) are day numbers since 1970-01-01, and the process runs in
      UTC, where the local-time accessors of [Date] coincide with the UTC
      ones.
    - [console.log] is not modelled.

    Beside the ingestion core: the handlers that read and write the same
    tables (bookmark, analysis, status of a scrape job, deletion of a
    brand, cleanup at startup), the schedule settings, the page identifier
    patterns and the CSV import of brands. A handler is a computation over
    its tables that may throw; the scraping service and the page resolver,
    which catch their own errors, are functions of the environment. *)

From Stdlib Require Import ZArith Ascii String List Bool Lia.
From stdpp Require Import gmap strings list fin_maps pretty.

Set Warnings "-register-all".
Open Scope Z_scope.

(** ** JavaScript values *)

Module Js.

Inductive value : Type :=
| VUndef
| VNull
| VBool (b : bool)
| VNum (n : Z)
| VStr (s : string)
| VArr (xs : list value)
| VObj (fields : list (string * value)).

Inductive exn : Type :=
| TypeError (msg : string)
| RangeError (msg : string)
| Error (msg : string).

Inductive result (A : Type) : Type :=
| Ok (a : A)
| Throw (e : exn).

Arguments Ok {A} a.
Arguments Throw {A} e.

Definition bind {A B : Type} (r : result A) (k : A → result B) : result B :=
  match r with
  | Ok a => k a
  | Throw e => Throw e
  end.

Notation "'let*' x ':=' e 'in' k" := (bind e (λ x, k))
  (at level 10, x pattern, e at level 100, k at level 200).

Definition returns {A : Type} (r : result A) : bool :=
  match r with Ok _ => true | Throw _ => false end.

Definition ok {A : Type} (r : result A) : option A :=
  match r with Ok a => Some a | Throw _ => None end.

(** [!!v] *)
Definition truthy (v : value) : bool :=
  match v with
  | VUndef | VNull => false
  | VBool b => b
  | VNum n => negb (n =? 0)
  | VStr s => negb (String.eqb s "")
  | VArr _ | VObj _ => true
  end.

Definition nullish (v : value) : bool :=
  match v with VUndef | VNull => true | _ => false end.

(** [a || b] on already evaluated operands (the operands of the source are
    member reads of one object, which either all throw or none). *)
Definition js_or (a b : value) : value := if truthy a then a else b.

(** [typeof v === 'string'], [typeof v === 'number'], [typeof v === 'object'] *)
Definition is_string (v : value) : bool :=
  match v with VStr _ => true | _ => false end.

Definition is_number (v : value) : bool :=
  match v with VNum _ => true | _ => false end.

Definition is_object (v : value) : bool :=
  match v with VNull | VArr _ | VObj _ => true | _ => false end.

(** Own property of a parsed JSON object; a repeated key keeps its last
    value, as [JSON.parse] does. *)
Definition obj_get (p : string) (fields : list (string * value)) : value :=
  fold_left (λ acc kv, if String.eqb (fst kv) p then snd kv else acc) fields VUndef.

(** [v.p] on a value that is neither [null] nor [undefined]. The names [p]
    the source reads are data names of the feed; of the inherited members
    of strings and arrays only [length] is among them. *)
Definition prop (v : value) (p : string) : value :=
  match v with
  | VObj fields => obj_get p fields
  | VArr xs => if String.eqb p "length" then VNum (Z.of_nat (List.length xs)) else VUndef
  | VStr s => if String.eqb p "length" then VNum (Z.of_nat (String.length s)) else VUndef
  | _ => VUndef
  end.

(** [v[i]] on a value that is neither [null] nor [undefined]. *)
Definition index (v : value) (i : nat) : value :=
  match v with
  | VArr xs => nth i xs VUndef
  | VStr s => match String.get i s with
              | Some c => VStr (String c EmptyString)
              | None => VUndef
              end
  | VObj fields => obj_get (pretty i) fields
  | _ => VUndef
  end.

(** [v.p]: a [TypeError] on [null] and [undefined]. *)
Definition get (v : value) (p : string) : result value :=
  if nullish v then Throw (TypeError "Cannot read properties of null or undefined")
  else Ok (prop v p).

(** [v?.p] and [v?.[i]] *)
Definition opt_prop (v : value) (p : string) : value :=
  if nullish v then VUndef else prop v p.

Definition opt_index (v : value) (i : nat) : value :=
  if nullish v then VUndef else index v i.

(** [String(v)] and the conversion inside a template literal, for parsed
    JSON values (decimal digits for an integer below 10^21). *)
Fixpoint to_string (v : value) : string :=
  match v with
  | VUndef => "undefined"
  | VNull => "null"
  | VBool true => "true"
  | VBool false => "false"
  | VNum n => pretty n
  | VStr s => s
  | VArr xs =>
      (fix join (l : list value) : string :=
         match l with
         | [] => ""
         | x :: r =>
             let sx := match x with VUndef | VNull => "" | _ => to_string x end in
             match r with
             | [] => sx
             | _ :: _ => sx +:+ "," +:+ join r
             end
         end) xs
  | VObj _ => "[object Object]"
  end.

(** The comparison of [Set.prototype.has]: primitives by value; two
    objects of a parsed batch are never the same reference. *)
Definition same_value_zero (a b : value) : bool :=
  match a, b with
  | VUndef, VUndef | VNull, VNull => true
  | VBool x, VBool y => Bool.eqb x y
  | VNum x, VNum y => x =? y
  | VStr x, VStr y => String.eqb x y
  | _, _ => false
  end.

(** *** Strings *)

Definition is_digit (c : ascii) : bool :=
  let n := nat_of_ascii c in ((48 <=? n) && (n <=? 57))%nat.

Definition is_space (c : ascii) : bool :=
  let n := nat_of_ascii c in ((n =? 32) || ((9 <=? n) && (n <=? 13)))%nat.

Definition lower_ascii (c : ascii) : ascii :=
  let n := nat_of_ascii c in
  if ((65 <=? n) && (n <=? 90))%nat then ascii_of_nat (n + 32) else c.

Fixpoint span (p : ascii → bool) (s : string) : string * string :=
  match s with
  | EmptyString => (EmptyString, EmptyString)
  | String c r =>
      if p c then let '(a, b) := span p r in (String c a, b)
      else (EmptyString, s)
  end.

Fixpoint drop_while (p : ascii → bool) (s : string) : string :=
  match s with
  | EmptyString => EmptyString
  | String c r => if p c then drop_while p r else s
  end.

Fixpoint str_rev_onto (s acc : string) : string :=
  match s with
  | EmptyString => acc
  | String c r => str_rev_onto r (String c acc)
  end.

Definition str_rev (s : string) : string := str_rev_onto s EmptyString.

(** [s.trim()] *)
Definition trim (s : string) : string :=
  str_rev (drop_while is_space (str_rev (drop_while is_space s))).

(** [s.toLowerCase()] *)
Fixpoint toLowerCase (s : string) : string :=
  match s with
  | EmptyString => EmptyString
  | String c r => String (lower_ascii c) (toLowerCase r)
  end.

(** [s.slice(-n)] *)
Definition slice_last (n : nat) (s : string) : string :=
  String.substring (String.length s - n) n s.

(** [s.split('T')[0]] *)
Definition before_T (s : string) : string :=
  fst (span (λ c, negb (Ascii.eqb c "T")) s).

(** [s.startsWith(p)] *)
Definition startsWith (p s : string) : bool := String.prefix p s.

End Js.

Import Js.

(** ** Built-ins left to the runtime *)

Record Runtime : Type := {
  (** [new Date(v).getTime()]; [None] is [NaN] *)
  date_getTime : value → option Z;
  (** [new Date(ms).toISOString().split('T')[0]] for a valid time value *)
  iso_date_of_ms : Z → string;
  (** the [n]-th reading of [Date.now()] and of [Math.random()], printed *)
  date_now : nat → string;
  math_random : nat → string;
  (** [ToNumber] of a value that is not a number; [None] is [NaN] *)
  to_number : value → option Z;
  (** [JSON.stringify] *)
  json_stringify : value → string
}.

(** ** The Deduplicator: [transformApifyResults] *)

Module Dedup.

(** [getMediaFingerprint]. The regular expression of the source asks for a
    slash, then ten or more digits, an underscore, one or more digits and
    any run of characters other than a slash or a question mark; the group
    it captures starts after the slash. At the leftmost slash where it can
    match, it takes the whole run of digits, the underscore, and the whole
    run of characters up to the next slash or question mark, which has to
    start with a digit. *)
Definition not_boundary (c : ascii) : bool :=
  negb (Ascii.eqb c "/" || Ascii.eqb c "?").

Definition match_file_id (s : string) : option string :=
  let '(digits, r1) := span is_digit s in
  if (10 <=? String.length digits)%nat then
    match r1 with
    | String "_" (String c _ as r2) =>
        if is_digit c then Some (digits +:+ "_" +:+ fst (span not_boundary r2))
        else None
    | _ => None
    end
  else None.

Fixpoint find_file_id (s : string) : option string :=
  match s with
  | EmptyString => None
  | String c r =>
      if Ascii.eqb c "/" then
        match match_file_id r with
        | Some m => Some m
        | None => find_file_id r
        end
      else find_file_id r
  end.

Definition getMediaFingerprint (url : value) : result string :=
  if negb (truthy url) then Ok ""
  else match url with
       | VStr u => match find_file_id u with
                   | Some m => Ok m
                   | None => Ok (slice_last 150 u)
                   end
       | _ => Throw (TypeError "url.match is not a function")
       end.

(** [item.adArchiveID || item.adArchiveId || item.adid] *)
Definition external_id (item : value) : result value :=
  let* a := get item "adArchiveID" in
  let* b := get item "adArchiveId" in
  let* c := get item "adid" in
  Ok (js_or a (js_or b c)).

(** First pass: [apifyResults.filter] with the set [seenIds]. *)
Fixpoint uniqueById (seenIds : list value) (items : list value) : result (list value) :=
  match items with
  | [] => Ok []
  | item :: rest =>
      let* adId := external_id item in
      if negb (truthy adId) then
        let* kept := uniqueById seenIds rest in Ok (item :: kept)
      else if existsb (same_value_zero adId) seenIds then uniqueById seenIds rest
      else
        let* kept := uniqueById (adId :: seenIds) rest in Ok (item :: kept)
  end.

(** The values of [mediaGrouped] and [headlineGrouped]. *)
Record entry : Type := { item : value; startTimestamp : option Z }.

(** A JavaScript [Map] with string keys: [set] on a present key replaces
    the value and keeps the position; on a new key it appends. *)
Definition jsmap : Type := list (string * entry).

Fixpoint map_get (key : string) (m : jsmap) : option entry :=
  match m with
  | [] => None
  | (k, e) :: r => if String.eqb k key then Some e else map_get key r
  end.

Fixpoint map_set (key : string) (e : entry) (m : jsmap) : jsmap :=
  match m with
  | [] => [(key, e)]
  | (k, e') :: r =>
      if String.eqb k key then (k, e) :: r else (k, e') :: map_set key e r
  end.

Definition map_values (m : jsmap) : list value := (λ kv, item (snd kv)) <$> m.

(** [startTimestamp > 0 && startTimestamp < existing.startTimestamp] *)
Definition earlier_known (ts existing : option Z) : bool :=
  match ts, existing with
  | Some t, Some t' => (0 <? t) && (t <? t')
  | _, _ => false
  end.

(** The start time of an item, in milliseconds; 0 when unknown. *)
Definition start_of (rt : Runtime) (it : value) : result (option Z) :=
  let* formatted := get it "startDateFormatted" in
  if truthy formatted then Ok (date_getTime rt formatted)
  else
    let* startDate := get it "startDate" in
    match startDate with
    | VNum n => Ok (Some (n * 1000))
    | _ => Ok (Some 0)
    end.

(** The branch shared by the second and the third pass: under a grouping
    key the stored entry is replaced only by an earlier known start; under
    the key of an item without signal the entry is set unconditionally. *)
Definition group_under (key : string) (e : entry) (m : jsmap) : jsmap :=
  match map_get key m with
  | None => map_set key e m
  | Some existing =>
      if earlier_known (startTimestamp e) (startTimestamp existing)
      then map_set key e m else m
  end.

(** The key of an item without signal: its identifier, or a generated
    string; the second component counts the generated ones. *)
Definition own_key (rt : Runtime) (it : value) (tick : nat) : result (string * nat) :=
  let* adId := external_id it in
  if truthy adId then Ok ("id:" +:+ to_string adId, tick)
  else Ok ("id:unique_" +:+ date_now rt tick +:+ "_" +:+ math_random rt tick, S tick).

(** [item.snapshot || {}] *)
Definition snapshot_of (it : value) : result value :=
  let* s := get it "snapshot" in Ok (js_or s (VObj [])).

Definition media_fingerprint (it : value) : result string :=
  let* snapshot := snapshot_of it in
  let firstVideo := opt_index (prop snapshot "videos") 0 in
  let videoUrl :=
    js_or (opt_prop firstVideo "video_hd_url")
      (js_or (opt_prop firstVideo "video_sd_url") (VStr "")) in
  let firstImage := opt_index (prop snapshot "images") 0 in
  let imageUrl :=
    if is_string firstImage then firstImage
    else js_or (opt_prop firstImage "resizedImageUrl")
           (js_or (opt_prop firstImage "url") (VStr "")) in
  getMediaFingerprint (js_or videoUrl imageUrl).

(** [snapshot.cards || []] then [cards[0] || {}] *)
Definition first_card (snapshot : value) : value :=
  let cards := js_or (prop snapshot "cards") (VArr []) in
  js_or (index cards 0) (VObj []).

Definition normalized_headline (it : value) : result string :=
  let* snapshot := snapshot_of it in
  let firstCard := first_card snapshot in
  let raw :=
    js_or (prop firstCard "title")
      (js_or (prop snapshot "title")
         (js_or (prop snapshot "link_description") (VStr ""))) in
  match raw with
  | VStr s => Ok (toLowerCase (trim s))
  | _ => Throw (TypeError "trim is not a function")
  end.

(** One iteration of the second and of the third loop. *)
Definition group_step (rt : Runtime) (prefix : string)
    (signal : value → result string) (it : value) (st : jsmap * nat)
    : result (jsmap * nat) :=
  let '(m, tick) := st in
  let* sig := signal it in
  let* ts := start_of rt it in
  let e := {| item := it; startTimestamp := ts |} in
  if negb (String.eqb sig "") then Ok (group_under (prefix +:+ sig) e m, tick)
  else
    let* (key, tick') := own_key rt it tick in
    Ok (map_set key e m, tick').

Fixpoint group_loop (rt : Runtime) (prefix : string)
    (signal : value → result string) (items : list value) (st : jsmap * nat)
    : result (jsmap * nat) :=
  match items with
  | [] => Ok st
  | it :: rest =>
      let* st' := group_step rt prefix signal it st in
      group_loop rt prefix signal rest st'
  end.

(** The object returned for one surviving item. [creative_url] and
    [video_url] are [null] or a non-empty string once the two type checks
    at the end of the cascade have run. *)
Record CanonicalAd : Type := {
  ad_id : string;
  brand_id : Z;
  rank : Z;
  creative_type : string;
  creative_url : option string;
  video_url : option string;
  ad_copy : value;
  headline : value;
  cta_type : value;
  start_date : value;
  ad_library_link : string;
  ai_format : option string;
  ai_hook : option string;
  ai_visual_style : option string;
  ai_angle : option string
}.

(** [a || b || ... || last] *)
Definition or_chain (vs : list value) (last : value) : value :=
  fold_right js_or last vs.

Definition extractUrl (val : value) : value :=
  if negb (truthy val) then VNull
  else if is_string val then val
  else if is_object val then
    or_chain (map (prop val)
      ["videoHdUrl"; "video_hd_url"; "videoSdUrl"; "video_sd_url";
       "videoPreviewImageUrl"; "video_preview_image_url";
       "resizedImageUrl"; "resized_image_url";
       "originalImageUrl"; "original_image_url"; "url"]%string) VNull
  else VNull.

Definition extractVideoPreviewUrl (videoObj : value) : value :=
  if negb (truthy videoObj) then VNull
  else if is_object videoObj then
    or_chain (map (prop videoObj)
      ["videoPreviewImageUrl"; "video_preview_image_url"]%string) VNull
  else VNull.

(** [v > 0] *)
Definition gt_zero (rt : Runtime) (v : value) : bool :=
  match v with
  | VNum n => 0 <? n
  | VBool b => b
  | VUndef | VNull => false
  | _ => match to_number rt v with Some n => 0 <? n | None => false end
  end.

(** The cascade over the card and snapshot fields: the pair
    [(creativeUrl, videoUrl)] and the creative type. *)
Definition resolve_media (rt : Runtime) (snapshot firstCard : value)
    : value * value * string :=
  if truthy (js_or (prop firstCard "videoHdUrl") (prop firstCard "videoSdUrl")) then
    (or_chain [extractUrl (prop firstCard "videoPreviewImageUrl");
               extractUrl (prop firstCard "resizedImageUrl")]
       (extractUrl (prop firstCard "originalImageUrl")),
     js_or (extractUrl (prop firstCard "videoHdUrl"))
       (extractUrl (prop firstCard "videoSdUrl")),
     "video"%string)
  else if truthy (js_or (prop firstCard "resizedImageUrl")
                    (prop firstCard "originalImageUrl")) then
    (js_or (extractUrl (prop firstCard "resizedImageUrl"))
       (extractUrl (prop firstCard "originalImageUrl")),
     VNull, "image"%string)
  else if truthy (prop snapshot "videos")
          && gt_zero rt (prop (prop snapshot "videos") "length") then
    let firstVideo := index (prop snapshot "videos") 0 in
    (or_chain [extractVideoPreviewUrl firstVideo;
               extractUrl (opt_index (prop snapshot "images") 0)] VNull,
     extractUrl firstVideo, "video"%string)
  else if truthy (prop snapshot "images")
          && gt_zero rt (prop (prop snapshot "images") "length") then
    (extractUrl (index (prop snapshot "images") 0), VNull, "image"%string)
  else (VNull, VNull, "image"%string).

(** The fallback loop over [possibleMediaFields]. *)
Definition possibleMediaFields (it snapshot firstCard : value) : list value :=
  map (prop it)
    ["imageUrl"; "image_url"; "thumbnailUrl"; "thumbnail_url";
     "mediaUrl"; "media_url"; "previewUrl"; "preview_url"]%string
  ++ map (prop snapshot)
    ["imageUrl"; "image_url"; "thumbnailUrl"; "thumbnail_url";
     "mediaUrl"; "media_url"; "previewUrl"; "preview_url"]%string
  ++ map (prop firstCard)
    ["imageUrl"; "image_url"; "thumbnailUrl"; "thumbnail_url"]%string.

Definition is_http_string (field : value) : bool :=
  match field with
  | VStr s => truthy field && startsWith "http" s
  | _ => false
  end.

Definition fallback_media (fields : list value) : value :=
  match find is_http_string fields with
  | Some field => field
  | None => VNull
  end.

(** [if (u && typeof u !== 'string') u = null], read as a column value *)
Definition string_or_null (u : value) : option string :=
  match u with
  | VStr s => if truthy u then Some s else None
  | _ => None
  end.

Definition adCopy_of (snapshot firstCard : value) : value :=
  if is_string (prop firstCard "body") then prop firstCard "body"
  else if truthy (opt_prop (prop firstCard "body") "text")
       then opt_prop (prop firstCard "body") "text"
  else if is_string (prop snapshot "body") then prop snapshot "body"
  else if truthy (opt_prop (prop snapshot "body") "text")
       then opt_prop (prop snapshot "body") "text"
  else VStr "".

Definition startDate_of (rt : Runtime) (it : value) : result value :=
  let formatted := prop it "startDateFormatted" in
  let startDate := prop it "startDate" in
  if truthy formatted then
    match formatted with
    | VStr s => Ok (VStr (before_T s))
    | _ => Throw (TypeError "split is not a function")
    end
  else
    match startDate with
    | VNum n =>
        if Z.abs (n * 1000) <=? 8640000000000000
        then Ok (VStr (iso_date_of_ms rt (n * 1000)))
        else Throw (RangeError "Invalid time value")
    | _ => if truthy startDate then Ok startDate else Ok VNull
    end.

(** The callback of the final [map]; [i] is the index in [top20Unique]. *)
Definition to_canonical (rt : Runtime) (brandId : Z) (tick : nat)
    (i : nat) (it : value) : result CanonicalAd :=
  let* ext := external_id it in
  let adId :=
    js_or ext (VStr ("apify_" +:+ date_now rt (tick + i) +:+ "_" +:+ pretty i)) in
  let snapshot := js_or (prop it "snapshot") (VObj []) in
  let firstCard := first_card snapshot in
  let '(creativeUrl, videoUrl, creativeType) := resolve_media rt snapshot firstCard in
  let creativeUrl :=
    if negb (truthy creativeUrl) && negb (truthy videoUrl)
    then fallback_media (possibleMediaFields it snapshot firstCard)
    else creativeUrl in
  let* startDate := startDate_of rt it in
  Ok {| ad_id := to_string adId;
        brand_id := brandId;
        rank := Z.of_nat i + 1;
        creative_type := creativeType;
        creative_url := string_or_null creativeUrl;
        video_url := string_or_null videoUrl;
        ad_copy := adCopy_of snapshot firstCard;
        headline := js_or (prop firstCard "title") (js_or (prop snapshot "title") (VStr ""));
        cta_type := or_chain [prop firstCard "ctaText"; prop firstCard "ctaType";
                              prop snapshot "ctaText"] (VStr "");
        start_date := startDate;
        ad_library_link := "https://www.facebook.com/ads/library/?id=" +:+ to_string adId;
        ai_format := None;
        ai_hook := None;
        ai_visual_style := None;
        ai_angle := None |}.

(** [xs.map((x, index) => f(index, x))], starting at index [i] *)
Fixpoint map_indexed {A B : Type} (f : nat → A → result B) (i : nat) (xs : list A)
    : result (list B) :=
  match xs with
  | [] => Ok []
  | x :: r =>
      let* y := f i x in
      let* ys := map_indexed f (S i) r in
      Ok (y :: ys)
  end.

(** The three passes, up to [uniqueResults]. *)
Definition uniqueResults (rt : Runtime) (apifyResults : list value)
    : result (list value * nat) :=
  let* byId := uniqueById [] apifyResults in
  let* (mediaGrouped, t1) := group_loop rt "media:" media_fingerprint byId ([], 0%nat) in
  let afterMediaDedup := map_values mediaGrouped in
  let* (headlineGrouped, t2) :=
    group_loop rt "headline:" normalized_headline afterMediaDedup ([], t1) in
  Ok (map_values headlineGrouped, t2).

Definition transformApifyResults (rt : Runtime) (apifyResults : list value)
    (brandId : Z) : result (list CanonicalAd) :=
  let* (unique, tick) := uniqueResults rt apifyResults in
  let top20Unique := firstn 20 unique in
  map_indexed (to_canonical rt brandId tick) 0 top20Unique.

(** *** Notions used to state the properties of the passes *)

(** What the test of [group_under] leaves under a key: the entry already
    there, unless the candidate has an earlier known start. *)
Definition keep (cur cand : entry) : entry :=
  if earlier_known (startTimestamp cand) (startTimestamp cur) then cand else cur.

Definition absorb (slot : option entry) (cand : entry) : option entry :=
  match slot with
  | None => Some cand
  | Some cur => Some (keep cur cand)
  end.

(** The collapsing group of a signal: the entries of the items that carry
    it, in the order of the list. *)
Fixpoint members (rt : Runtime) (signal : value → result string) (sig : string)
    (items : list value) : list entry :=
  match items with
  | [] => []
  | it :: rest =>
      match signal it, start_of rt it with
      | Ok s, Ok ts =>
          if String.eqb s sig
          then {| item := it; startTimestamp := ts |} :: members rt signal sig rest
          else members rt signal sig rest
      | _, _ => members rt signal sig rest
      end
  end.

(** A known start: a timestamp that is a number above 0. *)
Definition known (e : entry) (t : Z) : Prop := startTimestamp e = Some t ∧ 0 < t.

(** The signal of an item when it has one. *)
Definition nonempty_signal (signal : value → result string) (it : value)
    : option string :=
  match signal it with
  | Ok s => if String.eqb s "" then None else Some s
  | Throw _ => None
  end.

(** The identifier of an item as it is printed into a key. *)
Definition rendered_id (it : value) : option string :=
  match external_id it with
  | Ok v => if truthy v then Some (to_string v) else None
  | Throw _ => None
  end.

(** The [n]-th generated key, without its [id:] prefix. *)
Definition generated (rt : Runtime) (n : nat) : string :=
  "unique_" +:+ date_now rt n +:+ "_" +:+ math_random rt n.

(** Generated keys are fresh: no two readings give the same key, and none
    gives the identifier of an item. *)
Definition fresh_keys (rt : Runtime) (items : list value) : Prop :=
  (∀ n m, generated rt n = generated rt m → n = m)
  ∧ ∀ w r n, w ∈ items → rendered_id w = Some r → r ≠ generated rt n.

(** Identifiers that print alike are the same identifier. *)
Definition printable (items : list value) : Prop :=
  ∀ u w vu vw, u ∈ items → w ∈ items →
    external_id u = Ok vu → external_id w = Ok vw →
    truthy vu = true → truthy vw = true →
    to_string vu = to_string vw → same_value_zero vu vw = true.

(** The item has no identifier, or none of the items before it has the
    same one. *)
Definition first_of_its_id (pre : list value) (it : value) : Prop :=
  ∃ v, external_id it = Ok v
       ∧ (truthy v = false
          ∨ ∀ u vu, u ∈ pre → external_id u = Ok vu → same_value_zero v vu = false).

(** Keys are distinct, and an item with a signal sits under the key of
    that signal. *)
Definition keyed (prefix : string) (signal : value → result string) (m : jsmap)
    : Prop :=
  NoDup m.*1
  ∧ ∀ k e s, (k, e) ∈ m → nonempty_signal signal (item e) = Some s → k = prefix +:+ s.

(** The representative of every collapsing group of a grouping pass. *)
Definition representative_rule (rt : Runtime) (prefix : string)
    (signal : value → result string) (items : list value) (m : jsmap) : Prop :=
  ∀ sig, sig ≠ "" →
    match members rt signal sig items with
    | [] => map_get (prefix +:+ sig) m = None
    | first :: rest =>
        ∃ rep, map_get (prefix +:+ sig) m = Some rep
          ∧ rep ∈ first :: rest
          ∧ item rep ∈ map_values m
          ∧ (∀ t0, known first t0 →
               ∃ t, known rep t ∧ ∀ x tx, x ∈ first :: rest → known x tx → t ≤ tx)
          ∧ ((∀ x, x ∈ first :: rest → startTimestamp x = Some 0) → rep = first)
    end.

(** A canonical ad that carries no analysis, as every output of the
    Deduplicator does. *)
Definition without_analysis (ad : CanonicalAd) : Prop :=
  ai_format ad = None ∧ ai_hook ad = None
  ∧ ai_visual_style ad = None ∧ ai_angle ad = None.

(** The identifier pass keeps the first item of every identifier and none
    of the later ones. *)
Definition first_kept (items byId : list value) : Prop :=
  ∀ pre it post v,
    items = pre ++ it :: post → external_id it = Ok v → truthy v = true →
    (∀ x vx, x ∈ pre → external_id x = Ok vx → same_value_zero v vx = false) →
    ∃ k1 k2, byId = k1 ++ it :: k2
      ∧ ∀ y vy, y ∈ k2 → external_id y = Ok vy → same_value_zero v vy = false.

End Dedup.

(** ** Dates and weeks *)

Module Clock.

(** Milliseconds since the epoch, and days since 1970-01-01. *)
Definition instant : Type := Z.
Definition day : Type := Z.

Definition ms_per_day : Z := 86400000.

(** [t.toISOString().split('T')[0]] *)
Definition day_of (t : instant) : day := t / ms_per_day.

(** [new Date(d + 'T00:00:00')] *)
Definition midnight (d : day) : instant := d * ms_per_day.

(** [t.getDay()]: 0 is Sunday; 1970-01-01 was a Thursday. *)
Definition getDay (t : instant) : Z := (day_of t + 4) mod 7.

(** [getWeekStart]. [d.setDate(d.getDate() - day + k)] moves [d] by
    [k - day] whole days, whatever the day of the month is;
    [d.setHours(0, 0, 0, 0)] then cuts it to midnight. *)
Definition getWeekStart (date : instant) : day :=
  let d := date in
  let day := getDay d in
  let diff := - day + (if day =? 0 then -6 else 1) in
  let d := d + diff * ms_per_day in
  let d := midnight (day_of d) in
  day_of d.

End Clock.

Import Clock.

(** ** The store, the Reconciler and the snapshot recorder *)

Module Vault.

(** A row of [ad_vault], without its key [ad_id] (UNIQUE NOT NULL): the
    table is a map from [ad_id] to the rest of the row. SQLite columns are
    dynamically typed; the descriptive columns hold the bound argument. *)
Record StoredAd : Type := {
  id : Z;
  brand_id : Z;
  date_scraped : day;
  rank : Z;
  creative_type : option string;
  creative_url : option string;
  video_url : option string;
  ad_copy : value;
  headline : value;
  cta_type : value;
  start_date : value;
  ad_library_link : value;
  ai_format : option string;
  ai_hook : option string;
  ai_visual_style : option string;
  ai_angle : option string;
  ai_asset_type : option string;
  ai_visual_format : option string;
  ai_messaging_angle : option string;
  ai_hook_tactic : option string;
  ai_offer_type : option string;
  bookmarked : option Z;
  first_seen : option day;
  last_seen : option day;
  weeks_in_top10 : Z;
  updated_at : instant
}.

(** The three tables the pipeline touches. [brands] maps a brand id to its
    [last_scraped]; [weekly_snapshots] maps the UNIQUE triple
    [(brand_id, ad_id, week_start)] to the rank; [ad_seq] is the last row
    id given out by AUTOINCREMENT. *)
Record db : Type := {
  brands : gmap Z (option instant);
  ad_vault : gmap string StoredAd;
  weekly_snapshots : gmap (Z * string * day) Z;
  ad_seq : Z
}.

(** [bookmarked = 0 OR bookmarked IS NULL] *)
Definition unbookmarked (r : StoredAd) : bool :=
  match bookmarked r with
  | None => true
  | Some b => b =? 0
  end.

(** The WHERE clause of the cleanup:
    [brand_id = ? AND ad_id NOT IN (...) AND (bookmarked = 0 OR bookmarked IS NULL)] *)
Definition stale (brandId : Z) (newAdIds : list string) (kv : string * StoredAd) : bool :=
  (brand_id (snd kv) =? brandId)
  && negb (bool_decide (fst kv ∈ newAdIds))
  && unbookmarked (snd kv).

(** [SELECT ad_id FROM ad_vault WHERE ...] *)
Definition select_stale (brandId : Z) (newAdIds : list string) (d : db) : gset string :=
  dom (filter (λ kv, stale brandId newAdIds kv = true) (ad_vault d)).

(** [DELETE FROM weekly_snapshots WHERE ad_id IN (...)] *)
Definition delete_snapshots (deleteIds : gset string) (d : db) : db :=
  {| brands := brands d;
     ad_vault := ad_vault d;
     weekly_snapshots :=
       filter (λ kv, snd (fst (fst kv)) ∉ deleteIds) (weekly_snapshots d);
     ad_seq := ad_seq d |}.

(** [DELETE FROM ad_vault WHERE ...] *)
Definition delete_stale (brandId : Z) (newAdIds : list string) (d : db) : db :=
  {| brands := brands d;
     ad_vault := filter (λ kv, stale brandId newAdIds kv = false) (ad_vault d);
     weekly_snapshots := weekly_snapshots d;
     ad_seq := ad_seq d |}.

(** [weeksInTop10] of an existing row in the cycle whose week starts at
    [weekStart]. *)
Definition next_weeks (weekStart : day) (existing : StoredAd) : Z :=
  let lastSeenDate := option_map midnight (last_seen existing) in
  let lastWeek := option_map getWeekStart lastSeenDate in
  match lastWeek with
  | Some w => if negb (w =? weekStart) then weeks_in_top10 existing + 1
              else weeks_in_top10 existing
  | None => weeks_in_top10 existing
  end.

(** [COALESCE(?, column)] *)
Definition coalesce {A : Type} (arg column : option A) : option A :=
  match arg with
  | Some a => Some a
  | None => column
  end.

(** The row after the UPDATE of an existing ad. *)
Definition updated_row (now : instant) (ad : Dedup.CanonicalAd) (existing : StoredAd)
    : StoredAd :=
  {| id := id existing;
     brand_id := brand_id existing;
     date_scraped := date_scraped existing;
     rank := Dedup.rank ad;
     creative_type := coalesce (Some (Dedup.creative_type ad)) (creative_type existing);
     creative_url := coalesce (Dedup.creative_url ad) (creative_url existing);
     video_url := coalesce (Dedup.video_url ad) (video_url existing);
     ad_copy := ad_copy existing;
     headline := headline existing;
     cta_type := cta_type existing;
     start_date := start_date existing;
     ad_library_link := ad_library_link existing;
     ai_format := ai_format existing;
     ai_hook := ai_hook existing;
     ai_visual_style := ai_visual_style existing;
     ai_angle := ai_angle existing;
     ai_asset_type := ai_asset_type existing;
     ai_visual_format := ai_visual_format existing;
     ai_messaging_angle := ai_messaging_angle existing;
     ai_hook_tactic := ai_hook_tactic existing;
     ai_offer_type := ai_offer_type existing;
     bookmarked := bookmarked existing;
     first_seen := first_seen existing;
     last_seen := Some (day_of now);
     weeks_in_top10 := next_weeks (getWeekStart now) existing;
     updated_at := now |}.

(** [{...existing, rank, last_seen: today, weeks_in_top10}] *)
Definition reported_row (now : instant) (ad : Dedup.CanonicalAd) (existing : StoredAd)
    : StoredAd :=
  {| id := id existing;
     brand_id := brand_id existing;
     date_scraped := date_scraped existing;
     rank := Dedup.rank ad;
     creative_type := creative_type existing;
     creative_url := creative_url existing;
     video_url := video_url existing;
     ad_copy := ad_copy existing;
     headline := headline existing;
     cta_type := cta_type existing;
     start_date := start_date existing;
     ad_library_link := ad_library_link existing;
     ai_format := ai_format existing;
     ai_hook := ai_hook existing;
     ai_visual_style := ai_visual_style existing;
     ai_angle := ai_angle existing;
     ai_asset_type := ai_asset_type existing;
     ai_visual_format := ai_visual_format existing;
     ai_messaging_angle := ai_messaging_angle existing;
     ai_hook_tactic := ai_hook_tactic existing;
     ai_offer_type := ai_offer_type existing;
     bookmarked := bookmarked existing;
     first_seen := first_seen existing;
     last_seen := Some (day_of now);
     weeks_in_top10 := next_weeks (getWeekStart now) existing;
     updated_at := updated_at existing |}.

(** [s || null] and [String(v || '')] *)
Definition or_null (s : option string) : option string :=
  match s with
  | Some u => if String.eqb u "" then None else Some u
  | None => None
  end.

Definition string_of (v : value) : value := VStr (to_string (js_or v (VStr ""))).

(** [ad.start_date || null], serialised when it is an object *)
Definition start_date_arg (rt : Runtime) (v : value) : value :=
  match js_or v VNull with
  | (VArr _ | VObj _) as o => VStr (json_stringify rt o)
  | a => a
  end.

(** The row written by the INSERT of a new ad; the columns that the
    statement does not name take their defaults. *)
Definition inserted_row (rt : Runtime) (now : instant) (brandId : Z)
    (ad : Dedup.CanonicalAd) (rowid : Z) : StoredAd :=
  {| id := rowid;
     brand_id := brandId;
     date_scraped := day_of now;
     rank := Dedup.rank ad;
     creative_type :=
       Some (if String.eqb (Dedup.creative_type ad) "" then "image"%string
             else Dedup.creative_type ad);
     creative_url := or_null (Dedup.creative_url ad);
     video_url := or_null (Dedup.video_url ad);
     ad_copy := string_of (Dedup.ad_copy ad);
     headline := string_of (Dedup.headline ad);
     cta_type := string_of (Dedup.cta_type ad);
     start_date := start_date_arg rt (Dedup.start_date ad);
     ad_library_link := VStr (Dedup.ad_library_link ad);
     ai_format := or_null (Dedup.ai_format ad);
     ai_hook := or_null (Dedup.ai_hook ad);
     ai_visual_style := or_null (Dedup.ai_visual_style ad);
     ai_angle := or_null (Dedup.ai_angle ad);
     ai_asset_type := None;
     ai_visual_format := None;
     ai_messaging_angle := None;
     ai_hook_tactic := None;
     ai_offer_type := None;
     bookmarked := Some 0;
     first_seen := Some (day_of now);
     last_seen := Some (day_of now);
     weeks_in_top10 := 1;
     updated_at := now |}.

Definition put_ad (adId : string) (row : StoredAd) (d : db) : db :=
  {| brands := brands d;
     ad_vault := <[adId := row]> (ad_vault d);
     weekly_snapshots := weekly_snapshots d;
     ad_seq := ad_seq d |}.

(** [INSERT INTO ad_vault]: the next row id is given out. *)
Definition insert_ad (adId : string) (row : Z → StoredAd) (d : db) : db * Z :=
  let rowid := ad_seq d + 1 in
  ({| brands := brands d;
      ad_vault := <[adId := row rowid]> (ad_vault d);
      weekly_snapshots := weekly_snapshots d;
      ad_seq := rowid |}, rowid).

(** [INSERT OR REPLACE INTO weekly_snapshots] *)
Definition upsert_snapshot (brandId : Z) (adId : string) (weekStart : day)
    (rank : Z) (d : db) : db :=
  {| brands := brands d;
     ad_vault := ad_vault d;
     weekly_snapshots := <[(brandId, adId, weekStart) := rank]> (weekly_snapshots d);
     ad_seq := ad_seq d |}.

(** [UPDATE brands SET last_scraped = CURRENT_TIMESTAMP WHERE id = ?] *)
Definition touch_brand (now : instant) (brandId : Z) (d : db) : db :=
  {| brands := alter (λ _, Some now) brandId (brands d);
     ad_vault := ad_vault d;
     weekly_snapshots := weekly_snapshots d;
     ad_seq := ad_seq d |}.

(** The statements sent to the database, as far as a caller can tell them
    apart. *)
Inductive stmt : Type :=
| SelectBrand
| SelectStale
| DeleteSnapshots
| DeleteStale
| SelectAd (adId : string)
| UpdateAd (adId : string)
| InsertAd (adId : string)
| UpsertSnapshot (adId : string)
| TouchBrand
| ReplaceAd (adId : string)
| SelectUnanalyzed
| UpdateTags (adId : string).

(** An entry of [processedAds]. *)
Inductive processed : Type :=
| Existing (adId : string) (row : StoredAd)
| New (ad : Dedup.CanonicalAd) (rowid : Z) (first_seen last_seen : day).

(** A computation over the database that may throw; what was written
    before the throw stays written, there is no transaction. *)
Definition DB (A : Type) : Type := db → db * result A.

Definition ret {A : Type} (a : A) : DB A := λ d, (d, Ok a).

Definition and_then {A B : Type} (m : DB A) (k : A → DB B) : DB B :=
  λ d, match m d with
       | (d', Ok a) => k a d'
       | (d', Throw e) => (d', Throw e)
       end.

Notation "'await' x ':=' e 'in' k" := (and_then e (λ x, k))
  (at level 10, x pattern, e at level 100, k at level 200).

Section Storage.

(** Which statements the storage rejects. *)
Variable fails : stmt → bool.

(** [await db.execute(...)] *)
Definition execute {A : Type} (s : stmt) (run : db → db * A) : DB A :=
  λ d, if fails s then (d, Throw (Error "storage error"))
       else let '(d', a) := run d in (d', Ok a).

Definition query {A : Type} (s : stmt) (q : db → A) : DB A :=
  execute s (λ d, (d, q d)).

Definition command (s : stmt) (c : db → db) : DB unit :=
  execute s (λ d, (c d, tt)).

(** The cleanup block, entered when [newAdIds.length > 0]. *)
Definition cleanup (brandId : Z) (newAdIds : list string) : DB unit :=
  await adsToDelete := query SelectStale (select_stale brandId newAdIds) in
  await _ := (if bool_decide (adsToDelete = ∅) then ret tt
             else command DeleteSnapshots (delete_snapshots adsToDelete)) in
  command DeleteStale (delete_stale brandId newAdIds).

(** The body of the loop over [scrapedAds]. *)
Definition merge_ad (rt : Runtime) (now : instant) (brandId : Z)
    (ad : Dedup.CanonicalAd) : DB processed :=
  let adId := Dedup.ad_id ad in
  await existing := query (SelectAd adId) (λ d, ad_vault d !! adId) in
  await entry :=
    match existing with
    | Some existing =>
        await _ := command (UpdateAd adId) (put_ad adId (updated_row now ad existing)) in
        ret (Existing adId (reported_row now ad existing))
    | None =>
        await rowid := execute (InsertAd adId)
                         (insert_ad adId (inserted_row rt now brandId ad)) in
        ret (New ad rowid (day_of now) (day_of now))
    end in
  await _ := command (UpsertSnapshot adId)
               (upsert_snapshot brandId adId (getWeekStart now) (Dedup.rank ad)) in
  ret entry.

Fixpoint merge_loop (rt : Runtime) (now : instant) (brandId : Z)
    (scrapedAds : list Dedup.CanonicalAd) (processedAds : list processed)
    : DB (list processed) :=
  match scrapedAds with
  | [] => ret processedAds
  | ad :: rest =>
      await entry := merge_ad rt now brandId ad in
      merge_loop rt now brandId rest (processedAds ++ [entry])
  end.

Definition processScrapedAds (rt : Runtime) (now : instant) (brandId : Z)
    (scrapedAds : list Dedup.CanonicalAd) : DB (list processed) :=
  await brandResult := query SelectBrand (λ d, brands d !! brandId) in
  match brandResult with
  | None => ret []
  | Some _ =>
      let newAdIds := map Dedup.ad_id scrapedAds in
      await _ := (if (0 <? Z.of_nat (length newAdIds)) then cleanup brandId newAdIds
                 else ret tt) in
      await processedAds := merge_loop rt now brandId scrapedAds [] in
      await _ := command TouchBrand (touch_brand now brandId) in
      ret processedAds
  end.

(** *** The store of the scheduled scrape

    The loop [for (const ad of transformed)] of [runScheduledScrapeAll]:
    one INSERT OR REPLACE per ad inside a [try] whose [catch] is empty. The
    statement first reads the old [first_seen] and [weeks_in_top10] of the
    [ad_id], then replaces the whole row; the columns it does not name take
    their defaults. The client refuses an argument that is an object. *)

Definition bindable (v : value) : bool :=
  match v with
  | VUndef | VArr _ | VObj _ => false
  | _ => true
  end.

Definition replaced_row (now : instant) (brandId : Z) (ad : Dedup.CanonicalAd)
    (old : option StoredAd) (rowid : Z) : StoredAd :=
  {| id := rowid;
     brand_id := brandId;
     date_scraped := day_of now;
     rank := Dedup.rank ad;
     creative_type := Some (Dedup.creative_type ad);
     creative_url := Dedup.creative_url ad;
     video_url := Dedup.video_url ad;
     ad_copy := Dedup.ad_copy ad;
     headline := Dedup.headline ad;
     cta_type := Dedup.cta_type ad;
     start_date := Dedup.start_date ad;
     ad_library_link := VStr (Dedup.ad_library_link ad);
     ai_format := None;
     ai_hook := None;
     ai_visual_style := None;
     ai_angle := None;
     ai_asset_type := None;
     ai_visual_format := None;
     ai_messaging_angle := None;
     ai_hook_tactic := None;
     ai_offer_type := None;
     bookmarked := Some 0;
     first_seen := coalesce (old ≫= first_seen) (Some (day_of now));
     last_seen := Some (day_of now);
     weeks_in_top10 := default 0 (weeks_in_top10 <$> old) + 1;
     updated_at := now |}.

Definition replace_ad (now : instant) (brandId : Z) (ad : Dedup.CanonicalAd)
    (d : db) : db * unit :=
  let adId := Dedup.ad_id ad in
  let rowid := ad_seq d + 1 in
  ({| brands := brands d;
      ad_vault := <[adId := replaced_row now brandId ad (ad_vault d !! adId) rowid]>
                    (ad_vault d);
      weekly_snapshots := weekly_snapshots d;
      ad_seq := rowid |}, tt).

(** [try { await m } catch (e) { }] *)
Definition ignoring_errors (m : DB unit) : DB unit :=
  λ d, (fst (m d), Ok tt).

Definition store_scheduled_ad (now : instant) (brandId : Z)
    (ad : Dedup.CanonicalAd) : DB unit :=
  ignoring_errors
    (if forallb bindable [Dedup.ad_copy ad; Dedup.headline ad;
                          Dedup.cta_type ad; Dedup.start_date ad]
     then execute (ReplaceAd (Dedup.ad_id ad)) (replace_ad now brandId ad)
     else λ d, (d, Throw (TypeError "cannot bind an object"))).

Fixpoint store_scheduled (now : instant) (brandId : Z)
    (transformed : list Dedup.CanonicalAd) : DB unit :=
  match transformed with
  | [] => ret tt
  | ad :: rest =>
      await _ := store_scheduled_ad now brandId ad in
      store_scheduled now brandId rest
  end.

(** *** The tagging state *)

(** The object an analysis returns, as far as the UPDATE reads it. *)
Record analysis : Type := {
  asset_type : value;
  visual_format : value;
  messaging_angle : value;
  hook_tactic : value;
  offer_type : value
}.

(** Truthiness of a TEXT cell read back into JavaScript. *)
Definition present (cell : option string) : bool :=
  match cell with
  | Some s => negb (String.eqb s "")
  | None => false
  end.

(** The condition of the first [if] of [analyzeAdCreative]. *)
Definition has_all_tags (ad : StoredAd) : bool :=
  present (ai_asset_type ad) && present (ai_visual_format ad)
  && present (ai_messaging_angle ad) && present (ai_hook_tactic ad)
  && present (ai_offer_type ad).

Definition cell_value (cell : option string) : value :=
  match cell with
  | Some s => VStr s
  | None => VNull
  end.

(** [analyzeAdCreative]: the stored tags when all five are there, the
    answer of the tagging provider otherwise. *)
Definition analyzeAdCreative (provider : StoredAd → analysis) (ad : StoredAd)
    : analysis :=
  if has_all_tags ad then
    {| asset_type := cell_value (ai_asset_type ad);
       visual_format := cell_value (ai_visual_format ad);
       messaging_angle := cell_value (ai_messaging_angle ad);
       hook_tactic := cell_value (ai_hook_tactic ad);
       offer_type := cell_value (ai_offer_type ad) |}
  else provider ad.

(** [WHERE ai_asset_type IS NULL OR ai_asset_type = ''], the selection of
    [runBatchAnalysis], of the batch endpoint and of the unanalyzed count *)
Definition unanalyzed (ad : StoredAd) : bool :=
  match ai_asset_type ad with
  | None => true
  | Some s => String.eqb s ""
  end.

(** An argument bound to a TEXT column. *)
Definition text_cell (v : value) : result (option string) :=
  match v with
  | VNull => Ok None
  | VStr s => Ok (Some s)
  | VNum n => Ok (Some (pretty n))
  | VBool b => Ok (Some (if b then "1" else "0")%string)
  | VUndef | VArr _ | VObj _ => Throw (TypeError "cannot bind the argument")
  end.

(** The row after the UPDATE of its tags. *)
Definition tagged_row (now : instant) (ad : StoredAd)
    (a b c e f : option string) : StoredAd :=
  {| id := id ad;
     brand_id := brand_id ad;
     date_scraped := date_scraped ad;
     rank := rank ad;
     creative_type := creative_type ad;
     creative_url := creative_url ad;
     video_url := video_url ad;
     ad_copy := ad_copy ad;
     headline := headline ad;
     cta_type := cta_type ad;
     start_date := start_date ad;
     ad_library_link := ad_library_link ad;
     ai_format := ai_format ad;
     ai_hook := ai_hook ad;
     ai_visual_style := ai_visual_style ad;
     ai_angle := ai_angle ad;
     ai_asset_type := a;
     ai_visual_format := b;
     ai_messaging_angle := c;
     ai_hook_tactic := e;
     ai_offer_type := f;
     bookmarked := bookmarked ad;
     first_seen := first_seen ad;
     last_seen := last_seen ad;
     weeks_in_top10 := weeks_in_top10 ad;
     updated_at := now |}.

(** [UPDATE ad_vault SET ... WHERE id = ?] on the five tag columns. *)
Definition update_tags (now : instant) (adId : string)
    (a b c e f : option string) (d : db) : db :=
  {| brands := brands d;
     ad_vault := alter (λ cur, tagged_row now cur a b c e f) adId (ad_vault d);
     weekly_snapshots := weekly_snapshots d;
     ad_seq := ad_seq d |}.

Definition write_tags (now : instant) (adId : string) (r : analysis) : DB unit :=
  match text_cell (asset_type r), text_cell (visual_format r),
        text_cell (messaging_angle r), text_cell (hook_tactic r),
        text_cell (offer_type r) with
  | Ok a, Ok b, Ok c, Ok e, Ok f =>
      command (UpdateTags adId) (update_tags now adId a b c e f)
  | _, _, _, _, _ => λ d, (d, Throw (TypeError "cannot bind the argument"))
  end.

Fixpoint analyze_each (provider : StoredAd → analysis) (now : instant)
    (unanalyzedAds : list (string * StoredAd)) : DB unit :=
  match unanalyzedAds with
  | [] => ret tt
  | (adId, ad) :: rest =>
      await _ := ignoring_errors
                   (write_tags now adId (analyzeAdCreative provider ad)) in
      analyze_each provider now rest
  end.

(** [runBatchAnalysis]; the order of the selected rows does not matter,
    each UPDATE touches the row it was computed from. *)
Definition runBatchAnalysis (provider : StoredAd → analysis) (now : instant)
    : DB unit :=
  await unanalyzedAds :=
    query SelectUnanalyzed
      (λ d, map_to_list (filter (λ kv, unanalyzed (snd kv) = true) (ad_vault d))) in
  analyze_each provider now unanalyzedAds.

End Storage.

(** Storage that accepts every statement. *)
Definition reliable : stmt → bool := λ _, false.

(** *** Notions used to state the properties of the Reconciler *)

(** The row of an ad after its merge, and the database after it, when the
    storage accepts the statements. *)
Definition merged_row (rt : Runtime) (now : instant) (brandId : Z)
    (ad : Dedup.CanonicalAd) (d : db) : StoredAd :=
  match ad_vault d !! Dedup.ad_id ad with
  | Some existing => updated_row now ad existing
  | None => inserted_row rt now brandId ad (ad_seq d + 1)
  end.

Definition merged (rt : Runtime) (now : instant) (brandId : Z)
    (d : db) (ad : Dedup.CanonicalAd) : db :=
  {| brands := brands d;
     ad_vault := <[Dedup.ad_id ad := merged_row rt now brandId ad d]> (ad_vault d);
     weekly_snapshots :=
       <[(brandId, Dedup.ad_id ad, getWeekStart now) := Dedup.rank ad]>
         (weekly_snapshots d);
     ad_seq := match ad_vault d !! Dedup.ad_id ad with
               | Some _ => ad_seq d
               | None => ad_seq d + 1
               end |}.

(** The database after the two DELETEs of the cleanup. *)
Definition cleaned (brandId : Z) (newAdIds : list string) (d : db) : db :=
  delete_stale brandId newAdIds
    (delete_snapshots (select_stale brandId newAdIds d) d).

(** The row was last seen in the week of [now]. *)
Definition in_week (now : instant) (r : StoredAd) : Prop :=
  ∃ ls, last_seen r = Some ls ∧ getWeekStart (midnight ls) = getWeekStart now.

Definition same_tags (r r' : StoredAd) : Prop :=
  ai_asset_type r' = ai_asset_type r ∧ ai_visual_format r' = ai_visual_format r
  ∧ ai_messaging_angle r' = ai_messaging_angle r
  ∧ ai_hook_tactic r' = ai_hook_tactic r
  ∧ ai_offer_type r' = ai_offer_type r.

End Vault.

(** ** Sample data *)

Module Sample.

(** A runtime whose clock stands still and whose random numbers never
    repeat, and one whose random numbers repeat. No date string parses. *)
Definition rt : Runtime :=
  {| date_getTime := λ _, None;
     iso_date_of_ms := λ ms, "day " +:+ pretty (day_of ms);
     date_now := λ _, "1704848400000";
     math_random := λ n, "0." +:+ pretty n;
     to_number := λ _, None;
     json_stringify := λ _, "{}" |}.

Definition stuck : Runtime :=
  {| date_getTime := λ _, None;
     iso_date_of_ms := λ ms, "day " +:+ pretty (day_of ms);
     date_now := λ _, "1704848400000";
     math_random := λ _, "0.5";
     to_number := λ _, None;
     json_stringify := λ _, "{}" |}.

Definition image (url : string) : value :=
  VObj [("images", VArr [VObj [("url", VStr url)]])].

(** The three items of the scenario: a headline without media, and twice
    the same media with the starts 100 and 50. *)
Definition item_A : value :=
  VObj [("adArchiveID", VStr "x1"); ("snapshot", VObj [("title", VStr "Sale")])].

Definition item_B : value :=
  VObj [("adArchiveID", VStr "x2"); ("startDate", VNum 100);
        ("snapshot", image "https://cdn.example/v/t39/1234567890_111_n.jpg?x=1")].

Definition item_C : value :=
  VObj [("adArchiveID", VStr "x3"); ("startDate", VNum 50);
        ("snapshot", image "https://cdn2.example/v/t39/1234567890_111_n.jpg?y=2")].

Definition batch : list value := [item_A; item_B; item_C].

Definition batch_out : list Dedup.CanonicalAd :=
  Eval vm_compute in default [] (ok (Dedup.transformApifyResults rt batch 7)).

Definition batch_survivors : list value * nat :=
  Eval vm_compute in default ([], 0%nat) (ok (Dedup.uniqueResults rt batch)).

(** Two items with one identifier, the later one started earlier. *)
Definition late : value := VObj [("adArchiveID", VStr "a"); ("startDate", VNum 100)].
Definition early : value := VObj [("adArchiveID", VStr "a"); ("startDate", VNum 50)].

(** Two items with one media file, the first without a start date. *)
Definition undated : value :=
  VObj [("adArchiveID", VStr "z0");
        ("snapshot", image "https://cdn.example/v/t39/1234567890_111_n.jpg")].

Definition dated : value :=
  VObj [("adArchiveID", VStr "z1"); ("startDate", VNum 50);
        ("snapshot", image "https://cdn.example/v/t39/1234567890_111_n.jpg")].

(** Items with nothing but an identifier, and one with nothing at all. *)
Definition bare (adId : value) : value := VObj [("adArchiveID", adId)].
Definition twin : value := bare (VStr "x").
Definition anonymous : value := VObj [].
Definition crowd : list value :=
  map (λ n : nat, bare (VStr (pretty n))) (seq 1 21).

(** 2024-01-10 01:00, 2024-01-11 09:00 and 2024-01-16 00:00, UTC. *)
Definition wednesday : instant := midnight 19732 + 3600000.
Definition thursday : instant := midnight 19733 + 32400000.
Definition next_tuesday : instant := midnight 19738.

Definition canonical (adId : string) (rank : Z) : Dedup.CanonicalAd :=
  {| Dedup.ad_id := adId;
     Dedup.brand_id := 1;
     Dedup.rank := rank;
     Dedup.creative_type := "image";
     Dedup.creative_url := None;
     Dedup.video_url := None;
     Dedup.ad_copy := VStr "";
     Dedup.headline := VStr "";
     Dedup.cta_type := VStr "";
     Dedup.start_date := VNull;
     Dedup.ad_library_link := "https://www.facebook.com/ads/library/?id=" +:+ adId;
     Dedup.ai_format := None;
     Dedup.ai_hook := None;
     Dedup.ai_visual_style := None;
     Dedup.ai_angle := None |}.

Definition ad_a : Dedup.CanonicalAd := canonical "a" 1.
Definition ad_b : Dedup.CanonicalAd := canonical "b" 2.
Definition ad_c : Dedup.CanonicalAd := canonical "c" 3.

Definition row (rowid weeks : Z) (bookmarked : option Z) (last_seen : option day)
    (asset_type : option string) : Vault.StoredAd :=
  {| Vault.id := rowid;
     Vault.brand_id := 1;
     Vault.date_scraped := 19723;
     Vault.rank := 1;
     Vault.creative_type := Some "image";
     Vault.creative_url := None;
     Vault.video_url := None;
     Vault.ad_copy := VStr "";
     Vault.headline := VStr "";
     Vault.cta_type := VStr "";
     Vault.start_date := VNull;
     Vault.ad_library_link := VStr "";
     Vault.ai_format := None;
     Vault.ai_hook := None;
     Vault.ai_visual_style := None;
     Vault.ai_angle := None;
     Vault.ai_asset_type := asset_type;
     Vault.ai_visual_format := None;
     Vault.ai_messaging_angle := None;
     Vault.ai_hook_tactic := None;
     Vault.ai_offer_type := None;
     Vault.bookmarked := bookmarked;
     Vault.first_seen := Some 19723;
     Vault.last_seen := last_seen;
     Vault.weeks_in_top10 := weeks;
     Vault.updated_at := midnight 19723 |}.

(** An empty vault with brand 1 registered. *)
Definition registry : Vault.db :=
  {| Vault.brands := {[1 := None]};
     Vault.ad_vault := ∅;
     Vault.weekly_snapshots := ∅;
     Vault.ad_seq := 0 |}.

(** Brand 1 with three stored ads: [a], last seen on Monday 2024-01-08
    with three weeks; [old], not bookmarked; [fav], bookmarked. *)
Definition row_a : Vault.StoredAd := row 1 3 (Some 0) (Some 19730) None.
Definition row_old : Vault.StoredAd := row 2 5 None (Some 19723) None.
Definition row_fav : Vault.StoredAd := row 3 2 (Some 1) (Some 19723) None.

Definition stocked : Vault.db :=
  {| Vault.brands := {[1 := None]};
     Vault.ad_vault := {["a" := row_a; "old" := row_old; "fav" := row_fav]};
     Vault.weekly_snapshots := {[(1, "old", 19723) := 4; (1, "fav", 19723) := 2]};
     Vault.ad_seq := 3 |}.

(** Storage that rejects the INSERT of the ad [b]. *)
Definition rejects_b (s : Vault.stmt) : bool :=
  match s with
  | Vault.InsertAd adId => String.eqb adId "b"
  | _ => false
  end.

(** A row with one of the five tags, and a provider with a fixed answer. *)
Definition row_partial : Vault.StoredAd := row 1 1 (Some 0) (Some 19730) (Some "UGC").

Definition tagged_once : Vault.db :=
  {| Vault.brands := {[1 := None]};
     Vault.ad_vault := {["p" := row_partial]};
     Vault.weekly_snapshots := ∅;
     Vault.ad_seq := 1 |}.

Definition provider (_ : Vault.StoredAd) : Vault.analysis :=
  {| Vault.asset_type := VStr "UGC";
     Vault.visual_format := VStr "Talking Head";
     Vault.messaging_angle := VStr "FOMO";
     Vault.hook_tactic := VStr "Question";
     Vault.offer_type := VStr "No Offer" |}.

End Sample.

(** ** Feeds of the expected shape *)

Module Feed.

(** Every character of [s] satisfies [p]. *)
Fixpoint all_chars (p : ascii → bool) (s : string) : bool :=
  match s with
  | EmptyString => true
  | String c r => p c && all_chars p r
  end.

(** A field that is absent, [null] or a string. *)
Definition textual (v : value) : bool :=
  match v with VUndef | VNull | VStr _ => true | _ => false end.

(** An item as the scraping service documents it: an object whose media
    addresses, titles, description and formatted start date are strings
    where they are present, and whose numeric start date is in the range of
    [Date]. The fields are those that [transformApifyResults] calls string
    methods on, reached the way it reaches them. *)
Definition well_shaped (it : value) : bool :=
  match it with
  | VObj _ =>
      let snapshot := js_or (prop it "snapshot") (VObj []) in
      let firstVideo := opt_index (prop snapshot "videos") 0 in
      let firstImage := opt_index (prop snapshot "images") 0 in
      let firstCard := Dedup.first_card snapshot in
      forallb textual
        [opt_prop firstVideo "video_hd_url"; opt_prop firstVideo "video_sd_url";
         opt_prop firstImage "resizedImageUrl"; opt_prop firstImage "url";
         prop firstCard "title"; prop snapshot "title";
         prop snapshot "link_description"; prop it "startDateFormatted"]
      && match prop it "startDate" with
         | VNum n => Z.abs (n * 1000) <=? 8640000000000000
         | _ => true
         end
  | _ => false
  end.

End Feed.

(** ** Notions used to state the properties of the write paths *)

Module Ledger.
Import Vault.

(** The columns of a stored ad by who writes them: the descriptive columns
    are written once, by the INSERT; the provenance columns are the row
    id, the brand, the first sighting and the bookmark; the analysis
    columns are the nine AI columns. *)
Definition descriptive (r : StoredAd) : value * value * value * value * value :=
  (ad_copy r, headline r, cta_type r, start_date r, ad_library_link r).

Definition provenance (r : StoredAd) : Z * Z * day * option day * option Z :=
  (id r, brand_id r, date_scraped r, first_seen r, bookmarked r).

Definition legacy_analysis (r : StoredAd)
    : option string * option string * option string * option string :=
  (ai_format r, ai_hook r, ai_visual_style r, ai_angle r).

Definition tags (r : StoredAd)
    : option string * option string * option string * option string * option string :=
  (ai_asset_type r, ai_visual_format r, ai_messaging_angle r,
   ai_hook_tactic r, ai_offer_type r).

(** A row without its five tags and its [updated_at]. *)
Definition untagged_part (r : StoredAd) : StoredAd :=
  tagged_row 0 r None None None None None.

(** Every stored ad and every snapshot row names a brand of the [brands]
    table. *)
Definition referential (d : db) : Prop :=
  (∀ adId r, ad_vault d !! adId = Some r → is_Some (brands d !! brand_id r))
  ∧ (∀ b adId w rk, weekly_snapshots d !! (b, adId, w) = Some rk →
       is_Some (brands d !! b)).

(** The [ad_id] of an entry of [processedAds], and its [isNew]. *)
Definition processed_id (p : processed) : string :=
  match p with
  | Existing adId _ => adId
  | New ad _ _ _ => Dedup.ad_id ad
  end.

Definition isNew (p : processed) : bool :=
  match p with
  | Existing _ _ => false
  | New _ _ _ _ => true
  end.

(** The provider answers every ad with an asset type that is a non-empty
    string and with four more values that can be bound. *)
Definition answers (provider : StoredAd → analysis) : Prop :=
  ∀ ad, ∃ a b c e f,
    text_cell (asset_type (provider ad)) = Ok (Some a) ∧ a ≠ ""%string
    ∧ text_cell (visual_format (provider ad)) = Ok b
    ∧ text_cell (messaging_angle (provider ad)) = Ok c
    ∧ text_cell (hook_tactic (provider ad)) = Ok e
    ∧ text_cell (offer_type (provider ad)) = Ok f.

(** A row as the scheduled INSERT OR REPLACE leaves it: not bookmarked,
    without analysis, under the brand of the scrape. *)
Definition reset (now : instant) (b : Z) (r : StoredAd) : Prop :=
  bookmarked r = Some 0 ∧ tags r = (None, None, None, None, None)
  ∧ legacy_analysis r = (None, None, None, None)
  ∧ brand_id r = b ∧ last_seen r = Some (day_of now).

(** The report of the merges on reliable storage, from the database they
    start from. *)
Definition entry (now : instant) (d : db) (ad : Dedup.CanonicalAd) : processed :=
  match ad_vault d !! Dedup.ad_id ad with
  | Some existing => Existing (Dedup.ad_id ad) (reported_row now ad existing)
  | None => New ad (ad_seq d + 1) (day_of now) (day_of now)
  end.

(** The arguments of the scheduled INSERT OR REPLACE can be bound. *)
Definition storable (ad : Dedup.CanonicalAd) : bool :=
  forallb bindable [Dedup.ad_copy ad; Dedup.headline ad;
                    Dedup.cta_type ad; Dedup.start_date ad].

End Ledger.

(** ** Handlers: state, errors and answers *)

Module Effect.

(** A computation over a store [S] that may throw; what was written before
    the throw stays written. *)
Definition M (S A : Type) : Type := S → S * result A.

Definition ret {S A : Type} (a : A) : M S A := λ s, (s, Ok a).

Definition raise {S A : Type} (e : exn) : M S A := λ s, (s, Throw e).

Definition and_then {S A B : Type} (m : M S A) (k : A → M S B) : M S B :=
  λ s, match m s with
       | (s', Ok a) => k a s'
       | (s', Throw e) => (s', Throw e)
       end.

Notation "'let!' x ':=' e 'in' k" := (and_then e (λ x, k))
  (at level 10, x pattern, e at level 100, k at level 200).

(** A pure step that may throw. *)
Definition lift {S A : Type} (r : result A) : M S A := λ s, (s, r).

(** [try { m } catch (error) { handler }] *)
Definition catching {S A : Type} (m : M S A) (handler : exn → A) : M S A :=
  λ s, match m s with
       | (s', Ok a) => (s', Ok a)
       | (s', Throw e) => (s', Ok (handler e))
       end.

(** [await db.execute(...)] against a store that rejects the statements
    [fails] selects. *)
Definition execute {S T A : Type} (fails : T → bool) (s : T) (run : S → S * A) : M S A :=
  λ st, if fails s then (st, Throw (Error "storage error"))
        else let '(st', a) := run st in (st', Ok a).

Definition query {S T A : Type} (fails : T → bool) (s : T) (q : S → A) : M S A :=
  execute fails s (λ st, (st, q st)).

Definition command {S T : Type} (fails : T → bool) (s : T) (c : S → S) : M S unit :=
  execute fails s (λ st, (c st, tt)).

(** What a handler sends: [res.status(n).json(body)]. *)
Record response : Type := { status : Z; body : value }.

Definition json (v : value) : response := {| status := 200; body := v |}.

Definition failure (code : Z) (message : string) : response :=
  {| status := code; body := VObj [("error", VStr message)] |}.

End Effect.

(** ** The schedule settings *)

Module Settings.
Import Effect.

Inductive stmt : Type :=
| SelectSetting (key : string)
| ReplaceSetting (key : string).

Record schedule : Type := {
  enabled : bool;
  day : value;
  hour : value;
  autoAnalyze : bool
}.

(** [v === 'true'] *)
Definition is_true_text (v : value) : bool :=
  match v with VStr s => String.eqb s "true" | _ => false end.

Section Storage.

Variable fails : stmt → bool.

(** The [settings] table maps a key to its value, a TEXT cell. *)
Definition getSetting (key : string) (defaultValue : value)
    : M (gmap string (option string)) value :=
  let! rows := query fails (SelectSetting key)
                 (λ t : gmap string (option string), t !! key) in
  ret (match rows with
       | Some cell => Vault.cell_value cell
       | None => defaultValue
       end).

(** [INSERT OR REPLACE INTO settings (key, value, updated_at)]; the callers
    pass strings. *)
Definition setSetting (key : string) (value : string)
    : M (gmap string (option string)) unit :=
  command fails (ReplaceSetting key)
    (λ t : gmap string (option string), <[key := Some value]> t).

Definition getScheduleSettings : M (gmap string (option string)) schedule :=
  let! e := getSetting "schedule_enabled" (VStr "false") in
  let! d := getSetting "schedule_day" (VStr "1") in
  let! h := getSetting "schedule_hour" (VStr "6") in
  let! a := getSetting "auto_analyze" (VStr "false") in
  ret {| enabled := is_true_text e; day := d; hour := h; autoAnalyze := is_true_text a |}.

Definition schedule_json (s : schedule) : value :=
  VObj [("enabled", VBool (enabled s)); ("day", day s); ("hour", hour s);
        ("autoAnalyze", VBool (autoAnalyze s))].

(** [GET /api/settings/schedule] *)
Definition get_schedule : M (gmap string (option string)) response :=
  catching
    (let! settings := getScheduleSettings in ret (json (schedule_json settings)))
    (λ _, failure 500 "Failed to get settings").

(** [POST /api/settings/schedule]. The call of [setupScheduledScrape]
    between the writes and the read touches no table. *)
Definition post_schedule (body : value) : M (gmap string (option string)) response :=
  catching
    (let! enabled := lift (get body "enabled") in
     let! day := lift (get body "day") in
     let! hour := lift (get body "hour") in
     let! autoAnalyze := lift (get body "autoAnalyze") in
     let! _ := setSetting "schedule_enabled" (if truthy enabled then "true" else "false") in
     let! _ := setSetting "schedule_day" (to_string day) in
     let! _ := setSetting "schedule_hour" (to_string hour) in
     let! _ := setSetting "auto_analyze" (if truthy autoAnalyze then "true" else "false") in
     let! settings := getScheduleSettings in
     ret (json (VObj [("success", VBool true); ("settings", schedule_json settings)])))
    (λ _, failure 500 "Failed to update settings").

End Storage.

(** What [POST /api/settings/schedule] stores for a body. *)
Definition stored (body : value) : schedule :=
  {| enabled := truthy (prop body "enabled");
     day := VStr (to_string (prop body "day"));
     hour := VStr (to_string (prop body "hour"));
     autoAnalyze := truthy (prop body "autoAnalyze") |}.

(** The expression that [setupScheduledScrape] hands to the scheduler. *)
Definition cronExpression (s : schedule) : string :=
  "0 " +:+ to_string (hour s) +:+ " * * " +:+ to_string (day s).

Definition reliable : stmt → bool := λ _, false.

End Settings.

(** ** Page identifiers and Ad Library addresses *)

Module PageIds.

(** The double quote, which the patterns of [resolvePageId] contain. *)
Definition dq : string := String "034" EmptyString.

(** [s] without its prefix [lit], when it starts with it. *)
Fixpoint strip_prefix (lit s : string) : option string :=
  match lit with
  | EmptyString => Some s
  | String a lit' =>
      match s with
      | String b s' => if Ascii.eqb a b then strip_prefix lit' s' else None
      | EmptyString => None
      end
  end.

(** A match of [lit(\d+)close] at the very start of [s]: the literal, then
    the whole run of digits, which is not empty, then the closing literal.
    The closing literals of the source are empty or a double quote, so
    giving back digits never helps the match. *)
Definition match_here (lit close s : string) : option string :=
  match strip_prefix lit s with
  | Some r =>
      let '(digits, r') := span is_digit r in
      if negb (String.eqb digits "") && bool_decide (is_Some (strip_prefix close r'))
      then Some digits else None
  | None => None
  end.

(** [s.match(/lit(\d+)close/)]: the leftmost match; the result is the
    captured group. *)
Fixpoint search (lit close s : string) : option string :=
  match match_here lit close s with
  | Some m => Some m
  | None =>
      match s with
      | EmptyString => None
      | String _ r => search lit close r
      end
  end.

(** The literal cannot start at the head of [s], whatever follows [s]:
    the two differ at a position that both have. *)
Fixpoint clash (lit s : string) : bool :=
  match lit, s with
  | String a lit', String b s' => if Ascii.eqb a b then clash lit' s' else true
  | _, _ => false
  end.

(** The literal cannot start anywhere in [s]. *)
Fixpoint clash_everywhere (lit s : string) : bool :=
  match s with
  | EmptyString => true
  | String _ r => clash lit s && clash_everywhere lit r
  end.

(** [buildAdLibraryUrl] *)
Definition buildAdLibraryUrl (pageId : value) : string :=
  "https://www.facebook.com/ads/library/?active_status=active&ad_type=all&country=US&media_type=all&search_type=page&sort_data[direction]=desc&sort_data[mode]=total_impressions&view_all_page_id="
  +:+ to_string pageId.

(** The address that the CSV import stores as [fb_page_url]. *)
Definition importedAdLibraryUrl (pageId : value) : string :=
  "https://www.facebook.com/ads/library/?active_status=active&ad_type=all&country=US&is_targeted_country=false&media_type=all&search_type=page&sort_data[direction]=desc&sort_data[mode]=total_impressions&view_all_page_id="
  +:+ to_string pageId.

(** [ad_library_url.match(/view_all_page_id=(\d+)/)] of [POST /api/brands],
    for a value that passed the test [!ad_library_url]. *)
Definition pageIdMatch (ad_library_url : value) : result (option string) :=
  match ad_library_url with
  | VStr s => Ok (search "view_all_page_id=" "" s)
  | _ => Throw (TypeError "ad_library_url.match is not a function")
  end.

(** The patterns of [resolvePageId], in the order of the source: the
    literal before the group and the literal after it. *)
Definition patterns : list (string * string) :=
  [(dq +:+ "pageID" +:+ dq +:+ ":" +:+ dq, dq);
   ("page_id=", "");
   (dq +:+ "page_id" +:+ dq +:+ ":" +:+ dq, dq);
   ("fb://page/", "");
   (dq +:+ "entity_id" +:+ dq +:+ ":" +:+ dq, dq)]%string.

Fixpoint first_match (ps : list (string * string)) (html : string) : option string :=
  match ps with
  | [] => None
  | (lit, close) :: rest =>
      match search lit close html with
      | Some m => Some m
      | None => first_match rest html
      end
  end.

(** [resolvePageId], from what the fetch of the page gives: its text, or
    an error. *)
Definition resolvePageId (html : result string) : value :=
  match html with
  | Ok h => match first_match patterns h with
            | Some m => VStr m
            | None => VNull
            end
  | Throw _ => VNull
  end.

End PageIds.

(** ** The handlers over the vault and the scrape jobs *)

Module Server.
Import Effect.

(** A row of [scrape_jobs], without its key [id]. *)
Record Job : Type := {
  job_brand : Z;
  job_status : string;
  apify_run_id : option string;
  results : option string;
  result_count : Z;
  error_message : option string;
  completed_at : option instant
}.

Record server : Type := {
  vault : Vault.db;
  scrape_jobs : gmap Z Job;
  job_seq : Z
}.

(** The statements of the handlers; [Core] are those of the ingestion. *)
Inductive stmt : Type :=
| Core (s : Vault.stmt)
| SelectAdById (n : Z)
| UpdateBookmark (n : Z)
| CountUnanalyzed
| SelectJob (n : Z)
| CompleteJob (n : Z)
| FailJob (n : Z)
| DeleteOrphanAds
| DeleteOrphanSnapshots
| DeleteOrphanJobs
| DeleteSnapshotsOf (brandId : Z)
| DeleteAdsOf (brandId : Z)
| DeleteJobsOf (brandId : Z)
| DeleteBrand (brandId : Z).

Definition with_vault (d : Vault.db) (s : server) : server :=
  {| vault := d; scrape_jobs := scrape_jobs s; job_seq := job_seq s |}.

Definition with_jobs (jobs : gmap Z Job) (s : server) : server :=
  {| vault := vault s; scrape_jobs := jobs; job_seq := job_seq s |}.

(** A computation of the ingestion, run on the vault of the server. *)
Definition in_vault {A : Type} (m : Vault.DB A) : M server A :=
  λ s, let '(d, r) := m (vault s) in (with_vault d s, r).

(** The rows of [ad_vault] with the row id [n]: [WHERE id = ?]. *)
Definition rows_by_id (n : Z) (d : Vault.db) : list (string * Vault.StoredAd) :=
  map_to_list (filter (λ kv, Vault.id (snd kv) = n) (Vault.ad_vault d)).

(** [UPDATE ad_vault SET bookmarked = ?, updated_at = CURRENT_TIMESTAMP] *)
Definition bookmarked_row (now : instant) (flag : Z) (r : Vault.StoredAd)
    : Vault.StoredAd :=
  {| Vault.id := Vault.id r;
     Vault.brand_id := Vault.brand_id r;
     Vault.date_scraped := Vault.date_scraped r;
     Vault.rank := Vault.rank r;
     Vault.creative_type := Vault.creative_type r;
     Vault.creative_url := Vault.creative_url r;
     Vault.video_url := Vault.video_url r;
     Vault.ad_copy := Vault.ad_copy r;
     Vault.headline := Vault.headline r;
     Vault.cta_type := Vault.cta_type r;
     Vault.start_date := Vault.start_date r;
     Vault.ad_library_link := Vault.ad_library_link r;
     Vault.ai_format := Vault.ai_format r;
     Vault.ai_hook := Vault.ai_hook r;
     Vault.ai_visual_style := Vault.ai_visual_style r;
     Vault.ai_angle := Vault.ai_angle r;
     Vault.ai_asset_type := Vault.ai_asset_type r;
     Vault.ai_visual_format := Vault.ai_visual_format r;
     Vault.ai_messaging_angle := Vault.ai_messaging_angle r;
     Vault.ai_hook_tactic := Vault.ai_hook_tactic r;
     Vault.ai_offer_type := Vault.ai_offer_type r;
     Vault.bookmarked := Some flag;
     Vault.first_seen := Vault.first_seen r;
     Vault.last_seen := Vault.last_seen r;
     Vault.weeks_in_top10 := Vault.weeks_in_top10 r;
     Vault.updated_at := now |}.

Definition set_bookmark (now : instant) (n flag : Z) (d : Vault.db) : Vault.db :=
  {| Vault.brands := Vault.brands d;
     Vault.ad_vault :=
       (λ r, if bool_decide (Vault.id r = n) then bookmarked_row now flag r else r)
         <$> Vault.ad_vault d;
     Vault.weekly_snapshots := Vault.weekly_snapshots d;
     Vault.ad_seq := Vault.ad_seq d |}.

(** [ad.bookmarked ? 0 : 1] *)
Definition toggled (r : Vault.StoredAd) : Z :=
  match Vault.bookmarked r with
  | Some b => if b =? 0 then 1 else 0
  | None => 1
  end.

Section Handlers.

Variable fails : stmt → bool.
Variable now : instant.

(** [POST /api/ads/:id/bookmark]; [n] is the row id that [:id] is compared
    as (a text that is no number compares equal to no row id). *)
Definition toggle_bookmark (n : Z) : M server response :=
  catching
    (let! rows := query fails (SelectAdById n) (λ s, rows_by_id n (vault s)) in
     match rows with
     | [] => ret (failure 404 "Ad not found")
     | (_, ad) :: _ =>
         let newStatus := toggled ad in
         let! _ := command fails (UpdateBookmark (Vault.id ad))
                     (λ s, with_vault (set_bookmark now (Vault.id ad) newStatus (vault s)) s) in
         ret (json (VObj [("bookmarked", VBool (newStatus =? 1))]))
     end)
    (λ _, failure 500 "Failed to toggle bookmark").

(** The rows that [WHERE ai_asset_type IS NULL OR ai_asset_type = ''] selects. *)
Definition unanalyzed_rows (d : Vault.db) : list (string * Vault.StoredAd) :=
  map_to_list (filter (λ kv, Vault.unanalyzed (snd kv) = true) (Vault.ad_vault d)).

(** [GET /api/ads/unanalyzed/count] *)
Definition unanalyzed_count : M server response :=
  catching
    (let! n := query fails CountUnanalyzed
                 (λ s, Z.of_nat (length (unanalyzed_rows (vault s)))) in
     ret (json (VObj [("count", VNum n)])))
    (λ _, failure 500 "Failed to get count").

Variable provider : Vault.StoredAd → Vault.analysis.

(** What the analysis handlers send: an answer, or the analysis object. *)
Inductive sent : Type :=
| Answer (r : response)
| Analysis (a : Vault.analysis).

(** [POST /api/ads/:id/analyze]. The UPDATE is the one of
    [runBatchAnalysis], on the row that was read. *)
Definition analyze_one (n : Z) : M server sent :=
  catching
    (let! rows := query fails (SelectAdById n) (λ s, rows_by_id n (vault s)) in
     match rows with
     | [] => ret (Answer (failure 404 "Ad not found"))
     | (adId, ad) :: _ =>
         let analysis := Vault.analyzeAdCreative provider ad in
         let! _ := in_vault (Vault.write_tags (λ s, fails (Core s)) now adId analysis) in
         ret (Analysis analysis)
     end)
    (λ _, Answer (failure 500 "Failed to analyze ad")).

(** The loop of [POST /api/ads/analyze-batch], with its two counters. *)
Fixpoint analyze_counting (unanalyzedAds : list (string * Vault.StoredAd))
    (analyzed errors : Z) : M server (Z * Z) :=
  match unanalyzedAds with
  | [] => ret (analyzed, errors)
  | (adId, ad) :: rest =>
      let! counters :=
        catching
          (let! _ := in_vault (Vault.write_tags (λ s, fails (Core s)) now adId
                                 (Vault.analyzeAdCreative provider ad)) in
           ret (analyzed + 1, errors))
          (λ _, (analyzed, errors + 1)) in
      analyze_counting rest (fst counters) (snd counters)
  end.

(** [POST /api/ads/analyze-batch] *)
Definition analyze_batch : M server response :=
  catching
    (let! unanalyzedAds :=
       query fails (Core Vault.SelectUnanalyzed) (λ s, unanalyzed_rows (vault s)) in
     match unanalyzedAds with
     | [] => ret (json (VObj [("analyzed", VNum 0);
                              ("message", VStr "No unanalyzed ads found")]))
     | _ :: _ =>
         let! counters := analyze_counting unanalyzedAds 0 0 in
         ret (json (VObj [("analyzed", VNum (fst counters));
                          ("errors", VNum (snd counters));
                          ("total", VNum (Z.of_nat (length unanalyzedAds)))]))
     end)
    (λ _, failure 500 "Failed to batch analyze ads").

(** *** The status of a scrape job *)

Variable rt : Runtime.

(** What the scraping service answers for a run: the status that
    [pollApifyJob] returns and the items that [getApifyResults] returns
    (both catch their own errors), and the text that [JSON.stringify]
    makes of the report, if it makes one. *)
Variable pollApifyJob : string → value.
Variable getApifyResults : string → value.
Variable stringify : list Vault.processed → result string.

(** [transformApifyResults] on what the service returned: [filter] is a
    method of arrays only. *)
Definition transform (apifyResults : value) (brandId : Z)
    : result (list Dedup.CanonicalAd) :=
  match apifyResults with
  | VArr items => Dedup.transformApifyResults rt items brandId
  | _ => Throw (TypeError "apifyResults.filter is not a function")
  end.

Definition complete_job (jobId : Z) (text : string) (count : Z) (s : server) : server :=
  with_jobs
    (alter (λ job, {| job_brand := job_brand job;
                      job_status := "complete";
                      apify_run_id := apify_run_id job;
                      results := Some text;
                      result_count := count;
                      error_message := error_message job;
                      completed_at := Some now |}) jobId (scrape_jobs s)) s.

Definition fail_job (jobId : Z) (message : string) (s : server) : server :=
  with_jobs
    (alter (λ job, {| job_brand := job_brand job;
                      job_status := "error";
                      apify_run_id := apify_run_id job;
                      results := results job;
                      result_count := result_count job;
                      error_message := Some message;
                      completed_at := Some now |}) jobId (scrape_jobs s)) s.

(** [v === text] *)
Definition is_text (text : string) (v : value) : bool :=
  match v with VStr s => String.eqb s text | _ => false end.

(** [GET /api/scrape/status/:jobId] *)
Definition scrape_status (jobId : Z) : M server response :=
  catching
    (let! rows := query fails (SelectJob jobId) (λ s, scrape_jobs s !! jobId) in
     match rows with
     | None => ret (failure 404 "Job not found")
     | Some job =>
         if String.eqb (job_status job) "complete" || String.eqb (job_status job) "error"
         then ret (json (VObj [("status", VStr (job_status job));
                               ("resultCount", VNum (result_count job))]))
         else
           match apify_run_id job with
           | Some run =>
               if String.eqb run "" then
                 ret (json (VObj [("status", VStr (job_status job))]))
               else
               let apifyStatus := pollApifyJob run in
               if is_text "SUCCEEDED" apifyStatus then
                 let apifyResults := getApifyResults run in
                 let! _ := lift (get apifyResults "length") in
                 let! transformedAds := lift (transform apifyResults (job_brand job)) in
                 let! processedAds :=
                   in_vault (Vault.processScrapedAds (λ s, fails (Core s)) rt now
                               (job_brand job) transformedAds) in
                 let! text := lift (stringify processedAds) in
                 let count := Z.of_nat (length processedAds) in
                 let! _ := command fails (CompleteJob jobId) (complete_job jobId text count) in
                 ret (json (VObj [("status", VStr "complete"); ("resultCount", VNum count)]))
               else if is_text "FAILED" apifyStatus || is_text "ABORTED" apifyStatus
                       || is_text "TIMED-OUT" apifyStatus then
                 let! _ := command fails (FailJob jobId)
                             (fail_job jobId ("Apify job " +:+ to_string apifyStatus)) in
                 ret (json (VObj [("status", VStr "error");
                                  ("error", VStr ("Job " +:+ to_string apifyStatus))]))
               else ret (json (VObj [("status", VStr "running")]))
           | None => ret (json (VObj [("status", VStr (job_status job))]))
           end
     end)
    (λ _, failure 500 "Status check failed").

(** *** Rows without a brand *)

(** [DELETE FROM t WHERE brand_id NOT IN (SELECT id FROM brands)] on the
    three tables. *)
Definition delete_orphan_ads (s : server) : server :=
  with_vault
    {| Vault.brands := Vault.brands (vault s);
       Vault.ad_vault :=
         filter (λ kv, is_Some (Vault.brands (vault s) !! Vault.brand_id (snd kv)))
           (Vault.ad_vault (vault s));
       Vault.weekly_snapshots := Vault.weekly_snapshots (vault s);
       Vault.ad_seq := Vault.ad_seq (vault s) |} s.

Definition delete_orphan_snapshots (s : server) : server :=
  with_vault
    {| Vault.brands := Vault.brands (vault s);
       Vault.ad_vault := Vault.ad_vault (vault s);
       Vault.weekly_snapshots :=
         filter (λ kv, is_Some (Vault.brands (vault s) !! fst (fst (fst kv))))
           (Vault.weekly_snapshots (vault s));
       Vault.ad_seq := Vault.ad_seq (vault s) |} s.

Definition delete_orphan_jobs (s : server) : server :=
  with_jobs
    (filter (λ kv, is_Some (Vault.brands (vault s) !! job_brand (snd kv)))
       (scrape_jobs s)) s.

(** [cleanupOrphanedData]: the three DELETEs in one [try]. *)
Definition cleanupOrphanedData : M server unit :=
  catching
    (let! _ := command fails DeleteOrphanAds delete_orphan_ads in
     let! _ := command fails DeleteOrphanSnapshots delete_orphan_snapshots in
     command fails DeleteOrphanJobs delete_orphan_jobs)
    (λ _, tt).

(** [DELETE FROM t WHERE brand_id = ?] on the three tables, and
    [DELETE FROM brands WHERE id = ?]. *)
Definition delete_snapshots_of (brandId : Z) (s : server) : server :=
  with_vault
    {| Vault.brands := Vault.brands (vault s);
       Vault.ad_vault := Vault.ad_vault (vault s);
       Vault.weekly_snapshots :=
         filter (λ kv, fst (fst (fst kv)) ≠ brandId) (Vault.weekly_snapshots (vault s));
       Vault.ad_seq := Vault.ad_seq (vault s) |} s.

Definition delete_ads_of (brandId : Z) (s : server) : server :=
  with_vault
    {| Vault.brands := Vault.brands (vault s);
       Vault.ad_vault :=
         filter (λ kv, Vault.brand_id (snd kv) ≠ brandId) (Vault.ad_vault (vault s));
       Vault.weekly_snapshots := Vault.weekly_snapshots (vault s);
       Vault.ad_seq := Vault.ad_seq (vault s) |} s.

Definition delete_jobs_of (brandId : Z) (s : server) : server :=
  with_jobs (filter (λ kv, job_brand (snd kv) ≠ brandId) (scrape_jobs s)) s.

Definition delete_brand_row (brandId : Z) (s : server) : server :=
  with_vault
    {| Vault.brands := delete brandId (Vault.brands (vault s));
       Vault.ad_vault := Vault.ad_vault (vault s);
       Vault.weekly_snapshots := Vault.weekly_snapshots (vault s);
       Vault.ad_seq := Vault.ad_seq (vault s) |} s.

(** [DELETE /api/brands/:id]; [brandId] is the number that [:id] is
    compared as. *)
Definition delete_brand (brandId : Z) : M server response :=
  catching
    (let! _ := command fails (DeleteSnapshotsOf brandId) (delete_snapshots_of brandId) in
     let! _ := command fails (DeleteAdsOf brandId) (delete_ads_of brandId) in
     let! _ := command fails (DeleteJobsOf brandId) (delete_jobs_of brandId) in
     let! _ := command fails (DeleteBrand brandId) (delete_brand_row brandId) in
     ret (json (VObj [("success", VBool true)])))
    (λ _, failure 500 "Failed to delete brand").

End Handlers.

(** Every stored ad, every snapshot row and every job names a brand of the
    [brands] table. *)
Definition consistent (s : server) : Prop :=
  Ledger.referential (vault s)
  ∧ ∀ jobId job, scrape_jobs s !! jobId = Some job →
      is_Some (Vault.brands (vault s) !! job_brand job).

Definition reliable : stmt → bool := λ _, false.

End Server.

(** ** Sample data of the handlers *)

Module Demo.

(** The stocked vault behind the handlers, with a running job and a
    finished job of brand 1. *)
Definition running : Server.Job :=
  {| Server.job_brand := 1;
     Server.job_status := "running";
     Server.apify_run_id := Some "run-1"%string;
     Server.results := None;
     Server.result_count := 0;
     Server.error_message := None;
     Server.completed_at := None |}.

Definition finished : Server.Job :=
  {| Server.job_brand := 1;
     Server.job_status := "complete";
     Server.apify_run_id := Some "run-0"%string;
     Server.results := Some "[]"%string;
     Server.result_count := 0;
     Server.error_message := None;
     Server.completed_at := Some (midnight 19723) |}.

Definition server : Server.server :=
  {| Server.vault := Sample.stocked;
     Server.scrape_jobs := {[1 := finished; 2 := running]};
     Server.job_seq := 2 |}.

End Demo.

(** ** The brand registry and its imports *)

Module Registry.
Import Effect.

(** A row of [brands], without its key [id]; the cells are TEXT. *)
Record Brand : Type := {
  brand_name : string;
  website_url : option string;
  fb_page_url : string;
  page_id : option string;
  vertical : option string;
  status : string
}.

(** The table, and the last row id given out. *)
Record registry : Type := {
  rows : gmap Z Brand;
  seq : Z
}.

Inductive stmt : Type :=
| SelectByName (name : string)
| InsertBrand (name : string).

(** [s.split(sep)] for a separator of one character. *)
Fixpoint split_on (sep : ascii) (s : string) : list string :=
  match s with
  | EmptyString => [EmptyString]
  | String c r =>
      if Ascii.eqb c sep then EmptyString :: split_on sep r
      else match split_on sep r with
           | [] => [String c EmptyString]
           | x :: xs => String c x :: xs
           end
  end.

(** [header.indexOf(col)]; [None] is -1. *)
Fixpoint indexOf (col : string) (header : list string) : option nat :=
  match header with
  | [] => None
  | h :: rest => if String.eqb h col then Some 0%nat
                 else option_map S (indexOf col rest)
  end.

(** [values[idx]] as a condition and as a string: [undefined] and the
    empty string are falsy. *)
Definition cell (values : list string) (idx : option nat) : option string :=
  match idx with
  | Some i => values !! i
  | None => None
  end.

Definition filled (v : option string) : bool :=
  match v with
  | Some s => negb (String.eqb s "")
  | None => false
  end.

(** [categoryMap[category] || 'Other']. The map is an object literal: for
    the names of the members it inherits the lookup gives a function (an
    object for [__proto__]), which is truthy and is no text. *)
Definition categoryMap : list (string * string) :=
  [("Health/Supplements", "Health"); ("Health", "Health"); ("Apparel", "Apparel");
   ("Beauty", "Beauty"); ("Home Goods", "Home"); ("Home", "Home");
   ("Food/Bev", "Food"); ("Food & Beverage", "Food"); ("Food", "Food");
   ("Tech", "Tech"); ("Accessories", "Accessories"); ("Footwear", "Footwear")]%string.

Definition inherited : list string :=
  ["constructor"; "hasOwnProperty"; "isPrototypeOf"; "propertyIsEnumerable";
   "toLocaleString"; "toString"; "valueOf"; "__defineGetter__"; "__defineSetter__";
   "__lookupGetter__"; "__lookupSetter__"; "__proto__"]%string.

Fixpoint assoc (key : string) (m : list (string * string)) : option string :=
  match m with
  | [] => None
  | (k, v) :: rest => if String.eqb k key then Some v else assoc key rest
  end.

(** The vertical of a category: a text, or [None] for a value that cannot
    be bound. *)
Definition vertical_of (category : option string) : option string :=
  let key := default "undefined"%string category in
  match assoc key categoryMap with
  | Some v => Some v
  | None => if bool_decide (key ∈ inherited) then None else Some "Other"%string
  end.

(** The rows with a name: [SELECT id FROM brands WHERE brand_name = ?]. *)
Definition named (name : string) (t : registry) : gmap Z Brand :=
  filter (λ kv, brand_name (snd kv) = name) (rows t).

(** [INSERT INTO brands (...) VALUES (..., 'active')] *)
Definition insert_brand (b : Brand) (t : registry) : registry * Z :=
  ({| rows := <[seq t + 1 := b]> (rows t); seq := seq t + 1 |}, seq t + 1).

(** One data line of the CSV and what became of it. *)
Inductive fate : Type :=
| Blank
| Inserted (id : Z) (name : string)
| Skipped (name : string)
| Failed (name : string).

Section Csv.

Variable fails : stmt → bool.

(** [resolvePageIdByName], which catches its own errors: the [page_id] of
    the search result, or [null]. *)
Variable resolvePageIdByName : string → value.

(** The body of the loop of [POST /api/import/brands-csv] for the line
    [i]. A throw is the SELECT that the storage rejects: it is outside the
    inner [try]. *)
Definition import_line (brandNameIdx categoryIdx websiteIdx fbUrlIdx : option nat)
    (i : nat) (raw : string) : M registry fate :=
  let line := trim raw in
  if String.eqb line "" then ret Blank
  else
    let values := map trim (split_on "," line) in
    let brandName := cell values brandNameIdx in
    let category := cell values categoryIdx in
    let websiteDomain := match websiteIdx with
                         | Some _ => cell values websiteIdx
                         | None => Some EmptyString
                         end in
    let fbPageUrl := cell values fbUrlIdx in
    if negb (filled brandName) || negb (filled fbPageUrl) then
      ret (Failed (if filled brandName then default "" brandName
                   else "Row " +:+ pretty i))
    else
      let name := default "" brandName in
      let! existing := query fails (SelectByName name) (named name) in
      if bool_decide (existing ≠ ∅) then ret (Skipped name)
      else
        let vertical := vertical_of category in
        let websiteUrl := if filled websiteDomain
                          then "https://" +:+ default "" websiteDomain
                          else EmptyString in
        catching
          (let pageId := resolvePageIdByName name in
           if negb (truthy pageId) then ret (Failed name)
           else
             let adLibraryUrl := PageIds.importedAdLibraryUrl pageId in
             let! page := lift (Vault.text_cell pageId) in
             let! vert := lift (match vertical with
                                | Some v => Ok v
                                | None => Throw (TypeError "cannot bind the argument")
                                end) in
             let! id := execute fails (InsertBrand name)
                          (insert_brand {| brand_name := name;
                                           website_url := Some websiteUrl;
                                           fb_page_url := adLibraryUrl;
                                           page_id := page;
                                           vertical := Some vert;
                                           status := "active" |}) in
             ret (Inserted id name))
          (λ _, Failed name).

Fixpoint import_lines (b c w f : option nat) (i : nat) (lines : list string)
    : M registry (list fate) :=
  match lines with
  | [] => ret []
  | raw :: rest =>
      let! x := import_line b c w f i raw in
      let! xs := import_lines b c w f (S i) rest in
      ret (x :: xs)
  end.

(** What the handler answers: a refusal, or the fates of the data lines
    (from which the three lists and the summary are taken) and the total
    [lines.length - 1]. *)
Inductive outcome : Type :=
| Refused (r : response)
| Imported (fates : list fate) (total : Z).

Definition missing_columns (header : list string) : list string :=
  filter (λ col, negb (bool_decide (col ∈ header)))
    ["Brand Name"; "Category"; "Facebook Page URL"]%string.

Fixpoint join (sep : string) (xs : list string) : string :=
  match xs with
  | [] => EmptyString
  | [x] => x
  | x :: rest => x +:+ sep +:+ join sep rest
  end.

(** [POST /api/import/brands-csv] *)
Definition import_csv (csv : value) : M registry outcome :=
  catching
    (match csv with
     | VStr text =>
         if String.eqb text "" then
           ret (Refused (failure 400 "Expected CSV string in body"))
         else
           let lines := split_on "010" (trim text) in
           let header := map trim (split_on "," (hd EmptyString lines)) in
           match missing_columns header with
           | _ :: _ as missing =>
               ret (Refused (failure 400 ("Missing columns: " +:+ join ", " missing)))
           | [] =>
               let! fates :=
                 import_lines (indexOf "Brand Name" header) (indexOf "Category" header)
                   (indexOf "Website Domain" header)
                   (indexOf "Facebook Page URL" header) 1 (tl lines) in
               ret (Imported fates (Z.of_nat (length lines) - 1))
           end
     | _ => ret (Refused (failure 400 "Expected CSV string in body"))
     end)
    (λ _, Refused (failure 500 "Failed to import brands from CSV")).

End Csv.

(** The three lists of the answer. *)
Definition inserted (fates : list fate) : list (Z * string) :=
  omap (λ x, match x with Inserted id name => Some (id, name) | _ => None end) fates.

Definition skipped (fates : list fate) : list string :=
  omap (λ x, match x with Skipped name => Some name | _ => None end) fates.

Definition errors (fates : list fate) : list string :=
  omap (λ x, match x with Failed name => Some name | _ => None end) fates.

Definition blanks (fates : list fate) : list unit :=
  omap (λ x, match x with Blank => Some tt | _ => None end) fates.

(** The number of rows with a name. *)
Definition count (name : string) (t : registry) : nat := size (named name t).

(** The row ids in use were all given out. *)
Definition bounded (t : registry) : Prop :=
  ∀ k, is_Some (rows t !! k) → k ≤ seq t.

(** An import step: nothing changes, or a brand is inserted whose name no
    row had. *)
Definition grows (t t' : registry) : Prop :=
  bounded t'
  ∧ (∀ k br, rows t !! k = Some br → rows t' !! k = Some br)
  ∧ ∀ name, (count name t ≤ count name t' ∧ count name t' ≤ Nat.max 1 (count name t))%nat.

(** What a data line asks for, apart from the registry: nothing, an error
    entry, or a brand under a name (no brand when the page cannot be
    resolved or an argument cannot be bound). *)
Inductive plan : Type :=
| Nothing
| Reject (label : string)
| Propose (name : string) (brand : option Brand).

Definition plan_of (resolvePageIdByName : string → value)
    (brandNameIdx categoryIdx websiteIdx fbUrlIdx : option nat)
    (i : nat) (raw : string) : plan :=
  let line := trim raw in
  if String.eqb line "" then Nothing
  else
    let values := map trim (split_on "," line) in
    let brandName := cell values brandNameIdx in
    let websiteDomain := match websiteIdx with
                         | Some _ => cell values websiteIdx
                         | None => Some EmptyString
                         end in
    if negb (filled brandName) || negb (filled (cell values fbUrlIdx)) then
      Reject (if filled brandName then default "" brandName else "Row " +:+ pretty i)
    else
      let name := default "" brandName in
      let pageId := resolvePageIdByName name in
      Propose name
        (if negb (truthy pageId) then None
         else match Vault.text_cell pageId, vertical_of (cell values categoryIdx) with
              | Ok page, Some vert =>
                  Some {| brand_name := name;
                          website_url :=
                            Some (if filled websiteDomain
                                  then "https://" +:+ default "" websiteDomain
                                  else EmptyString);
                          fb_page_url := PageIds.importedAdLibraryUrl pageId;
                          page_id := page;
                          vertical := Some vert;
                          status := "active" |}
              | _, _ => None
              end).

Definition reliable : stmt → bool := λ _, false.

(** A file of three data lines: a brand, a blank line, the brand again. *)
Definition nl : string := String "010" EmptyString.

Definition sample_csv : string :=
  "Brand Name,Category,Website Domain,Facebook Page URL" +:+ nl
  +:+ "AG1,Health/Supplements,drinkag1.com,https://www.facebook.com/drinkAG1" +:+ nl
  +:+ "  " +:+ nl
  +:+ "AG1,Health,ag1.com,https://www.facebook.com/drinkAG1".

Definition sample_resolver (name : string) : value := VStr "183869772601".

Definition empty : registry := {| rows := ∅; seq := 0 |}.

End Registry.

(** ** Properties of the Deduplicator *)

Module DedupFacts.

Import Dedup.

(** A sequence returns only when its first part returned. *)
Lemma bind_Ok {A B} (r : result A) (k : A → result B) b :
  bind r k = Ok b → ∃ a, r = Ok a ∧ k a = Ok b.
Proof. destruct r; simpl; [eauto|discriminate]. Qed.

(** *** The map of a pass *)

Lemma map_get_set_eq key e m : map_get key (map_set key e m) = Some e.
Proof.
  induction m as [|[k e'] r IH]; simpl.
  - by rewrite String.eqb_refl.
  - destruct (String.eqb k key) eqn:E; simpl; rewrite E; done.
Qed.

Lemma map_get_set_ne key key' e m :
  key ≠ key' → map_get key' (map_set key e m) = map_get key' m.
Proof.
  intros Hne. induction m as [|[k e'] r IH]; simpl.
  - destruct (String.eqb_spec key key'); done.
  - destruct (String.eqb_spec k key) as [-> |]; simpl.
    + destruct (String.eqb_spec key key'); done.
    + destruct (String.eqb_spec k key'); done.
Qed.

(** Under its own key [group_under] absorbs the candidate; the other keys
    are left alone. *)
Lemma map_get_group_eq key e m :
  map_get key (group_under key e m) = absorb (map_get key m) e.
Proof.
  unfold group_under, absorb, keep. destruct (map_get key m) as [ex|] eqn:E.
  - destruct (earlier_known _ _); [apply map_get_set_eq|done].
  - apply map_get_set_eq.
Qed.

Lemma map_get_group_ne key key' e m :
  key ≠ key' → map_get key' (group_under key e m) = map_get key' m.
Proof.
  intros Hne. unfold group_under. destruct (map_get key m) as [ex|].
  - destruct (earlier_known _ _); [by apply map_get_set_ne|done].
  - by apply map_get_set_ne.
Qed.

(** The key of an item without signal starts with [id:]. *)
Lemma own_key_id rt it tick key tick' :
  own_key rt it tick = Ok (key, tick') → ∃ x, key = "id:" +:+ x.
Proof.
  unfold own_key. intros H. apply bind_Ok in H as (v & _ & H).
  destruct (truthy v); injection H as <- <-; eexists; reflexivity.
Qed.

Lemma append_inj_r p s s' : p +:+ s = p +:+ s' → s = s'.
Proof. induction p; simpl; intros H; [done|]. injection H as H. auto. Qed.

Section pass.
Variable rt : Runtime.
Variable prefix : string.
Variable signal : value → result string.
Hypothesis prefix_not_id : ∀ s x, prefix +:+ s ≠ "id:" +:+ x.

Lemma group_step_get it m tick m' tick' sig :
  group_step rt prefix signal it (m, tick) = Ok (m', tick') →
  sig ≠ "" →
  map_get (prefix +:+ sig) m'
  = fold_left absorb (members rt signal sig [it]) (map_get (prefix +:+ sig) m).
Proof.
  unfold group_step. intros H Hsig.
  apply bind_Ok in H as (s & Hs & H). apply bind_Ok in H as (ts & Hts & H).
  simpl. rewrite Hs, Hts.
  destruct (String.eqb_spec s "") as [-> |Hne]; simpl in H.
  - apply bind_Ok in H as ([key t'] & Hk & H). injection H as <- <-.
    apply own_key_id in Hk as [x ->].
    destruct (String.eqb_spec "" sig); [congruence|]. simpl.
    apply map_get_set_ne. intros E. by apply (prefix_not_id sig x).
  - injection H as <- <-.
    destruct (String.eqb_spec s sig) as [-> |Hd]; simpl.
    + apply map_get_group_eq.
    + apply map_get_group_ne. intros E. apply append_inj_r in E. done.
Qed.

Lemma members_cons sig it rest :
  members rt signal sig (it :: rest)
  = members rt signal sig [it] ++ members rt signal sig rest.
Proof.
  simpl. destruct (signal it); [|done]. destruct (start_of rt it); [|done].
  destruct (String.eqb _ _); done.
Qed.

(** What a pass leaves under the key of a signal: the members of the group,
    absorbed one after the other. *)
Lemma group_loop_get items : ∀ m tick m' tick' sig,
  group_loop rt prefix signal items (m, tick) = Ok (m', tick') →
  sig ≠ "" →
  map_get (prefix +:+ sig) m'
  = fold_left absorb (members rt signal sig items) (map_get (prefix +:+ sig) m).
Proof.
  induction items as [|it rest IH]; intros m tick m' tick' sig H Hsig; simpl in H.
  - injection H as <- <-. done.
  - apply bind_Ok in H as ([m1 t1] & H1 & H).
    rewrite members_cons, fold_left_app.
    rewrite (IH _ _ _ _ _ H Hsig). f_equal. by eapply group_step_get.
Qed.

End pass.

(** *** The representative of a group *)

Lemma fold_keep_in rest : ∀ first, fold_left keep rest first ∈ first :: rest.
Proof.
  induction rest as [|c r IH]; intros first; simpl; [apply elem_of_cons; by left|].
  specialize (IH (keep first c)). apply elem_of_cons in IH as [-> |IH].
  - unfold keep. destruct (earlier_known _ _);
      [apply elem_of_cons; right; apply elem_of_cons; by left|apply elem_of_cons; by left].
  - do 2 (apply elem_of_cons; right). done.
Qed.

Lemma earlier_known_spec c e :
  earlier_known (startTimestamp c) (startTimestamp e) = true ↔
  ∃ tc te, startTimestamp c = Some tc ∧ startTimestamp e = Some te ∧ 0 < tc < te.
Proof.
  unfold earlier_known. destruct (startTimestamp c) as [tc|], (startTimestamp e) as [te|];
    try (split; [done|intros (?&?&?&?&?); done]).
  rewrite andb_true_iff, !Z.ltb_lt. split.
  - intros [? ?]. exists tc, te. done.
  - intros (?&?&[= <-]&[= <-]&?). lia.
Qed.

(** When the first member has a known start, the kept entry has the
    smallest known start of the group. *)
Lemma fold_keep_min rest : ∀ first t0,
  known first t0 →
  ∃ t, known (fold_left keep rest first) t
       ∧ ∀ x tx, x ∈ first :: rest → known x tx → t ≤ tx.
Proof.
  induction rest as [|c r IH]; intros first t0 H0; simpl.
  - exists t0. split; [done|]. intros x tx Hx [Hs Hp].
    apply elem_of_cons in Hx as [-> |Hx]; [|by apply elem_of_nil in Hx]. destruct H0 as [H0 _].
    rewrite H0 in Hs. injection Hs as <-. lia.
  - unfold keep at 2.
    destruct (earlier_known (startTimestamp c) (startTimestamp first)) eqn:E.
    + apply earlier_known_spec in E as (tc & te & Hc & He & Hlt).
      destruct (IH c tc) as (t & Hk & Hmin); [split; [done|lia]|].
      exists t. split; [done|]. intros x tx Hx Hkx.
      apply elem_of_cons in Hx as [-> |Hx]; [|by apply (Hmin x tx)].
      destruct H0 as [H0 _], Hkx as [Hkx _]. rewrite H0 in Hkx, He.
      injection Hkx as <-. injection He as <-.
      assert (t ≤ tc); [|lia].
      apply (Hmin c tc); [apply elem_of_cons; by left|split; [done|lia]].
    + destruct (IH first t0 H0) as (t & Hk & Hmin).
      exists t. split; [done|]. intros x tx Hx Hkx.
      apply elem_of_cons in Hx as [-> |Hx];
        [apply (Hmin first tx); [apply elem_of_cons; by left|done]|].
      apply elem_of_cons in Hx as [-> |Hx];
        [|apply (Hmin x tx); [apply elem_of_cons; by right|done]].
      destruct Hkx as [Hkx Hp], H0 as [H0 Hp0].
      assert (t0 ≤ tx).
      { destruct (Z.le_gt_cases t0 tx); [done|].
        assert (earlier_known (startTimestamp c) (startTimestamp first) = true).
        { apply earlier_known_spec. exists tx, t0. repeat split; try done; lia. }
        congruence. }
      assert (t ≤ t0); [|lia].
      apply (Hmin first t0); [apply elem_of_cons; by left|done].
Qed.

(** A first member with the timestamp 0 is never replaced. *)
Lemma fold_keep_unknown rest : ∀ first,
  startTimestamp first = Some 0 → fold_left keep rest first = first.
Proof.
  induction rest as [|c r IH]; intros first H0; simpl; [done|].
  unfold keep at 2. destruct (earlier_known _ _) eqn:E; [|by apply IH].
  apply earlier_known_spec in E as (tc & te & _ & He & Hlt).
  rewrite H0 in He. injection He as <-. lia.
Qed.

(** *** The identifier pass *)

Lemma svz_eq a b : same_value_zero a b = true → a = b.
Proof.
  destruct a, b; simpl; try done.
  - intros H. apply Bool.eqb_prop in H. by subst.
  - intros H. apply Z.eqb_eq in H. by subst.
  - intros H. apply String.eqb_eq in H. by subst.
Qed.

Lemma svz_sym a b : same_value_zero a b = same_value_zero b a.
Proof.
  destruct a, b; simpl; try done.
  - by destruct b, b0.
  - apply Z.eqb_sym.
  - apply String.eqb_sym.
Qed.

Lemma existsb_false_elem {A} (f : A → bool) l x :
  existsb f l = false → x ∈ l → f x = false.
Proof.
  intros H Hx. destruct (f x) eqn:E; [|done].
  assert (existsb f l = true); [|congruence].
  apply existsb_exists. exists x. split; [by apply list_elem_of_In|done].
Qed.

Lemma existsb_false_intro {A} (f : A → bool) l :
  (∀ x, x ∈ l → f x = false) → existsb f l = false.
Proof.
  intros H. destruct (existsb f l) eqn:E; [|done].
  apply existsb_exists in E as (x & Hx & Hf). apply list_elem_of_In in Hx.
  rewrite H in Hf; done.
Qed.

(** The identifier of a kept item was not in the set before. *)
Lemma uniqueById_fresh items : ∀ seen kept,
  uniqueById seen items = Ok kept →
  ∀ y vy, y ∈ kept → external_id y = Ok vy → truthy vy = true →
  existsb (same_value_zero vy) seen = false.
Proof.
  induction items as [|it rest IH]; intros seen kept H y vy Hy Hid Ht; simpl in H.
  - injection H as <-. by apply elem_of_nil in Hy.
  - apply bind_Ok in H as (v & Hv & H).
    destruct (truthy v) eqn:Hvt; simpl in H.
    + destruct (existsb (same_value_zero v) seen) eqn:Hs.
      * by apply (IH _ _ H y vy).
      * apply bind_Ok in H as (k' & Hk' & H). injection H as <-.
        apply elem_of_cons in Hy as [-> |Hy].
        -- rewrite Hv in Hid. by injection Hid as <-.
        -- pose proof (IH _ _ Hk' y vy Hy Hid Ht) as Hf. simpl in Hf.
           by apply orb_false_elim in Hf as [_ ?].
    + apply bind_Ok in H as (k' & Hk' & H). injection H as <-.
      apply elem_of_cons in Hy as [-> |Hy].
      * rewrite Hv in Hid. injection Hid as <-. congruence.
      * by apply (IH _ _ Hk' y vy).
Qed.

(** An item without identifier, or with an identifier that no earlier item
    and no element of the set has, is kept; the pass splits around it. *)
Lemma uniqueById_split pre : ∀ seen it post kept v,
  uniqueById seen (pre ++ it :: post) = Ok kept →
  external_id it = Ok v →
  (truthy v = false
   ∨ (existsb (same_value_zero v) seen = false
      ∧ ∀ x vx, x ∈ pre → external_id x = Ok vx → same_value_zero v vx = false)) →
  ∃ k1 k2 seen',
    kept = k1 ++ it :: k2
    ∧ uniqueById seen pre = Ok k1
    ∧ uniqueById seen' post = Ok k2
    ∧ (truthy v = true → v ∈ seen')
    ∧ ∀ w, w ∈ seen' → w ∈ seen ∨ ∃ u, u ∈ pre ++ [it] ∧ external_id u = Ok w.
Proof.
  induction pre as [|p pre IH]; intros seen it post kept v H Hv Hc; simpl in H.
  - apply bind_Ok in H as (v' & Hv' & H). rewrite Hv in Hv'. injection Hv' as <-.
    destruct (truthy v) eqn:Ht; simpl in H.
    + destruct Hc as [?|[Hs _]]; [done|]. rewrite Hs in H.
      apply bind_Ok in H as (k2 & Hk2 & H). injection H as <-.
      exists [], k2, (v :: seen). repeat split; try done.
      * intros _. apply elem_of_cons. by left.
      * intros w Hw. apply elem_of_cons in Hw as [-> |Hw]; [|by left].
        right. exists it. split; [apply elem_of_cons; by left|done].
    + apply bind_Ok in H as (k2 & Hk2 & H). injection H as <-.
      exists [], k2, seen. repeat split; try done. intros w Hw. by left.
  - apply bind_Ok in H as (vp & Hvp & H).
    assert (Hstep : ∀ seen0 kept0,
      uniqueById seen0 (pre ++ it :: post) = Ok kept0 →
      (∀ w, w ∈ seen0 → w ∈ seen ∨ w = vp) →
      (truthy v = true → existsb (same_value_zero v) seen0 = false) →
      ∃ k1 k2 seen',
        kept0 = k1 ++ it :: k2 ∧ uniqueById seen0 pre = Ok k1
        ∧ uniqueById seen' post = Ok k2
        ∧ (truthy v = true → v ∈ seen')
        ∧ ∀ w, w ∈ seen' → w ∈ seen ∨ ∃ u, u ∈ (p :: pre) ++ [it] ∧ external_id u = Ok w).
    { intros seen0 kept0 H0 Hsub Hex.
      destruct (IH seen0 it post kept0 v H0 Hv) as (k1 & k2 & seen' & E1 & E2 & E3 & E4 & E5).
      { destruct Hc as [?|[Hs Hpre]]; [by left|].
        destruct (truthy v) eqn:Ht; [right|by left]. split; [by apply Hex|].
        intros x vx Hx. apply Hpre. apply elem_of_cons. by right. }
      exists k1, k2, seen'. repeat split; try done.
      intros w Hw. destruct (E5 w Hw) as [Hw0|[u [Hu Hidu]]].
      - destruct (Hsub w Hw0) as [?| ->]; [by left|]. right. exists p.
        split; [apply elem_of_cons; by left|done].
      - right. exists u. split; [apply elem_of_cons; by right|done]. }
    destruct (truthy vp) eqn:Htp; simpl in H.
    + destruct (existsb (same_value_zero vp) seen) eqn:Hs.
      * destruct (Hstep seen kept H) as (k1 & k2 & seen' & E1 & E2 & E3 & E4 & E5).
        { intros w Hw. by left. }
        { intros Ht. destruct Hc as [?|[? _]]; [congruence|done]. }
        exists k1, k2, seen'. repeat split; try done.
        simpl. rewrite Hvp; simpl. rewrite Htp, Hs; simpl. done.
      * apply bind_Ok in H as (k' & Hk' & H). injection H as <-.
        destruct (Hstep (vp :: seen) k' Hk') as (k1 & k2 & seen' & E1 & E2 & E3 & E4 & E5).
        { intros w Hw. apply elem_of_cons in Hw as [-> |Hw]; [by right|by left]. }
        { intros Ht. destruct Hc as [?|[Hs' Hpre]]; [congruence|]. simpl.
          rewrite Hs', (Hpre p vp); [done|apply elem_of_cons; by left|done]. }
        exists (p :: k1), k2, seen'. repeat split; try done.
        -- by rewrite E1.
        -- simpl. rewrite Hvp; simpl. rewrite Htp, Hs; simpl. by rewrite E2.
    + apply bind_Ok in H as (k' & Hk' & H). injection H as <-.
      destruct (Hstep seen k' Hk') as (k1 & k2 & seen' & E1 & E2 & E3 & E4 & E5).
      { intros w Hw. by left. }
      { intros Ht. destruct Hc as [?|[? _]]; [congruence|done]. }
      exists (p :: k1), k2, seen'. repeat split; try done.
      * by rewrite E1.
      * simpl. rewrite Hvp; simpl. rewrite Htp; simpl. by rewrite E2.
Qed.

(** *** Keys and values of the map *)

Lemma map_get_None key (m : jsmap) : map_get key m = None ↔ key ∉ m.*1.
Proof.
  induction m as [|[k e] r IH].
  - split; [intros _; apply not_elem_of_nil|done].
  - rewrite fmap_cons, not_elem_of_cons. cbn [map_get fst].
    destruct (String.eqb_spec k key) as [->|Hne].
    + split; [done|]. intros [? _]. done.
    + rewrite IH. split; [intros ?; split; [congruence|done]|intros [_ ?]; done].
Qed.

Lemma map_set_fst key e (m : jsmap) :
  (map_set key e m).*1
  = match map_get key m with Some _ => m.*1 | None => m.*1 ++ [key] end.
Proof.
  induction m as [|[k e'] r IH]; [done|]. cbn [map_set map_get].
  destruct (String.eqb_spec k key) as [->|Hne]; [done|].
  rewrite !fmap_cons, IH. cbn [fst]. by destruct (map_get key r).
Qed.

Lemma map_set_NoDup key e (m : jsmap) : NoDup m.*1 → NoDup (map_set key e m).*1.
Proof.
  intros H. rewrite map_set_fst. destruct (map_get key m) eqn:E; [done|].
  apply NoDup_app. split; [done|]. split; [|apply NoDup_singleton].
  intros x Hx Hx'. apply list_elem_of_singleton in Hx'. subst x.
  by apply map_get_None in E.
Qed.

Lemma elem_fst (m : jsmap) k e : (k, e) ∈ m → k ∈ m.*1.
Proof. intros H. apply list_elem_of_fmap. exists (k, e). done. Qed.

Lemma map_set_elem k' e' key e (m : jsmap) :
  NoDup m.*1 → (k', e') ∈ map_set key e m →
  (k' = key ∧ e' = e) ∨ (k' ≠ key ∧ (k', e') ∈ m).
Proof.
  induction m as [|[k e0] r IH]; simpl; intros Hnd.
  - intros H. apply list_elem_of_singleton in H. injection H as -> ->. by left.
  - apply NoDup_cons in Hnd as [Hk Hnd].
    destruct (String.eqb_spec k key) as [->|Hne].
    + intros H. apply elem_of_cons in H as [H|H].
      * injection H as -> ->. by left.
      * right. split; [|apply elem_of_cons; by right].
        intros ->. apply Hk. by eapply elem_fst.
    + intros H. apply elem_of_cons in H as [H|H].
      * injection H as -> ->. right. split; [done|]. apply elem_of_cons. by left.
      * destruct (IH Hnd H) as [?|[? ?]]; [by left|]. right. split; [done|].
        apply elem_of_cons. by right.
Qed.

Lemma map_set_keeps k' e' key e (m : jsmap) :
  k' ≠ key → (k', e') ∈ m → (k', e') ∈ map_set key e m.
Proof.
  intros Hne. induction m as [|[k e0] r IH]; simpl; intros H.
  - by apply elem_of_nil in H.
  - apply elem_of_cons in H as [H|H].
    + injection H as <- <-. destruct (String.eqb_spec k' key); [done|].
      apply elem_of_cons. by left.
    + destruct (String.eqb_spec k key); apply elem_of_cons; right; [done|by apply IH].
Qed.

Lemma map_set_has key e (m : jsmap) : (key, e) ∈ map_set key e m.
Proof.
  induction m as [|[k e0] r IH]; simpl.
  - apply elem_of_cons. by left.
  - destruct (String.eqb_spec k key) as [->|]; apply elem_of_cons; [by left|by right].
Qed.

Lemma group_under_keeps k' e' key e (m : jsmap) :
  k' ≠ key → (k', e') ∈ m → (k', e') ∈ group_under key e m.
Proof.
  intros Hne H. unfold group_under. destruct (map_get key m).
  - destruct (earlier_known _ _); [by apply map_set_keeps|done].
  - by apply map_set_keeps.
Qed.

Lemma group_under_elem k' e' key e (m : jsmap) :
  NoDup m.*1 → (k', e') ∈ group_under key e m →
  (k' = key ∧ e' = e) ∨ (k', e') ∈ m.
Proof.
  intros Hnd. unfold group_under. destruct (map_get key m).
  - destruct (earlier_known _ _); [|by right].
    intros H. apply map_set_elem in H as [?|[_ ?]]; [by left|by right|done].
  - intros H. apply map_set_elem in H as [?|[_ ?]]; [by left|by right|done].
Qed.

Lemma group_under_NoDup key e (m : jsmap) : NoDup m.*1 → NoDup (group_under key e m).*1.
Proof.
  intros H. unfold group_under. destruct (map_get key m).
  - destruct (earlier_known _ _); [by apply map_set_NoDup|done].
  - by apply map_set_NoDup.
Qed.

(** A write puts at most the written item into the values and removes at
    most one. *)
Lemma map_set_values key e (m : jsmap) :
  map_values (map_set key e m) ⊆+ item e :: map_values m.
Proof.
  induction m as [|[k e0] r IH]; simpl.
  - done.
  - destruct (String.eqb_spec k key) as [->|]; simpl.
    + apply submseteq_skip. apply submseteq_cons. done.
    + etrans; [apply submseteq_skip, IH|]. apply Permutation_submseteq, Permutation_swap.
Qed.

Lemma group_under_values key e (m : jsmap) :
  map_values (group_under key e m) ⊆+ item e :: map_values m.
Proof.
  unfold group_under. destruct (map_get key m).
  - destruct (earlier_known _ _); [apply map_set_values|by apply submseteq_cons].
  - apply map_set_values.
Qed.

Section structure.
Variable rt : Runtime.
Variable prefix : string.
Variable signal : value → result string.

Lemma group_step_keyed it m tick m' tick' :
  keyed prefix signal m → group_step rt prefix signal it (m, tick) = Ok (m', tick') →
  keyed prefix signal m'.
Proof.
  intros [Hnd Hk] H. unfold group_step in H.
  apply bind_Ok in H as (s & Hs & H). apply bind_Ok in H as (ts & Hts & H).
  destruct (String.eqb_spec s "") as [->|Hne]; simpl in H.
  - apply bind_Ok in H as ([key t'] & Hkey & H). injection H as <- <-.
    split; [by apply map_set_NoDup|].
    intros k e s He Hsig. apply map_set_elem in He as [[-> ->]|[_ He]]; [|by eapply Hk|done].
    simpl in Hsig. unfold nonempty_signal in Hsig. rewrite Hs in Hsig. done.
  - injection H as <- <-. split; [by apply group_under_NoDup|].
    intros k e s' He Hsig. apply group_under_elem in He as [[-> ->]|He]; [|by eapply Hk|done].
    simpl in Hsig. unfold nonempty_signal in Hsig. rewrite Hs in Hsig.
    destruct (String.eqb_spec s ""); [done|]. by injection Hsig as <-.
Qed.

Lemma group_step_values it m tick m' tick' :
  group_step rt prefix signal it (m, tick) = Ok (m', tick') →
  map_values m' ⊆+ it :: map_values m.
Proof.
  intros H. unfold group_step in H.
  apply bind_Ok in H as (s & Hs & H). apply bind_Ok in H as (ts & Hts & H).
  destruct (negb (String.eqb s "")).
  - injection H as <- <-. apply (group_under_values _ {| item := it; startTimestamp := ts |}).
  - apply bind_Ok in H as ([key t'] & Hkey & H). injection H as <- <-.
    apply (map_set_values _ {| item := it; startTimestamp := ts |}).
Qed.

(** A pass keeps the map keyed, and its values are items of the list, each
    taken at most once. *)
Lemma group_loop_keyed items : ∀ m tick m' tick',
  keyed prefix signal m →
  group_loop rt prefix signal items (m, tick) = Ok (m', tick') →
  keyed prefix signal m' ∧ map_values m' ⊆+ items ++ map_values m.
Proof.
  induction items as [|it rest IH]; intros m tick m' tick' Hk H; simpl in H.
  - injection H as <- <-. done.
  - apply bind_Ok in H as ([m1 t1] & H1 & H).
    destruct (IH _ _ _ _ (group_step_keyed _ _ _ _ _ Hk H1) H) as [Hk' Hsub].
    split; [done|]. etrans; [exact Hsub|].
    etrans; [apply submseteq_skips_l, (group_step_values _ _ _ _ _ H1)|].
    apply Permutation_submseteq. simpl. by rewrite Permutation_middle.
Qed.

(** In a keyed map no two values share a non-empty signal. *)
Lemma keyed_NoDup (m : jsmap) :
  keyed prefix signal m → NoDup (omap (nonempty_signal signal) (map_values m)).
Proof.
  intros [Hnd Hk]. induction m as [|[k e] r IH]; simpl; [constructor|].
  apply NoDup_cons in Hnd as [Hkr Hnd].
  assert (IH' : NoDup (omap (nonempty_signal signal) (map_values r))).
  { apply IH; [done|]. intros k' e' s He. apply Hk. apply elem_of_cons. by right. }
  destruct (nonempty_signal signal (item e)) as [s|] eqn:E; [|done].
  apply NoDup_cons. split; [|done].
  intros Hin. apply list_elem_of_omap in Hin as (x & Hx & Hsx).
  apply list_elem_of_fmap in Hx as ([k' e'] & -> & He'). simpl in Hsx.
  assert (k = prefix +:+ s) by (apply (Hk k e s); [apply elem_of_cons; by left|done]).
  assert (k' = prefix +:+ s) by (apply (Hk k' e' s); [apply elem_of_cons; by right|done]).
  apply Hkr. subst. by eapply elem_fst.
Qed.

End structure.

Lemma NoDup_omap_submseteq {A B} (f : A → option B) (l k : list A) :
  l ⊆+ k → NoDup (omap f k) → NoDup (omap f l).
Proof.
  intros Hs Hnd. apply submseteq_Permutation in Hs as [k' Hp].
  rewrite Hp, omap_app in Hnd. by apply NoDup_app in Hnd as [? _].
Qed.

(** *** Items without signal *)

Lemma own_key_cases rt it t k t' :
  own_key rt it t = Ok (k, t') →
  (∃ r, rendered_id it = Some r ∧ k = "id:" +:+ r ∧ t' = t)
  ∨ (rendered_id it = None ∧ k = "id:" +:+ generated rt t ∧ t' = S t).
Proof.
  unfold own_key, rendered_id. intros H. apply bind_Ok in H as (v & -> & H).
  destruct (truthy v); injection H as <- <-; [left; eauto|right; done].
Qed.

Lemma NoDup_omap_later {A B} (f : A → option B) l1 x l2 b w b' :
  NoDup (omap f (l1 ++ x :: l2)) → f x = Some b → w ∈ l2 → f w = Some b' → b ≠ b'.
Proof.
  rewrite omap_app. intros H Hx Hw Hfw. apply NoDup_app in H as (_ & _ & H).
  simpl in H. rewrite Hx in H. apply NoDup_cons in H as [Hn _].
  intros ->. apply Hn. apply list_elem_of_omap. eauto.
Qed.

Section survival.
Variable rt : Runtime.
Variable prefix : string.
Variable signal : value → result string.
Hypothesis prefix_not_id : ∀ s x, prefix +:+ s ≠ "id:" +:+ x.

Lemma group_loop_app l1 : ∀ l2 st,
  group_loop rt prefix signal (l1 ++ l2) st
  = bind (group_loop rt prefix signal l1 st) (group_loop rt prefix signal l2).
Proof.
  induction l1 as [|a l1 IH]; intros l2 st; simpl; [done|].
  destruct (group_step rt prefix signal a st); simpl; [apply IH|done].
Qed.

Lemma group_step_tick it m t m' t' :
  group_step rt prefix signal it (m, t) = Ok (m', t') → (t ≤ t')%nat.
Proof.
  unfold group_step. intros H.
  apply bind_Ok in H as (s & Hs & H). apply bind_Ok in H as (ts & Hts & H).
  destruct (negb (String.eqb s "")).
  - injection H as <- <-. done.
  - apply bind_Ok in H as ([key t1] & Hkey & H). injection H as <- <-.
    apply own_key_cases in Hkey as [(r & _ & _ & ->)|(_ & _ & ->)]; lia.
Qed.

(** An entry under an [id:] key stays where it is as long as no later item
    without signal gets the same key. *)
Lemma persist L : ∀ m t m' t' k e,
  group_loop rt prefix signal L (m, t) = Ok (m', t') →
  (k, e) ∈ m → (∃ z, k = "id:" +:+ z) →
  (∀ w r, w ∈ L → rendered_id w = Some r → k ≠ "id:" +:+ r) →
  (∀ n, (t ≤ n)%nat → k ≠ "id:" +:+ generated rt n) →
  (k, e) ∈ m'.
Proof.
  induction L as [|it rest IH]; intros m t m' t' k e H Hin Hid Hr Hg; simpl in H.
  - by injection H as <- <-.
  - apply bind_Ok in H as ([m1 t1] & H1 & H).
    pose proof (group_step_tick _ _ _ _ _ H1) as Htick.
    apply (IH m1 t1 m' t' k e H); try done.
    + unfold group_step in H1.
      apply bind_Ok in H1 as (s & Hs & H1). apply bind_Ok in H1 as (ts & Hts & H1).
      destruct (negb (String.eqb s "")).
      * injection H1 as <- <-. apply group_under_keeps; [|done].
        destruct Hid as [z ->]. intros E. by apply (prefix_not_id s z).
      * apply bind_Ok in H1 as ([key t2] & Hkey & H1). injection H1 as <- <-.
        apply map_set_keeps; [|done].
        apply own_key_cases in Hkey as [(r & Hrd & -> & _)|(_ & -> & _)].
        -- apply (Hr it r); [apply elem_of_cons; by left|done].
        -- by apply Hg.
    + intros w r Hw. apply Hr. apply elem_of_cons. by right.
    + intros n Hn. apply Hg. lia.
Qed.

(** An item without signal is written under its own key. *)
Lemma arrive x m t m' t' :
  group_step rt prefix signal x (m, t) = Ok (m', t') → signal x = Ok "" →
  ∃ k e, (k, e) ∈ m' ∧ item e = x
    ∧ ((∃ r, rendered_id x = Some r ∧ k = "id:" +:+ r ∧ t' = t)
       ∨ (rendered_id x = None ∧ k = "id:" +:+ generated rt t ∧ t' = S t)).
Proof.
  unfold group_step. intros H Hs. rewrite Hs in H; simpl in H.
  apply bind_Ok in H as (ts & Hts & H).
  apply bind_Ok in H as ([key t1] & Hkey & H). injection H as <- <-.
  exists key, {| item := x; startTimestamp := ts |}.
  split; [apply map_set_has|]. split; [done|]. by apply own_key_cases.
Qed.

(** With fresh keys and identifiers that print differently, an item
    without signal is still in the map at the end of the pass. *)
Lemma survivor x post m t m' t' :
  group_loop rt prefix signal (x :: post) (m, t) = Ok (m', t') →
  signal x = Ok "" → fresh_keys rt (x :: post) →
  NoDup (omap rendered_id (x :: post)) →
  ∃ k e t1, (k, e) ∈ m' ∧ item e = x
    ∧ group_loop rt prefix signal post
        (map_set k e m, t1) = Ok (m', t')
    ∧ ((∃ r, rendered_id x = Some r ∧ k = "id:" +:+ r ∧ t1 = t)
       ∨ (rendered_id x = None ∧ k = "id:" +:+ generated rt t ∧ t1 = S t)).
Proof.
  intros H Hs [Hf1 Hf2] Hnd. simpl in H.
  apply bind_Ok in H as ([m1 t1] & H1 & H).
  assert (∃ k e, m1 = map_set k e m ∧ item e = x
    ∧ ((∃ r, rendered_id x = Some r ∧ k = "id:" +:+ r ∧ t1 = t)
       ∨ (rendered_id x = None ∧ k = "id:" +:+ generated rt t ∧ t1 = S t)))
    as (k & e & -> & He & Hk).
  { unfold group_step in H1. rewrite Hs in H1; simpl in H1.
    apply bind_Ok in H1 as (ts & Hts & H1).
    apply bind_Ok in H1 as ([key t2] & Hkey & H1). injection H1 as <- <-.
    exists key, {| item := x; startTimestamp := ts |}.
    split; [done|]. split; [done|]. by apply own_key_cases. }
  exists k, e, t1. split; [|done].
  apply (persist post _ _ _ _ k e H); [apply map_set_has| | |].
  - destruct Hk as [(r & _ & -> & _)|(_ & -> & _)]; eauto.
  - intros w r Hw Hrw. destruct Hk as [(rx & Hrx & -> & _)|(_ & -> & _)].
    + intros E. apply append_inj_r in E.
      by apply (NoDup_omap_later rendered_id [] x post rx w r Hnd Hrx Hw Hrw).
    + intros E. apply append_inj_r in E.
      apply (Hf2 w r t); [apply elem_of_cons; by right|done|done].
  - intros n Hn. destruct Hk as [(rx & Hrx & -> & ->)|(_ & -> & ->)].
    + intros E. apply append_inj_r in E.
      apply (Hf2 x rx n); [apply elem_of_cons; by left|done|done].
    + intros E. apply append_inj_r in E. apply Hf1 in E. lia.
Qed.

End survival.

Lemma pair_split {A} (x y : A) (L : list A) :
  [x; y] ⊆+ L →
  (∃ l1 l2 l3, L = l1 ++ x :: l2 ++ y :: l3)
  ∨ (∃ l1 l2 l3, L = l1 ++ y :: l2 ++ x :: l3).
Proof.
  intros H.
  assert (Hx : x ∈ L) by (eapply elem_of_submseteq; [|exact H]; apply elem_of_cons; by left).
  apply list_elem_of_split in Hx as (a & c & ->).
  assert (Hy : [y] ⊆+ a ++ c).
  { apply submseteq_cons_l in H as (k' & Hp & Hy).
    rewrite <- Permutation_middle in Hp. apply Permutation_cons_inv in Hp.
    by rewrite Hp. }
  assert (Hin : y ∈ a ++ c) by (eapply elem_of_submseteq; [|exact Hy]; apply elem_of_cons; by left).
  apply elem_of_app in Hin as [Hin|Hin]; apply list_elem_of_split in Hin as (p & q & ->).
  - right. exists p, q, c. by rewrite <- app_assoc.
  - left. exists a, p, q. done.
Qed.

Lemma fresh_keys_sub rt (l k : list value) :
  (∀ w, w ∈ l → w ∈ k) → fresh_keys rt k → fresh_keys rt l.
Proof. intros Hs [H1 H2]. split; [done|]. intros w r n Hw. apply H2. by apply Hs. Qed.

Section two.
Variable rt : Runtime.
Variable prefix : string.
Variable signal : value → result string.
Hypothesis prefix_not_id : ∀ s x, prefix +:+ s ≠ "id:" +:+ x.

Lemma group_loop_tick L : ∀ m t m' t',
  group_loop rt prefix signal L (m, t) = Ok (m', t') → (t ≤ t')%nat.
Proof.
  induction L as [|it rest IH]; intros m t m' t' H; simpl in H.
  - injection H as <- <-. done.
  - apply bind_Ok in H as ([m1 t1] & H1 & H).
    apply group_step_tick in H1. apply IH in H. lia.
Qed.

(** Two items without signal end under two different keys. *)
Lemma two_survive l1 x l2 y l3 m0 t0 m t :
  group_loop rt prefix signal (l1 ++ x :: l2 ++ y :: l3) (m0, t0) = Ok (m, t) →
  signal x = Ok "" → signal y = Ok "" →
  fresh_keys rt (l1 ++ x :: l2 ++ y :: l3) →
  NoDup (omap rendered_id (l1 ++ x :: l2 ++ y :: l3)) →
  [x; y] ⊆+ map_values m.
Proof.
  intros H Hx Hy Hf Hnd.
  rewrite group_loop_app in H. apply bind_Ok in H as ([m1 t1] & H1 & H).
  assert (Hnd' : NoDup (omap rendered_id (x :: l2 ++ y :: l3))).
  { rewrite omap_app in Hnd. by apply NoDup_app in Hnd as (_ & _ & ?). }
  destruct (survivor rt prefix signal prefix_not_id x _ _ _ _ _ H Hx)
    as (kx & ex & t2 & Hinx & Hex & HR & Hkx); [|done|].
  { eapply fresh_keys_sub; [|exact Hf]. intros w Hw. apply elem_of_app. by right. }
  rewrite group_loop_app in HR. apply bind_Ok in HR as ([m3 t3] & H3 & HR).
  apply group_loop_tick in H3.
  assert (Hnd'' : NoDup (omap rendered_id (y :: l3))).
  { assert (E : l1 ++ x :: l2 ++ y :: l3 = (l1 ++ x :: l2) ++ y :: l3)
      by (by rewrite <- app_assoc).
    rewrite E, omap_app in Hnd. by apply NoDup_app in Hnd as (_ & _ & ?). }
  destruct (survivor rt prefix signal prefix_not_id y _ _ _ _ _ HR Hy)
    as (ky & ey & t4 & Hiny & Hey & _ & Hky); [|done|].
  { eapply fresh_keys_sub; [|exact Hf]. intros w Hw.
    apply elem_of_app. right. apply elem_of_cons. right. apply elem_of_app. by right. }
  assert (Hne : kx ≠ ky).
  { destruct Hf as [Hf1 Hf2].
    destruct Hkx as [(rx & Hrx & -> & ->)|(Hrx & -> & ->)],
             Hky as [(ry & Hry & -> & _)|(Hry & -> & _)];
      intros E; apply append_inj_r in E.
    - subst ry.
      eapply (NoDup_omap_later rendered_id [] x (l2 ++ y :: l3) rx y rx); try done.
      apply elem_of_app. right. apply elem_of_cons. by left.
    - apply (Hf2 x rx t3); [|done|done]. apply elem_of_app. right. apply elem_of_cons. by left.
    - apply (Hf2 y ry t1); [|done|done]. apply elem_of_app. right. apply elem_of_cons. right.
      apply elem_of_app. right. apply elem_of_cons. by left.
    - apply Hf1 in E. lia. }
  assert (Hsub : [(kx, ex); (ky, ey)] ⊆+ m).
  { apply NoDup_submseteq.
    - apply NoDup_cons. split; [|apply NoDup_singleton].
      intros Hin. apply list_elem_of_singleton in Hin. congruence.
    - intros p Hp. apply elem_of_cons in Hp as [->|Hp]; [done|].
      apply list_elem_of_singleton in Hp as ->. done. }
  apply (fmap_submseteq (λ kv, item (snd kv))) in Hsub.
  simpl in Hsub. by rewrite Hex, Hey in Hsub.
Qed.

Lemma pair_survives L m0 t0 m t x y :
  group_loop rt prefix signal L (m0, t0) = Ok (m, t) →
  [x; y] ⊆+ L → signal x = Ok "" → signal y = Ok "" →
  fresh_keys rt L → NoDup (omap rendered_id L) →
  [x; y] ⊆+ map_values m.
Proof.
  intros H Hxy Hx Hy Hf Hnd.
  apply pair_split in Hxy as [(l1 & l2 & l3 & ->)|(l1 & l2 & l3 & ->)].
  - by eapply two_survive.
  - etrans; [apply Permutation_submseteq, Permutation_swap|]. by eapply two_survive.
Qed.

End two.

(** *** Identifiers as printed into keys *)

Lemma uniqueById_sublist items : ∀ seen kept,
  uniqueById seen items = Ok kept → kept `sublist_of` items.
Proof.
  induction items as [|it rest IH]; intros seen kept H; simpl in H.
  - injection H as <-. constructor.
  - apply bind_Ok in H as (v & Hv & H).
    destruct (negb (truthy v)).
    + apply bind_Ok in H as (k' & Hk' & H). injection H as <-.
      apply sublist_skip. by eapply IH.
    + destruct (existsb _ _).
      * apply sublist_cons. by eapply IH.
      * apply bind_Ok in H as (k' & Hk' & H). injection H as <-.
        apply sublist_skip. by eapply IH.
Qed.

(** After the identifier pass the identifiers of the kept items print
    differently, provided that identifiers which print alike are the same. *)
Lemma uniqueById_rendered items : ∀ seen kept,
  uniqueById seen items = Ok kept →
  (∀ a b,
     (a ∈ seen ∨ ∃ u, u ∈ items ∧ external_id u = Ok a ∧ truthy a = true) →
     (b ∈ seen ∨ ∃ u, u ∈ items ∧ external_id u = Ok b ∧ truthy b = true) →
     to_string a = to_string b → same_value_zero a b = true) →
  NoDup (omap rendered_id kept)
  ∧ ∀ y r w, y ∈ kept → rendered_id y = Some r → w ∈ seen → to_string w ≠ r.
Proof.
  induction items as [|it rest IH]; intros seen kept H Hp; simpl in H.
  - injection H as <-. split; [constructor|]. intros y r w Hy. by apply elem_of_nil in Hy.
  - apply bind_Ok in H as (v & Hv & H).
    assert (Hp' : ∀ seen' : list value,
      (∀ a, a ∈ seen' → a ∈ seen ∨ (a = v ∧ truthy v = true)) →
      ∀ a b,
        (a ∈ seen' ∨ ∃ u, u ∈ rest ∧ external_id u = Ok a ∧ truthy a = true) →
        (b ∈ seen' ∨ ∃ u, u ∈ rest ∧ external_id u = Ok b ∧ truthy b = true) →
        to_string a = to_string b → same_value_zero a b = true).
    { intros seen' Hs a b Ha Hb. apply Hp.
      - destruct Ha as [Ha|(u & Hu & Hua & Hta)].
        + destruct (Hs a Ha) as [?|[-> ?]]; [by left|]. right. exists it.
          split; [apply elem_of_cons; by left|done].
        + right. exists u. split; [apply elem_of_cons; by right|done].
      - destruct Hb as [Hb|(u & Hu & Hub & Htb)].
        + destruct (Hs b Hb) as [?|[-> ?]]; [by left|]. right. exists it.
          split; [apply elem_of_cons; by left|done].
        + right. exists u. split; [apply elem_of_cons; by right|done]. }
    destruct (truthy v) eqn:Ht; simpl in H.
    + destruct (existsb (same_value_zero v) seen) eqn:Hs.
      * apply (IH seen kept H). apply Hp'. intros a Ha. by left.
      * apply bind_Ok in H as (k' & Hk' & H). injection H as <-.
        destruct (IH (v :: seen) k' Hk') as [Hnd Hw].
        { apply Hp'. intros a Ha. apply elem_of_cons in Ha as [-> |Ha]; [by right|by left]. }
        assert (Hr : rendered_id it = Some (to_string v)).
        { unfold rendered_id. by rewrite Hv, Ht. }
        split.
        -- simpl. rewrite Hr. apply NoDup_cons. split; [|done].
           intros Hin. apply list_elem_of_omap in Hin as (y & Hy & Hry).
           apply (Hw y (to_string v) v Hy Hry); [apply elem_of_cons; by left|done].
        -- intros y r w Hy Hry Hws. apply elem_of_cons in Hy as [-> |Hy].
           ++ rewrite Hr in Hry. injection Hry as <-. intros E.
              assert (same_value_zero w v = true).
              { apply Hp; [by left| |done]. right. exists it.
                split; [apply elem_of_cons; by left|done]. }
              rewrite svz_sym in H.
              by rewrite (existsb_false_elem _ _ w Hs Hws) in H.
           ++ apply (Hw y r w Hy Hry). apply elem_of_cons. by right.
    + apply bind_Ok in H as (k' & Hk' & H). injection H as <-.
      destruct (IH seen k' Hk') as [Hnd Hw].
      { apply Hp'. intros a Ha. by left. }
      assert (Hr : rendered_id it = None).
      { unfold rendered_id. by rewrite Hv, Ht. }
      split.
      * simpl. by rewrite Hr.
      * intros y r w Hy Hry Hws. apply elem_of_cons in Hy as [-> |Hy]; [congruence|].
        by apply (Hw y r w).
Qed.

(** Two items that are each the first of their identifier are both kept. *)
Lemma uniqueById_pair l1 x l2 y l3 byId :
  uniqueById [] (l1 ++ x :: l2 ++ y :: l3) = Ok byId →
  first_of_its_id l1 x → first_of_its_id (l1 ++ x :: l2) y →
  [x; y] ⊆+ byId.
Proof.
  intros H (vx & Hvx & Hx) (vy & Hvy & Hy).
  destruct (uniqueById_split l1 [] x (l2 ++ y :: l3) byId vx H Hvx)
    as (k1 & k2 & seen' & -> & _ & H2 & _ & Hseen).
  { destruct Hx as [?|Hx]; [by left|right]. split; [done|exact Hx]. }
  destruct (uniqueById_split l2 seen' y l3 k2 vy H2 Hvy)
    as (k3 & k4 & seen'' & -> & _ & _ & _ & _).
  { destruct Hy as [?|Hy]; [by left|right]. split.
    - apply existsb_false_intro. intros w Hw.
      destruct (Hseen w Hw) as [Hw'|(u & Hu & Hid)]; [by apply elem_of_nil in Hw'|].
      apply (Hy u w); [|done]. apply elem_of_app in Hu as [Hu|Hu].
      + apply elem_of_app. by left.
      + apply list_elem_of_singleton in Hu as ->. apply elem_of_app. right.
        apply elem_of_cons. by left.
    - intros u vu Hu. apply Hy. apply elem_of_app. right. apply elem_of_cons. by right. }
  apply sublist_submseteq.
  apply sublist_inserts_l. apply sublist_skip.
  apply sublist_inserts_l. apply sublist_skip. apply sublist_nil_l.
Qed.

(** *** The three passes together *)

Lemma media_not_id s x : "media:" +:+ s ≠ "id:" +:+ x.
Proof. intros H. simpl in H. discriminate H. Qed.

Lemma headline_not_id s x : "headline:" +:+ s ≠ "id:" +:+ x.
Proof. intros H. simpl in H. discriminate H. Qed.

Lemma uniqueResults_Ok rt items survivors tick :
  uniqueResults rt items = Ok (survivors, tick) →
  ∃ byId mediaGrouped t1 headlineGrouped,
    uniqueById [] items = Ok byId
    ∧ group_loop rt "media:" media_fingerprint byId ([], 0%nat) = Ok (mediaGrouped, t1)
    ∧ group_loop rt "headline:" normalized_headline (map_values mediaGrouped) ([], t1)
      = Ok (headlineGrouped, tick)
    ∧ survivors = map_values headlineGrouped.
Proof.
  unfold uniqueResults. intros H.
  apply bind_Ok in H as (byId & H1 & H).
  apply bind_Ok in H as ([mg t1] & H2 & H).
  apply bind_Ok in H as ([hg t2] & H3 & H). injection H as <- <-.
  exists byId, mg, t1, hg. done.
Qed.

Lemma keyed_nil prefix signal : keyed prefix signal [].
Proof. split; [constructor|]. intros k e s H. by apply elem_of_nil in H. Qed.

Lemma map_indexed_lookup {A B} (f : nat → A → result B) xs : ∀ i ys,
  map_indexed f i xs = Ok ys →
  length ys = length xs
  ∧ ∀ k y, ys !! k = Some y → ∃ x, xs !! k = Some x ∧ f (i + k)%nat x = Ok y.
Proof.
  induction xs as [|x r IH]; intros i ys H; simpl in H.
  - injection H as <-. split; [done|]. intros k y Hk. by rewrite lookup_nil in Hk.
  - apply bind_Ok in H as (y0 & Hy0 & H). apply bind_Ok in H as (ys0 & Hys0 & H).
    injection H as <-. destruct (IH _ _ Hys0) as [Hlen Hk]. split; [simpl; lia|].
    intros [|k] y Hy; simpl in Hy.
    + injection Hy as <-. exists x. rewrite Nat.add_0_r. done.
    + destruct (Hk k y Hy) as (x' & Hx' & Hf). exists x'. split; [done|].
      by replace (i + S k)%nat with (S i + k)%nat by lia.
Qed.

Lemma map_indexed_source {A B} (f : nat → A → result B) xs ys k x :
  map_indexed f 0 xs = Ok ys → xs !! k = Some x →
  ∃ y, ys !! k = Some y ∧ f k x = Ok y.
Proof.
  intros H Hx. destruct (map_indexed_lookup f xs 0 ys H) as [Hlen Hk].
  destruct (lookup_lt_is_Some_2 ys k) as [y Hy].
  { rewrite Hlen. by eapply lookup_lt_Some. }
  exists y. split; [done|]. destruct (Hk k y Hy) as (x' & Hx' & Hf).
  rewrite Hx in Hx'. by injection Hx' as <-.
Qed.

Lemma sub_elem (l k : list value) : l ⊆+ k → ∀ w, w ∈ l → w ∈ k.
Proof. intros H w Hw. by eapply elem_of_submseteq. Qed.


Lemma map_get_elem key (m : jsmap) e : map_get key m = Some e → (key, e) ∈ m.
Proof.
  induction m as [|[k e0] r IH]; simpl; [done|].
  destruct (String.eqb_spec k key) as [->|].
  - intros [= ->]. apply elem_of_cons. by left.
  - intros H. apply elem_of_cons. right. by apply IH.
Qed.

(** The rule of the representatives, for a pass that starts on the empty
    map. *)
Lemma representative_rule_holds rt prefix signal items t0 m t :
  (∀ s x, prefix +:+ s ≠ "id:" +:+ x) →
  group_loop rt prefix signal items ([], t0) = Ok (m, t) →
  representative_rule rt prefix signal items m.
Proof.
  intros Hp H sig Hsig.
  pose proof (group_loop_get rt prefix signal Hp items [] t0 m t sig H Hsig) as Hg.
  simpl in Hg. destruct (members rt signal sig items) as [|first rest].
  - done.
  - simpl in Hg. exists (fold_left keep rest first).
    assert (fold_left absorb rest (Some first) = Some (fold_left keep rest first)) as E.
    { clear. revert first. induction rest as [|c r IH]; intros first; simpl; [done|].
      apply IH. }
    rewrite E in Hg. split; [done|]. split; [apply fold_keep_in|]. split.
    { apply map_get_elem in Hg. apply list_elem_of_fmap.
      exists (prefix +:+ sig, fold_left keep rest first). done. }
    split.
    + intros t1 Hk. by eapply fold_keep_min.
    + intros Hall. apply fold_keep_unknown. apply Hall. apply elem_of_cons. by left.
Qed.

(** C3 (amended). Whenever the three passes run through: the identifier
    pass keeps the first-encountered item of every identifier and drops the
    later ones, whatever their start timestamps; in the media pass and in
    the headline pass the entry kept for a group is a member of the group
    whose item is in the output of the pass; when the first-encountered
    member has a known (positive) start timestamp, the kept member has the
    smallest known start timestamp of the group; when every member has the
    timestamp 0, the first-encountered member is kept. *)
Theorem group_representatives rt items survivors tick :
  uniqueResults rt items = Ok (survivors, tick) →
  ∃ byId mediaGrouped t1 headlineGrouped,
    uniqueById [] items = Ok byId
    ∧ group_loop rt "media:" media_fingerprint byId ([], 0%nat) = Ok (mediaGrouped, t1)
    ∧ group_loop rt "headline:" normalized_headline (map_values mediaGrouped) ([], t1)
      = Ok (headlineGrouped, tick)
    ∧ survivors = map_values headlineGrouped
    ∧ first_kept items byId
    ∧ representative_rule rt "media:" media_fingerprint byId mediaGrouped
    ∧ representative_rule rt "headline:" normalized_headline
        (map_values mediaGrouped) headlineGrouped.
Proof.
  intros Hu.
  destruct (uniqueResults_Ok _ _ _ _ Hu) as (byId & mg & t1 & hg & H1 & H2 & H3 & ->).
  exists byId, mg, t1, hg. repeat split; try done.
  - intros pre it post v -> Hv Ht Hpre.
    destruct (uniqueById_split pre [] it post byId v H1 Hv)
      as (k1 & k2 & seen' & -> & _ & Hk2 & Hin & _).
    { right. split; [done|exact Hpre]. }
    exists k1, k2. split; [done|]. intros y vy Hy Hvy.
    destruct (truthy vy) eqn:Hty.
    + pose proof (uniqueById_fresh _ _ _ Hk2 y vy Hy Hvy Hty) as Hf.
      rewrite svz_sym. apply (existsb_false_elem _ _ v Hf). by apply Hin.
    + destruct (same_value_zero v vy) eqn:E; [|done].
      apply svz_eq in E. subst. congruence.
  - by eapply representative_rule_holds; [apply media_not_id|].
  - by eapply representative_rule_holds; [apply headline_not_id|].
Qed.

Lemma to_canonical_rank rt b tick i it ad :
  to_canonical rt b tick i it = Ok ad → rank ad = Z.of_nat i + 1.
Proof.
  unfold to_canonical. intros H. apply bind_Ok in H as (ext & _ & H).
  destruct (resolve_media rt _ _) as [[cu vu] ct].
  apply bind_Ok in H as (sd & _ & H). injection H as <-. reflexivity.
Qed.

Lemma transform_without_analysis rt items b out :
  transformApifyResults rt items b = Ok out → Forall without_analysis out.
Proof.
  unfold transformApifyResults. intros H.
  apply bind_Ok in H as ([survivors tick] & _ & H).
  destruct (map_indexed_lookup _ _ _ _ H) as [_ Hk].
  apply Forall_lookup. intros i ad Hi. destruct (Hk i ad Hi) as (it & _ & Hf).
  unfold to_canonical in Hf. apply bind_Ok in Hf as (ext & _ & Hf).
  destruct (resolve_media rt _ _) as [[cu vu] ct].
  apply bind_Ok in Hf as (sd & _ & Hf). injection Hf as <-. by repeat split.
Qed.

(** C6. Whenever the Deduplicator returns, its output has at most twenty
    items, the item at position [i] has rank [i + 1], and the output is the
    image, position by position, of the first twenty survivors of the three
    passes: the rank is the position after deduplication and reads nothing
    of the item. *)
Theorem rank_reassignment rt items b out :
  transformApifyResults rt items b = Ok out →
  (length out ≤ 20)%nat
  ∧ (∀ i ad, out !! i = Some ad → rank ad = Z.of_nat i + 1)
  ∧ ∃ survivors tick,
      uniqueResults rt items = Ok (survivors, tick)
      ∧ length out = length (take 20 survivors)
      ∧ ∀ i ad, out !! i = Some ad →
          ∃ it, survivors !! i = Some it ∧ to_canonical rt b tick i it = Ok ad.
Proof.
  unfold transformApifyResults. intros H.
  apply bind_Ok in H as ([survivors tick] & Hu & H).
  destruct (map_indexed_lookup _ _ _ _ H) as [Hlen Hk].
  split; [rewrite Hlen, length_take; lia|]. split.
  - intros i ad Hi. destruct (Hk i ad Hi) as (it & _ & Hf).
    by apply to_canonical_rank in Hf.
  - exists survivors, tick. split; [done|]. split; [done|].
    intros i ad Hi. destruct (Hk i ad Hi) as (it & Hit & Hf).
    exists it. split; [|done]. apply lookup_take_Some in Hit. tauto.
Qed.

Lemma rank_reassignment_witness :
  transformApifyResults Sample.rt Sample.batch 7 = Ok Sample.batch_out
  ∧ (length Sample.batch_out ≤ 20)%nat
  ∧ ∀ i ad, Sample.batch_out !! i = Some ad → rank ad = Z.of_nat i + 1.
Proof.
  assert (E : transformApifyResults Sample.rt Sample.batch 7 = Ok Sample.batch_out)
    by (vm_compute; reflexivity).
  split; [exact E|].
  destruct (rank_reassignment Sample.rt Sample.batch 7 Sample.batch_out E) as (H1 & H2 & _).
  split; [exact H1|exact H2].
Defined.

(** The scenario of three items: the headline-only item and the earlier
    of the two items with the same media survive, with the ranks 1 and 2. *)
Example scenario_three_items :
  map ad_id Sample.batch_out = ["x1"; "x3"]
  ∧ map rank Sample.batch_out = [1; 2].
Proof. split; reflexivity. Qed.

(** C9 (evaluation at the failing inputs). The Deduplicator raises a
    [TypeError] on an item whose image URL is an object (a shape that the
    final map of the same function expects and turns into [null]), on an
    item whose title is a number, and on a batch that holds a [null]
    entry. *)
Theorem transform_throws_on_malformed_items rt b :
  transformApifyResults rt
    [VObj [("adArchiveID", VStr "1");
           ("snapshot",
            VObj [("images",
                   VArr [VObj [("resizedImageUrl",
                                VObj [("url", VStr "https://cdn.example/a.jpg")])]])])]] b
    = Throw (TypeError "url.match is not a function")
  ∧ transformApifyResults rt
      [VObj [("adArchiveID", VStr "1"); ("snapshot", VObj [("title", VNum 2024)])]] b
    = Throw (TypeError "trim is not a function")
  ∧ transformApifyResults rt [VNull] b
    = Throw (TypeError "Cannot read properties of null or undefined").
Proof. repeat split; reflexivity. Qed.

(** The final map alone takes the object-valued URL: it ends as no media. *)
Example final_map_expects_object_url rt :
  creative_url <$>
    ok (to_canonical rt 1 0 0
          (VObj [("adArchiveID", VStr "1");
                 ("snapshot",
                  VObj [("images",
                         VArr [VObj [("resizedImageUrl",
                                      VObj [("url", VStr "https://cdn.example/a.jpg")])]])])]))
  = Some None.
Proof. reflexivity. Qed.

Lemma group_representatives_witness :
  uniqueResults Sample.rt Sample.batch
    = Ok (fst Sample.batch_survivors, snd Sample.batch_survivors)
  ∧ ∃ byId mediaGrouped,
      uniqueById [] Sample.batch = Ok byId
      ∧ first_kept Sample.batch byId
      ∧ representative_rule Sample.rt "media:" media_fingerprint byId mediaGrouped.
Proof.
  assert (E : uniqueResults Sample.rt Sample.batch
              = Ok (fst Sample.batch_survivors, snd Sample.batch_survivors))
    by (vm_compute; reflexivity).
  split; [exact E|].
  destruct (group_representatives Sample.rt Sample.batch _ _ E)
    as (byId & mg & t1 & hg & H1 & _ & _ & _ & Hf & Hm & _).
  exists byId, mg. split; [exact H1|]. split; [exact Hf|exact Hm].
Defined.

(** C3 as stated fails twice. In the identifier pass the later item with
    the same identifier and the smaller start timestamp is dropped; in the
    media pass a kept item with the timestamp 0 is not replaced by a later
    one with a known timestamp. *)
Lemma group_representatives_counterexample :
  (external_id Sample.late = external_id Sample.early
   ∧ start_of Sample.rt Sample.late = Ok (Some 100000)
   ∧ start_of Sample.rt Sample.early = Ok (Some 50000)
   ∧ uniqueById [] [Sample.late; Sample.early] = Ok [Sample.late]
   ∧ uniqueById [] [Sample.late; Sample.early] ≠ Ok [Sample.early])
  ∧ (media_fingerprint Sample.undated = media_fingerprint Sample.dated
     ∧ start_of Sample.rt Sample.undated = Ok (Some 0)
     ∧ start_of Sample.rt Sample.dated = Ok (Some 50000)
     ∧ uniqueResults Sample.rt [Sample.undated; Sample.dated]
       = Ok ([Sample.undated], 0%nat)
     ∧ uniqueResults Sample.rt [Sample.undated; Sample.dated]
       ≠ Ok ([Sample.dated], 0%nat)).
Proof. vm_compute. repeat split; discriminate. Qed.

Lemma sample_generated_inj n m :
  generated Sample.rt n = generated Sample.rt m → n = m.
Proof.
  intros H. change (generated Sample.rt n) with ("unique_1704848400000_0." +:+ pretty n) in H.
  change (generated Sample.rt m) with ("unique_1704848400000_0." +:+ pretty m) in H.
  apply append_inj_r in H. by apply (inj pretty) in H.
Qed.



(** Why the generated keys have to be fresh: on a runtime whose clock and
    random numbers repeat, two items without anything share their key. *)
Example repeated_random_collapses :
  length <$> ok (transformApifyResults Sample.stuck
                   [Sample.anonymous; Sample.anonymous] 1) = Some 1%nat.
Proof. reflexivity. Qed.

End DedupFacts.

(** ** Properties of the Reconciler and of the tagging state *)

Module VaultFacts.

Import Vault.

Lemma day_of_midnight d : day_of (midnight d) = d.
Proof. unfold day_of, midnight, ms_per_day. apply Z.div_mul. lia. Qed.

(** The week start only depends on the day: it is the day minus the number
    of days since Monday. *)
Lemma getWeekStart_day t :
  getWeekStart t =
  day_of t + (- ((day_of t + 4) mod 7) + (if (day_of t + 4) mod 7 =? 0 then -6 else 1)).
Proof.
  unfold getWeekStart, getDay. rewrite day_of_midnight.
  unfold day_of, ms_per_day. rewrite Z.div_add by lia. reflexivity.
Qed.

Lemma getWeekStart_midnight t : getWeekStart (midnight (day_of t)) = getWeekStart t.
Proof. rewrite !getWeekStart_day, day_of_midnight. reflexivity. Qed.

(** On reliable storage the merge of an ad, the loop and the whole function
    return, and leave the database that [merged], [cleaned] and
    [touch_brand] describe. *)
Lemma merge_ad_reliable rt now b ad d :
  ∃ e, merge_ad reliable rt now b ad d = (merged rt now b d ad, Ok e).
Proof.
  unfold merge_ad, merged, merged_row, and_then, query, command, execute, ret, reliable; simpl.
  destruct (ad_vault d !! Dedup.ad_id ad) as [ex|] eqn:E; simpl; eexists; reflexivity.
Qed.

Lemma merge_loop_reliable rt now b ads : ∀ acc d,
  ∃ out, merge_loop reliable rt now b ads acc d
         = (fold_left (merged rt now b) ads d, Ok out).
Proof.
  induction ads as [|ad rest IH]; intros acc d; simpl.
  - eexists; reflexivity.
  - unfold and_then. destruct (merge_ad_reliable rt now b ad d) as [e ->].
    apply IH.
Qed.

Lemma delete_snapshots_empty d : delete_snapshots ∅ d = d.
Proof.
  destruct d as [br av ws sq]; unfold delete_snapshots; simpl. f_equal.
  apply map_filter_id. intros k v _. set_solver.
Qed.

Lemma cleanup_reliable b ids d :
  cleanup reliable b ids d = (cleaned b ids d, Ok tt).
Proof.
  unfold cleanup, cleaned, and_then, query, command, execute, ret, reliable; simpl.
  case_bool_decide as E; simpl; [|reflexivity].
  rewrite E, delete_snapshots_empty. reflexivity.
Qed.

Lemma processScrapedAds_reliable rt now b ads d ls :
  brands d !! b = Some ls →
  ∃ out, processScrapedAds reliable rt now b ads d
    = (touch_brand now b
         (fold_left (merged rt now b) ads
            (if 0 <? Z.of_nat (length (map Dedup.ad_id ads))
             then cleaned b (map Dedup.ad_id ads) d else d)), Ok out).
Proof.
  intros Hb. unfold processScrapedAds, and_then at 1. unfold query at 1, execute at 1.
  simpl. rewrite Hb.
  unfold and_then.
  destruct (0 <? Z.of_nat (length (map Dedup.ad_id ads))).
  - rewrite cleanup_reliable.
    destruct (merge_loop_reliable rt now b ads [] (cleaned b (map Dedup.ad_id ads) d)) as [out ->].
    unfold command, execute, ret; simpl. eexists; reflexivity.
  - unfold ret at 1.
    destruct (merge_loop_reliable rt now b ads [] d) as [out ->].
    unfold command, execute, ret; simpl. eexists; reflexivity.
Qed.

Lemma next_weeks_same now r : in_week now r → next_weeks (getWeekStart now) r = weeks_in_top10 r.
Proof.
  intros (ls & Hls & Hw). unfold next_weeks. rewrite Hls; simpl. rewrite Hw.
  rewrite Z.eqb_refl. reflexivity.
Qed.

Lemma next_weeks_other now r ls :
  last_seen r = Some ls → getWeekStart (midnight ls) ≠ getWeekStart now →
  next_weeks (getWeekStart now) r = weeks_in_top10 r + 1.
Proof.
  intros Hls Hw. unfold next_weeks. rewrite Hls; simpl.
  destruct (Z.eqb_spec (getWeekStart (midnight ls)) (getWeekStart now)); [done|reflexivity].
Qed.

Lemma in_week_today now r : last_seen r = Some (day_of now) → in_week now r.
Proof. intros H. exists (day_of now). split; [done|apply getWeekStart_midnight]. Qed.

(** The merges touch no row of an ad that is not in the batch. *)
Lemma fold_merged_other rt now b ads : ∀ d adId,
  adId ∉ map Dedup.ad_id ads →
  ad_vault (fold_left (merged rt now b) ads d) !! adId = ad_vault d !! adId.
Proof.
  induction ads as [|ad rest IH]; intros d adId Hn; simpl; [done|].
  simpl in Hn. apply not_elem_of_cons in Hn as [Hne Hn].
  rewrite IH by done. simpl. by rewrite lookup_insert_ne.
Qed.

(** A row last seen in the current week keeps its counter, its first
    sighting and its tags through the merges. *)
Lemma fold_merged_in_week rt now b ads : ∀ d adId r,
  ad_vault d !! adId = Some r → in_week now r →
  ∃ r', ad_vault (fold_left (merged rt now b) ads d) !! adId = Some r'
        ∧ weeks_in_top10 r' = weeks_in_top10 r
        ∧ first_seen r' = first_seen r
        ∧ same_tags r r'
        ∧ (last_seen r' = last_seen r ∨ last_seen r' = Some (day_of now)).
Proof.
  induction ads as [|ad rest IH]; intros d adId r Hr Hw; simpl.
  - exists r. unfold same_tags. naive_solver.
  - destruct (decide (Dedup.ad_id ad = adId)) as [E|Hne]; [subst adId|].
    + edestruct (IH (merged rt now b d ad) (Dedup.ad_id ad) (updated_row now ad r))
        as (r' & H1 & H2 & H3 & H4 & H5).
      { simpl. unfold merged_row. rewrite Hr. apply lookup_insert_eq. }
      { apply in_week_today. reflexivity. }
      exists r'. split; [done|]. simpl in *.
      rewrite H2, H3. split; [by apply next_weeks_same|]. split; [done|].
      split; [exact H4|]. destruct H5 as [->| ->]; by right.
    + apply (IH (merged rt now b d ad) adId r); [|done].
      simpl. by rewrite lookup_insert_ne.
Qed.

(** A row of the batch last seen in another week gains exactly one week. *)
Lemma fold_merged_pending rt now b ads : ∀ d adId r ls,
  ad_vault d !! adId = Some r → adId ∈ map Dedup.ad_id ads →
  last_seen r = Some ls → getWeekStart (midnight ls) ≠ getWeekStart now →
  ∃ r', ad_vault (fold_left (merged rt now b) ads d) !! adId = Some r'
        ∧ weeks_in_top10 r' = weeks_in_top10 r + 1
        ∧ last_seen r' = Some (day_of now).
Proof.
  induction ads as [|ad rest IH]; intros d adId r ls Hr Hin Hls Hw; simpl in *.
  - by apply elem_of_nil in Hin.
  - destruct (decide (Dedup.ad_id ad = adId)) as [E|Hne]; [subst adId|].
    + edestruct (fold_merged_in_week rt now b rest (merged rt now b d ad)
                   (Dedup.ad_id ad) (updated_row now ad r))
        as (r' & H1 & H2 & H3 & H4 & H5).
      { simpl. unfold merged_row. rewrite Hr. apply lookup_insert_eq. }
      { apply in_week_today. reflexivity. }
      exists r'. split; [done|]. simpl in *. rewrite H2.
      split; [by eapply next_weeks_other|]. by destruct H5.
    + apply elem_of_cons in Hin as [?|Hin]; [congruence|].
      apply (IH (merged rt now b d ad) adId r ls); try done.
      simpl. by rewrite lookup_insert_ne.
Qed.

(** An ad of the batch that was not stored ends as a fresh row. *)
Lemma fold_merged_new rt now b ads : ∀ d adId,
  ad_vault d !! adId = None → adId ∈ map Dedup.ad_id ads →
  ∃ r', ad_vault (fold_left (merged rt now b) ads d) !! adId = Some r'
        ∧ first_seen r' = Some (day_of now)
        ∧ last_seen r' = Some (day_of now)
        ∧ weeks_in_top10 r' = 1
        ∧ ai_asset_type r' = None ∧ ai_visual_format r' = None
        ∧ ai_messaging_angle r' = None ∧ ai_hook_tactic r' = None
        ∧ ai_offer_type r' = None.
Proof.
  induction ads as [|ad rest IH]; intros d adId Hr Hin; simpl in *.
  - by apply elem_of_nil in Hin.
  - destruct (decide (Dedup.ad_id ad = adId)) as [E|Hne]; [subst adId|].
    + edestruct (fold_merged_in_week rt now b rest (merged rt now b d ad)
                   (Dedup.ad_id ad) (inserted_row rt now b ad (ad_seq d + 1)))
        as (r' & H1 & H2 & H3 & (T1 & T2 & T3 & T4 & T5) & H5).
      { simpl. unfold merged_row. rewrite Hr. apply lookup_insert_eq. }
      { apply in_week_today. reflexivity. }
      exists r'. simpl in *. repeat split; try done. by destruct H5.
    + apply elem_of_cons in Hin as [?|Hin]; [congruence|].
      apply (IH (merged rt now b d ad) adId); try done.
      simpl. by rewrite lookup_insert_ne.
Qed.

(** The merges never write the four columns of the earlier analysis of a
    stored row. *)
Lemma fold_merged_analysis rt now b ads : ∀ d adId r,
  ad_vault d !! adId = Some r →
  ∃ r', ad_vault (fold_left (merged rt now b) ads d) !! adId = Some r'
        ∧ ai_format r' = ai_format r ∧ ai_hook r' = ai_hook r
        ∧ ai_visual_style r' = ai_visual_style r ∧ ai_angle r' = ai_angle r.
Proof.
  induction ads as [|ad rest IH]; intros d adId r Hr; simpl.
  - exists r. done.
  - destruct (decide (Dedup.ad_id ad = adId)) as [E|Hne]; [subst adId|].
    + destruct (IH (merged rt now b d ad) (Dedup.ad_id ad) (updated_row now ad r))
        as (r' & H1 & H2); [|by exists r'].
      simpl. unfold merged_row. rewrite Hr. apply lookup_insert_eq.
    + apply (IH (merged rt now b d ad) adId r). simpl. by rewrite lookup_insert_ne.
Qed.

Lemma fold_merged_new_analysis rt now b ads : ∀ d adId,
  ad_vault d !! adId = None → adId ∈ map Dedup.ad_id ads →
  Forall Dedup.without_analysis ads →
  ∃ r', ad_vault (fold_left (merged rt now b) ads d) !! adId = Some r'
        ∧ ai_format r' = None ∧ ai_hook r' = None
        ∧ ai_visual_style r' = None ∧ ai_angle r' = None.
Proof.
  induction ads as [|ad rest IH]; intros d adId Hr Hin Hall; simpl in *.
  - by apply elem_of_nil in Hin.
  - apply Forall_cons in Hall as [(A1 & A2 & A3 & A4) Hall].
    destruct (decide (Dedup.ad_id ad = adId)) as [E|Hne]; [subst adId|].
    + destruct (fold_merged_analysis rt now b rest (merged rt now b d ad)
                  (Dedup.ad_id ad) (inserted_row rt now b ad (ad_seq d + 1)))
        as (r' & H1 & F1 & F2 & F3 & F4).
      { simpl. unfold merged_row. rewrite Hr. apply lookup_insert_eq. }
      exists r'. simpl in *. rewrite A1 in F1. rewrite A2 in F2.
      rewrite A3 in F3. rewrite A4 in F4. done.
    + apply elem_of_cons in Hin as [?|Hin]; [congruence|].
      apply (IH (merged rt now b d ad) adId); try done.
      simpl. by rewrite lookup_insert_ne.
Qed.

Lemma cleaned_lookup_kept b ids d adId r :
  ad_vault d !! adId = Some r → stale b ids (adId, r) = false →
  ad_vault (cleaned b ids d) !! adId = Some r.
Proof.
  intros Hr Hs. unfold cleaned; simpl. apply map_lookup_filter_Some. done.
Qed.

Lemma cleaned_lookup_None b ids d adId :
  ad_vault d !! adId = None → ad_vault (cleaned b ids d) !! adId = None.
Proof.
  intros Hr. unfold cleaned; simpl. apply map_lookup_filter_None. left. done.
Qed.

Lemma stale_in_batch b ids adId r : adId ∈ ids → stale b ids (adId, r) = false.
Proof.
  intros Hin. unfold stale; simpl. rewrite bool_decide_eq_true_2 by done.
  simpl. by rewrite andb_false_r.
Qed.

Lemma touch_vault now b d : ad_vault (touch_brand now b d) = ad_vault d.
Proof. reflexivity. Qed.


Lemma fold_merged_snapshots_other rt now b ads : ∀ d adId b' w,
  adId ∉ map Dedup.ad_id ads →
  weekly_snapshots (fold_left (merged rt now b) ads d) !! (b', adId, w)
  = weekly_snapshots d !! (b', adId, w).
Proof.
  induction ads as [|ad rest IH]; intros d adId b' w Hn; simpl; [done|].
  simpl in Hn. apply not_elem_of_cons in Hn as [Hne Hn].
  rewrite IH by done. simpl. rewrite lookup_insert_ne; [done|congruence].
Qed.

Lemma select_stale_elem b ids d adId r :
  ad_vault d !! adId = Some r → stale b ids (adId, r) = true →
  adId ∈ select_stale b ids d.
Proof.
  intros Hr Hs. unfold select_stale. apply elem_of_dom. exists r.
  by apply map_lookup_filter_Some.
Qed.

Lemma delete_snapshots_gone ids d adId b' w :
  adId ∈ ids → weekly_snapshots (delete_snapshots ids d) !! (b', adId, w) = None.
Proof.
  intros Hin. unfold delete_snapshots; simpl.
  apply map_lookup_filter_None. right. intros v _. simpl. tauto.
Qed.

Lemma stale_true b ids adId r :
  brand_id r = b → adId ∉ ids → unbookmarked r = true → stale b ids (adId, r) = true.
Proof.
  intros Hb Hn Hu. unfold stale; simpl. rewrite Hu, bool_decide_eq_false_2 by done.
  rewrite Hb, Z.eqb_refl. reflexivity.
Qed.

Lemma stale_bookmarked b ids adId r : unbookmarked r = false → stale b ids (adId, r) = false.
Proof. intros Hu. unfold stale; simpl. rewrite Hu. apply andb_false_r. Qed.

Lemma length_pos_cons {A} (l : list A) : l ≠ [] → (0 <? Z.of_nat (length l)) = true.
Proof. destruct l; [done|]. intros _. simpl. apply Z.ltb_lt. lia. Qed.

(** C4 (amended). On reliable storage, for a registered brand and a batch
    that is not empty: every stored ad of the brand that is not in the
    batch and not bookmarked is deleted, and its snapshot rows with it; the
    snapshot rows go first (in the state between the two DELETEs the ad is
    still stored and has no snapshot row left). Every bookmarked stored ad
    that is not in the batch is the same row after the reconciliation. *)
Theorem stale_deleted_bookmarked_kept rt now b ads d ls0 :
  brands d !! b = Some ls0 → ads ≠ [] →
  let ids := map Dedup.ad_id ads in
  let run := processScrapedAds reliable rt now b ads d in
  let mid := delete_snapshots (select_stale b ids d) d in
  returns (snd run) = true
  ∧ cleanup reliable b ids d = (delete_stale b ids mid, Ok tt)
  ∧ (∀ adId r,
       ad_vault d !! adId = Some r → brand_id r = b → adId ∉ ids →
       unbookmarked r = true →
       (ad_vault mid !! adId = Some r
        ∧ ∀ b' w, weekly_snapshots mid !! (b', adId, w) = None)
       ∧ ad_vault (fst run) !! adId = None
       ∧ ∀ b' w, weekly_snapshots (fst run) !! (b', adId, w) = None)
  ∧ (∀ adId r,
       ad_vault d !! adId = Some r → unbookmarked r = false → adId ∉ ids →
       ad_vault (fst run) !! adId = Some r).
Proof.
  intros Hb Hne ids run mid. subst run.
  destruct (processScrapedAds_reliable rt now b ads d ls0 Hb) as [out ->]; simpl.
  fold ids. rewrite length_pos_cons by (subst ids; by destruct ads).
  split; [done|]. split; [apply cleanup_reliable|]. split.
  - intros adId r Hr Hbr Hn Hu.
    assert (Hs : stale b ids (adId, r) = true) by (apply stale_true; done).
    assert (Hsel : adId ∈ select_stale b ids d) by (eapply select_stale_elem; done).
    split; [split; [done|]|split].
    + intros b' w. by apply delete_snapshots_gone.
    + rewrite fold_merged_other by done. unfold cleaned; simpl.
      apply map_lookup_filter_None. right. intros r' Hr'. simpl.
      rewrite Hr in Hr'. injection Hr' as <-. rewrite Hs. done.
    + intros b' w. rewrite fold_merged_snapshots_other by done.
      unfold cleaned; simpl. by apply (delete_snapshots_gone _ d).
  - intros adId r Hr Hu Hn. rewrite fold_merged_other by done.
    apply cleaned_lookup_kept; [done|]. by apply stale_bookmarked.
Qed.

(** The loop over a concatenation is the loop over the first part followed
    by the loop over the second. *)
Lemma merge_loop_app fails rt now b pre : ∀ rest acc d,
  merge_loop fails rt now b (pre ++ rest) acc d
  = and_then (merge_loop fails rt now b pre acc)
      (λ acc', merge_loop fails rt now b rest acc') d.
Proof.
  induction pre as [|a pre IH]; intros rest acc d; simpl.
  - reflexivity.
  - unfold and_then. destruct (merge_ad fails rt now b a d) as [d' [e|e]]; [|done].
    rewrite IH. reflexivity.
Qed.

(** Whatever the storage does, the merge of an ad leaves the rows of the
    other ads alone. *)
Lemma merge_ad_frame fails rt now b ad d adId :
  adId ≠ Dedup.ad_id ad →
  ad_vault (fst (merge_ad fails rt now b ad d)) !! adId = ad_vault d !! adId.
Proof.
  intros Hne. unfold merge_ad, and_then, query, command, execute, ret.
  destruct (fails (SelectAd _)); simpl; [done|].
  destruct (ad_vault d !! Dedup.ad_id ad) as [ex|]; simpl.
  - destruct (fails (UpdateAd _)); simpl; [done|].
    destruct (fails (UpsertSnapshot _)); simpl; by rewrite lookup_insert_ne.
  - destruct (fails (InsertAd _)); simpl; [done|].
    destruct (fails (UpsertSnapshot _)); simpl; by rewrite lookup_insert_ne.
Qed.


Lemma merged_row_last_seen rt now b ad d :
  last_seen (merged_row rt now b ad d) = Some (day_of now).
Proof. unfold merged_row. by destruct (ad_vault d !! Dedup.ad_id ad). Qed.

Lemma fold_merged_seen rt now b ads : ∀ d adId,
  adId ∈ map Dedup.ad_id ads →
  ∃ r', ad_vault (fold_left (merged rt now b) ads d) !! adId = Some r'
        ∧ last_seen r' = Some (day_of now).
Proof.
  induction ads as [|ad rest IH]; intros d adId Hin; simpl in *.
  - by apply elem_of_nil in Hin.
  - destruct (decide (Dedup.ad_id ad = adId)) as [E|Hne]; [subst adId|].
    + edestruct (fold_merged_in_week rt now b rest (merged rt now b d ad)
                   (Dedup.ad_id ad) (merged_row rt now b ad d))
        as (r' & H1 & _ & _ & _ & H5).
      { simpl. apply lookup_insert_eq. }
      { apply in_week_today. apply merged_row_last_seen. }
      exists r'. split; [done|]. rewrite merged_row_last_seen in H5. by destruct H5.
    + apply elem_of_cons in Hin as [?|Hin]; [congruence|]. by apply IH.
Qed.

Lemma fold_merged_brands rt now b ads : ∀ d,
  brands (fold_left (merged rt now b) ads d) = brands d.
Proof. induction ads as [|ad rest IH]; intros d; simpl; [done|]. by rewrite IH. Qed.

(** Same-week idempotence on the path of [processScrapedAds]: a second
    ingestion of the batch in the same week leaves every counter as the
    first one left it. *)
Lemma processScrapedAds_same_week rt now1 now2 b ads d ls0 :
  brands d !! b = Some ls0 → getWeekStart now1 = getWeekStart now2 →
  let d1 := fst (processScrapedAds reliable rt now1 b ads d) in
  let d2 := fst (processScrapedAds reliable rt now2 b ads d1) in
  ∀ adId, adId ∈ map Dedup.ad_id ads →
    ∃ r1 r2, ad_vault d1 !! adId = Some r1 ∧ ad_vault d2 !! adId = Some r2
             ∧ weeks_in_top10 r2 = weeks_in_top10 r1.
Proof.
  intros Hb Hw d1 d2 adId Hin. subst d2 d1.
  destruct (processScrapedAds_reliable rt now1 b ads d ls0 Hb) as [out1 ->]. simpl.
  set (s1 := if 0 <? Z.of_nat (length (map Dedup.ad_id ads))
             then cleaned b (map Dedup.ad_id ads) d else d).
  set (d1 := touch_brand now1 b (fold_left (merged rt now1 b) ads s1)).
  assert (Hb1 : brands d1 !! b = Some (Some now1)).
  { subst d1. simpl. rewrite lookup_alter_eq, fold_merged_brands.
    subst s1. destruct (0 <? _); simpl; by rewrite Hb. }
  destruct (processScrapedAds_reliable rt now2 b ads d1 _ Hb1) as [out2 ->]. simpl.
  destruct (fold_merged_seen rt now1 b ads s1 adId Hin) as (r1 & Hr1 & Hls).
  assert (Hin2 : in_week now2 r1).
  { exists (day_of now1). split; [done|]. by rewrite getWeekStart_midnight. }
  set (s2 := if 0 <? Z.of_nat (length (map Dedup.ad_id ads))
             then cleaned b (map Dedup.ad_id ads) d1 else d1).
  assert (Hs2 : ad_vault s2 !! adId = Some r1).
  { subst s2. destruct (0 <? _); [|done].
    apply cleaned_lookup_kept; [done|by apply stale_in_batch]. }
  destruct (fold_merged_in_week rt now2 b ads s2 adId r1 Hs2 Hin2) as (r2 & Hr2 & Hwk & _).
  exists r1, r2. done.
Qed.

(** The store of the scheduled scrape adds one week to a stored ad
    whenever it writes it, whatever the week of its [last_seen]. *)
Lemma store_scheduled_ad_increments now b ad d r :
  forallb bindable [Dedup.ad_copy ad; Dedup.headline ad;
                    Dedup.cta_type ad; Dedup.start_date ad] = true →
  ad_vault d !! Dedup.ad_id ad = Some r →
  weeks_in_top10 <$> ad_vault (fst (store_scheduled_ad reliable now b ad d)) !! Dedup.ad_id ad
  = Some (weeks_in_top10 r + 1).
Proof.
  intros Hbind Hr. unfold store_scheduled_ad, ignoring_errors. rewrite Hbind.
  unfold execute, reliable; simpl. rewrite lookup_insert_eq, Hr. reflexivity.
Qed.

Lemma analyze_each_other fails provider now l : ∀ d adId,
  adId ∉ l.*1 →
  ad_vault (fst (analyze_each fails provider now l d)) !! adId = ad_vault d !! adId.
Proof.
  induction l as [|[k ad] rest IH]; intros d adId Hn; [done|].
  rewrite fmap_cons in Hn. apply not_elem_of_cons in Hn as [Hne Hn]. simpl in Hne.
  cbn [analyze_each]. unfold and_then, ignoring_errors. cbn [fst snd].
  rewrite IH by done.
  unfold write_tags.
  destruct (text_cell _); [|done]. destruct (text_cell _); [|done].
  destruct (text_cell _); [|done]. destruct (text_cell _); [|done].
  destruct (text_cell _); [|done].
  unfold command, execute. destruct (fails _); [done|]. cbn [fst].
  simpl. by rewrite lookup_alter_ne.
Qed.

(** The batch analysis never reaches a row whose asset type is set,
    whatever its other four tags are. *)
Lemma runBatchAnalysis_skips fails provider now d adId r :
  ad_vault d !! adId = Some r → unanalyzed r = false →
  ad_vault (fst (runBatchAnalysis fails provider now d)) !! adId = Some r.
Proof.
  intros Hr Hu. unfold runBatchAnalysis, and_then, query, execute.
  destruct (fails SelectUnanalyzed); [done|]. cbn [fst snd].
  rewrite analyze_each_other; [done|].
  intros Hin. apply list_elem_of_fmap in Hin as ([k r'] & -> & Hin).
  apply elem_of_map_to_list in Hin. apply map_lookup_filter_Some in Hin as [Hl Hf].
  simpl in *. rewrite Hr in Hl. injection Hl as <-. congruence.
Qed.

(** C10. With an empty batch the Reconciler deletes nothing, whatever the
    storage does: the stored ads and the snapshot rows are the same
    afterwards. *)
Theorem empty_batch_deletes_nothing fails rt now brandId d :
  ad_vault (fst (processScrapedAds fails rt now brandId [] d)) = ad_vault d
  ∧ weekly_snapshots (fst (processScrapedAds fails rt now brandId [] d))
    = weekly_snapshots d.
Proof.
  unfold processScrapedAds, and_then, query, command, execute, ret; simpl.
  destruct (fails SelectBrand); simpl; [done|].
  destruct (brands d !! brandId); simpl; [|done].
  destruct (fails TouchBrand); simpl; done.
Qed.

(** C1 (evaluation at the failing input). The store of the scheduled
    scrape, run on a batch that was already ingested in the same week,
    counts the week a second time, whether the first ingestion went
    through the scheduled store or through [processScrapedAds]. *)
Theorem scheduled_store_double_counts_same_week :
  let d1 := fst (store_scheduled reliable Sample.wednesday 1 [Sample.ad_a] Sample.registry) in
  let d2 := fst (store_scheduled reliable Sample.thursday 1 [Sample.ad_a] d1) in
  let m1 := fst (processScrapedAds reliable Sample.rt Sample.wednesday 1
                   [Sample.ad_a] Sample.registry) in
  let m2 := fst (store_scheduled reliable Sample.thursday 1 [Sample.ad_a] m1) in
  getWeekStart Sample.wednesday = getWeekStart Sample.thursday
  ∧ weeks_in_top10 <$> ad_vault d1 !! "a" = Some 1
  ∧ weeks_in_top10 <$> ad_vault d2 !! "a" = Some 2
  ∧ weeks_in_top10 <$> ad_vault m1 !! "a" = Some 1
  ∧ weeks_in_top10 <$> ad_vault m2 !! "a" = Some 2.
Proof. vm_compute. repeat split. Qed.

(** The same two ingestions through [processScrapedAds] count it once. *)
Example reconciler_counts_week_once :
  let d1 := fst (processScrapedAds reliable Sample.rt Sample.wednesday 1
                   [Sample.ad_a] Sample.registry) in
  let d2 := fst (processScrapedAds reliable Sample.rt Sample.thursday 1
                   [Sample.ad_a] d1) in
  weeks_in_top10 <$> ad_vault d1 !! "a" = Some 1
  ∧ weeks_in_top10 <$> ad_vault d2 !! "a" = Some 1.
Proof. vm_compute. repeat split. Qed.

(** The scenario of the stored ad last seen on 2024-01-08 with three
    weeks: a cycle on 2024-01-10 leaves 3, a cycle on 2024-01-16 gives 4. *)
Example scenario_weeks :
  weeks_in_top10 <$>
    ad_vault (fst (processScrapedAds reliable Sample.rt Sample.wednesday 1
                     [Sample.ad_a] Sample.stocked)) !! "a" = Some 3
  ∧ weeks_in_top10 <$>
      ad_vault (fst (processScrapedAds reliable Sample.rt Sample.next_tuesday 1
                       [Sample.ad_a] Sample.stocked)) !! "a" = Some 4.
Proof. vm_compute. repeat split. Qed.


Lemma stale_deleted_bookmarked_kept_witness :
  ad_vault (fst (processScrapedAds reliable Sample.rt Sample.wednesday 1
                   [Sample.ad_a] Sample.stocked)) !! "old" = None
  ∧ weekly_snapshots (fst (processScrapedAds reliable Sample.rt Sample.wednesday 1
                             [Sample.ad_a] Sample.stocked)) !! (1, "old", 19723) = None
  ∧ ad_vault (fst (processScrapedAds reliable Sample.rt Sample.wednesday 1
                     [Sample.ad_a] Sample.stocked)) !! "fav" = Some Sample.row_fav.
Proof.
  destruct (stale_deleted_bookmarked_kept Sample.rt Sample.wednesday 1
              [Sample.ad_a] Sample.stocked None eq_refl)
    as (_ & _ & Hdel & Hkeep); [discriminate|].
  assert (Hout : ∀ k : string, k ≠ "a" → k ∉ map Dedup.ad_id [Sample.ad_a]).
  { intros k Hk Hin. apply elem_of_cons in Hin as [Hin|Hin]; [by apply Hk|].
    by apply elem_of_nil in Hin. }
  destruct (Hdel "old" Sample.row_old) as (_ & Hgone & Hsnap);
    [reflexivity|reflexivity|apply Hout; discriminate|reflexivity|].
  split; [exact Hgone|]. split; [apply Hsnap|].
  apply Hkeep; [reflexivity|reflexivity|apply Hout; discriminate].
Defined.

(** C4 as stated fails on the empty batch: the stored ad of the brand that
    is not in the batch and not bookmarked is still there afterwards. *)
Lemma stale_deleted_bookmarked_kept_counterexample :
  brands Sample.stocked !! 1 = Some None
  ∧ ad_vault Sample.stocked !! "old" = Some Sample.row_old
  ∧ brand_id Sample.row_old = 1
  ∧ unbookmarked Sample.row_old = true
  ∧ ad_vault (fst (processScrapedAds reliable Sample.rt Sample.wednesday 1
                     [] Sample.stocked)) !! "old" = Some Sample.row_old
  ∧ ad_vault (fst (processScrapedAds reliable Sample.rt Sample.wednesday 1
                     [] Sample.stocked)) !! "old" ≠ None.
Proof. vm_compute. repeat split; discriminate. Qed.



(** C8 (evaluation at the failing input). A row with one of the five tags
    is not complete for [analyzeAdCreative], yet it is outside the
    selection of the batch analysis, which leaves it as it is. *)
Theorem partial_tags_escape_batch_selection :
  has_all_tags Sample.row_partial = false
  ∧ unanalyzed Sample.row_partial = false
  ∧ ad_vault (fst (runBatchAnalysis reliable Sample.provider Sample.wednesday
                     Sample.tagged_once)) !! "p" = Some Sample.row_partial.
Proof. vm_compute. repeat split. Qed.

End VaultFacts.

(** ** Properties of the field extraction of the Deduplicator *)

Module FeedFacts.
Import Dedup Feed.

(** *** The fingerprint of a file address *)

Lemma span_app_stop p r c s :
  p c = false →
  span p (r +:+ String c s) = (fst (span p r), snd (span p r) +:+ String c s).
Proof.
  intros Hc. induction r as [|a r IH]; simpl.
  - by rewrite Hc.
  - destruct (p a); [|done]. rewrite IH. by destruct (span p r).
Qed.

Lemma span_all p s t :
  all_chars p s = true →
  (t = "" ∨ ∃ c t', t = String c t' ∧ p c = false) →
  span p (s +:+ t) = (s, t).
Proof.
  intros Hs Ht. induction s as [|a s IH]; simpl in *.
  - destruct Ht as [->|(c & t' & -> & Hc)]; simpl; [done|by rewrite Hc].
  - apply andb_true_iff in Hs as [Ha Hs]. rewrite Ha, IH by done. done.
Qed.

Lemma match_file_id_eq s :
  match_file_id s =
  if (10 <=? String.length (fst (span is_digit s)))%nat then
    match snd (span is_digit s) with
    | String a (String c r3) =>
        if Ascii.eqb a "_" && is_digit c
        then Some (fst (span is_digit s) +:+ "_" +:+ fst (span not_boundary (String c r3)))
        else None
    | _ => None
    end
  else None.
Proof.
  unfold match_file_id. destruct (span is_digit s) as [dg r1]; cbn [fst snd].
  destruct (10 <=? String.length dg)%nat; [|done].
  destruct r1 as [|a [|c r3]].
  - done.
  - by destruct a as [[] [] [] [] [] [] [] []].
  - by destruct a as [[] [] [] [] [] [] [] []].
Qed.

Lemma match_file_id_slash r s :
  match_file_id (r +:+ String "/" s) = match_file_id r.
Proof.
  rewrite !match_file_id_eq. rewrite (span_app_stop is_digit r "/" s) by done.
  cbn [fst snd]. destruct (10 <=? _)%nat; [|done].
  destruct (snd (span is_digit r)) as [|a [|c r3]].
  - simpl. by destruct s.
  - simpl. destruct (Ascii.eqb a "_"); done.
  - change (String a (String c r3) +:+ String "/" s)
      with (String a (String c (r3 +:+ String "/" s))).
    cbv iota. destruct (Ascii.eqb a "_" && is_digit c); [|done].
    change (String c (r3 +:+ String "/" s)) with (String c r3 +:+ String "/" s).
    rewrite (span_app_stop not_boundary (String c r3) "/" s) by done. done.
Qed.

Lemma find_file_id_app pre s :
  find_file_id (pre +:+ String "/" s)
  = match find_file_id pre with
    | Some m => Some m
    | None => find_file_id (String "/" s)
    end.
Proof.
  induction pre as [|a pre IH]; [done|].
  change (String a pre +:+ String "/" s) with (String a (pre +:+ String "/" s)).
  cbn [find_file_id]. destruct (Ascii.eqb a "/").
  - rewrite match_file_id_slash. destruct (match_file_id pre); [done|apply IH].
  - apply IH.
Qed.

Lemma match_file_id_exact digits c rest q :
  all_chars is_digit digits = true → (10 ≤ String.length digits)%nat →
  is_digit c = true → all_chars not_boundary rest = true →
  (q = "" ∨ ∃ b q', q = String b q' ∧ not_boundary b = false) →
  match_file_id (digits +:+ "_" +:+ String c rest +:+ q)
  = Some (digits +:+ "_" +:+ String c rest).
Proof.
  intros Hd Hl Hc Hr Hq. rewrite match_file_id_eq.
  rewrite (span_all is_digit digits ("_" +:+ String c rest +:+ q)) by (try done; right; by eexists _, _).
  cbn [fst snd]. destruct (Nat.leb_spec 10 (String.length digits)); [|lia].
  change ("_" +:+ String c rest +:+ q) with (String "_" (String c (rest +:+ q))).
  cbv iota. rewrite Hc.
  change (String c (rest +:+ q)) with (String c rest +:+ q).
  rewrite (span_all not_boundary (String c rest) q); [done| |done].
  simpl. rewrite Hr, andb_true_r. unfold not_boundary, is_digit in *.
  destruct (Ascii.eqb_spec c "/") as [->|]; [done|].
  destruct (Ascii.eqb_spec c "?") as [->|]; [done|]. done.
Qed.

(** The fingerprint of an address whose last path segment is a file
    identifier is that segment, whatever the query is and whatever comes
    before the segment, as long as no file identifier starts there. *)
Theorem fingerprint_is_the_file_name pre digits c rest q :
  find_file_id pre = None →
  all_chars is_digit digits = true → (10 ≤ String.length digits)%nat →
  is_digit c = true → all_chars not_boundary rest = true →
  (q = "" ∨ ∃ b q', q = String b q' ∧ not_boundary b = false) →
  getMediaFingerprint (VStr (pre +:+ "/" +:+ digits +:+ "_" +:+ String c rest +:+ q))
  = Ok (digits +:+ "_" +:+ String c rest).
Proof.
  intros Hpre Hd Hl Hc Hr Hq. unfold getMediaFingerprint.
  assert (Ht : truthy (VStr (pre +:+ "/" +:+ digits +:+ "_" +:+ String c rest +:+ q)) = true).
  { simpl. destruct pre; done. }
  rewrite Ht. cbn [negb].
  change (pre +:+ "/" +:+ digits +:+ "_" +:+ String c rest +:+ q)
    with (pre +:+ String "/" (digits +:+ "_" +:+ String c rest +:+ q)).
  rewrite find_file_id_app, Hpre. cbn [find_file_id]. simpl Ascii.eqb. cbv iota.
  rewrite match_file_id_exact by done. done.
Qed.

Lemma fingerprint_is_the_file_name_witness :
  getMediaFingerprint (VStr "https://cdn.example/v/t39/1234567890_111_n.jpg?x=1")
  = Ok "1234567890_111_n.jpg"
  ∧ getMediaFingerprint (VStr "https://cdn2.example/v/t39/1234567890_111_n.jpg?y=2")
  = Ok "1234567890_111_n.jpg".
Proof.
  split.
  - apply (fingerprint_is_the_file_name "https://cdn.example/v/t39" "1234567890" "1" "11_n.jpg" "?x=1");
      [reflexivity|reflexivity|simpl; lia|reflexivity|reflexivity|right; by eexists _, _].
  - apply (fingerprint_is_the_file_name "https://cdn2.example/v/t39" "1234567890" "1" "11_n.jpg" "?y=2");
      [reflexivity|reflexivity|simpl; lia|reflexivity|reflexivity|right; by eexists _, _].
Defined.


(** *** The fingerprint is empty only without an address *)

Lemma substring_nonempty s : ∀ k m,
  (k < String.length s)%nat → (0 < m)%nat → substring k m s ≠ "".
Proof.
  induction s as [|a s IH]; intros k m Hk Hm; simpl in Hk; [lia|].
  destruct k as [|k]; simpl.
  - destruct m; [lia|done].
  - apply IH; lia.
Qed.

Lemma substring_length s : ∀ k m, (String.length (substring k m s) ≤ m)%nat.
Proof.
  induction s as [|a s IH]; intros k m.
  - destruct k, m; simpl; lia.
  - destruct k as [|k]; simpl.
    + destruct m as [|m]; simpl; [lia|]. specialize (IH 0%nat m). lia.
    + apply IH.
Qed.

Lemma match_file_id_nonempty s m : match_file_id s = Some m → m ≠ "".
Proof.
  rewrite match_file_id_eq. destruct (10 <=? _)%nat; [|done].
  destruct (snd (span is_digit s)) as [|a [|c r3]]; try done.
  destruct (_ && _); [|done]. intros [= <-].
  destruct (fst (span is_digit s)); done.
Qed.

Lemma find_file_id_nonempty s m : find_file_id s = Some m → m ≠ "".
Proof.
  induction s as [|a s IH]; simpl; [done|].
  destruct (Ascii.eqb a "/"); [|done].
  destruct (match_file_id s) eqn:E; [|done].
  intros [= <-]. by eapply match_file_id_nonempty.
Qed.

(** Every string has a fingerprint; it is empty exactly for the empty
    string, and without a file identifier it is at most 150 characters of
    the address. *)
Theorem fingerprint_empty_only_without_address (u : string) :
  ∃ f, getMediaFingerprint (VStr u) = Ok f
       ∧ (f = "" ↔ u = "")
       ∧ (find_file_id u = None → (String.length f ≤ 150)%nat).
Proof.
  unfold getMediaFingerprint. destruct u as [|a u].
  - exists "". simpl. repeat split; intros; (done || lia).
  - simpl truthy. cbn [negb].
    destruct (find_file_id (String a u)) as [m|] eqn:E.
    + exists m. split; [done|]. split; [|done].
      split; [|done]. intros ->. by apply find_file_id_nonempty in E.
    + exists (slice_last 150 (String a u)). split; [done|]. split.
      * split; [|done]. intros H. exfalso. revert H. unfold slice_last.
        apply substring_nonempty; simpl; lia.
      * intros _. apply substring_length.
Qed.

(** *** The media fields of a canonical ad *)

Lemma extractUrl_sound v : extractUrl v = VNull ∨ truthy (extractUrl v) = true.
Proof.
  unfold extractUrl. destruct (truthy v) eqn:Hv; simpl; [|by left].
  destruct (is_string v); [by right|].
  destruct (is_object v); [|by left].
  unfold or_chain. simpl. unfold js_or.
  repeat (match goal with
          | |- context [if truthy ?x then _ else _] =>
              let H := fresh in destruct (truthy x) eqn:H; [by right|]
          end).
  by left.
Qed.

Lemma extractVideoPreviewUrl_sound v :
  extractVideoPreviewUrl v = VNull ∨ truthy (extractVideoPreviewUrl v) = true.
Proof.
  unfold extractVideoPreviewUrl. destruct (truthy v) eqn:Hv; simpl; [|by left].
  destruct (is_object v); [|by left].
  unfold or_chain. simpl. unfold js_or.
  repeat (match goal with
          | |- context [if truthy ?x then _ else _] =>
              let H := fresh in destruct (truthy x) eqn:H; [by right|]
          end).
  by left.
Qed.

Lemma js_or_sound a b :
  (b = VNull ∨ truthy b = true) → js_or a b = VNull ∨ truthy (js_or a b) = true.
Proof. intros Hb. unfold js_or. destruct (truthy a) eqn:E; [by right|done]. Qed.

Lemma fallback_media_sound fields :
  fallback_media fields = VNull ∨ truthy (fallback_media fields) = true.
Proof.
  unfold fallback_media. destruct (find is_http_string fields) as [f|] eqn:E; [|by left].
  apply find_some in E as [_ E]. right. unfold is_http_string in E.
  destruct f; try done. by apply andb_true_iff in E as [E _].
Qed.

Lemma resolve_media_sound rt snapshot firstCard :
  let '(cu, vu, ct) := resolve_media rt snapshot firstCard in
  (cu = VNull ∨ truthy cu = true) ∧ (vu = VNull ∨ truthy vu = true)
  ∧ (ct = "image"%string ∨ ct = "video"%string)
  ∧ (vu ≠ VNull → ct = "video"%string).
Proof.
  unfold resolve_media.
  destruct (truthy (js_or (prop firstCard "videoHdUrl") _)).
  { split; [|split; [|split]]; [| |by right|done].
    - unfold or_chain. simpl. do 2 apply js_or_sound. apply extractUrl_sound.
    - apply js_or_sound. apply extractUrl_sound. }
  destruct (truthy (js_or (prop firstCard "resizedImageUrl") _)).
  { split; [|split; [|split]]; [|by left|by left|done].
    apply js_or_sound. apply extractUrl_sound. }
  destruct (truthy (prop snapshot "videos") && _).
  { split; [|split; [|split]]; [| |by right|done].
    - unfold or_chain. simpl. do 2 apply js_or_sound. by left.
    - apply extractUrl_sound. }
  destruct (truthy (prop snapshot "images") && _).
  { split; [|split; [|split]]; [|by left|by left|done]. apply extractUrl_sound. }
  split; [|split; [|split]]; [by left|by left|by left|done].
Qed.

Lemma string_or_null_Some u s : string_or_null u = Some s → u = VStr s ∧ s ≠ "".
Proof.
  destruct u; try done. simpl. destruct (String.eqb_spec s0 ""); simpl; [done|].
  intros [= <-]. done.
Qed.

(** The two type checks lose nothing: what the cascade and the fallback
    give is [null] or a truthy value, so a string among them is never
    empty. *)
Lemma string_or_null_lossless u :
  (u = VNull ∨ truthy u = true) →
  string_or_null u = match u with VStr s => Some s | _ => None end.
Proof. intros [->|H]; [done|]. destruct u; try done. simpl in *. by rewrite H. Qed.


Lemma to_canonical_fields rt b tick i it ad :
  to_canonical rt b tick i it = Ok ad →
  brand_id ad = b
  ∧ ad_library_link ad = "https://www.facebook.com/ads/library/?id=" +:+ ad_id ad
  ∧ (creative_type ad = "image"%string ∨ creative_type ad = "video"%string)
  ∧ (is_Some (video_url ad) → creative_type ad = "video"%string)
  ∧ creative_url ad ≠ Some ""%string ∧ video_url ad ≠ Some ""%string.
Proof.
  unfold to_canonical. intros H. apply DedupFacts.bind_Ok in H as (ext & _ & H).
  pose proof (resolve_media_sound rt (js_or (prop it "snapshot") (VObj []))
                (first_card (js_or (prop it "snapshot") (VObj [])))) as Hm.
  destruct (resolve_media rt _ _) as [[cu vu] ct].
  destruct Hm as (_ & _ & Hct & Hv).
  apply DedupFacts.bind_Ok in H as (sd & _ & H). injection H as <-. cbn.
  split; [done|]. split; [done|]. split; [done|]. split.
  - intros [s Hs]. apply Hv. intros ->. done.
  - split; intros Hs; apply string_or_null_Some in Hs as [_ Hs]; done.
Qed.

(** Every canonical ad carries the brand it was scraped for and the link
    of its own identifier; its creative type is image or video, it is
    video whenever a video address was found, and an address that is
    present is never the empty string. *)
Theorem canonical_ad_media_fields rt items b out :
  transformApifyResults rt items b = Ok out →
  ∀ ad, ad ∈ out →
    brand_id ad = b
    ∧ ad_library_link ad = "https://www.facebook.com/ads/library/?id=" +:+ ad_id ad
    ∧ (creative_type ad = "image"%string ∨ creative_type ad = "video"%string)
    ∧ (is_Some (video_url ad) → creative_type ad = "video"%string)
    ∧ creative_url ad ≠ Some ""%string ∧ video_url ad ≠ Some ""%string.
Proof.
  unfold transformApifyResults. intros H ad Hin.
  apply DedupFacts.bind_Ok in H as ([survivors tick] & Hu & H).
  destruct (DedupFacts.map_indexed_lookup _ _ _ _ H) as [_ Hk].
  apply list_elem_of_lookup in Hin as [k Hk'].
  destruct (Hk k ad Hk') as (it & _ & Hf). by eapply to_canonical_fields.
Qed.

Lemma canonical_ad_media_fields_witness :
  transformApifyResults Sample.rt Sample.batch 7 = Ok Sample.batch_out
  ∧ ∀ ad, ad ∈ Sample.batch_out →
      brand_id ad = 7
      ∧ ad_library_link ad = "https://www.facebook.com/ads/library/?id=" +:+ ad_id ad
      ∧ (creative_type ad = "image"%string ∨ creative_type ad = "video"%string)
      ∧ (is_Some (video_url ad) → creative_type ad = "video"%string)
      ∧ creative_url ad ≠ Some ""%string ∧ video_url ad ≠ Some ""%string.
Proof.
  assert (E : transformApifyResults Sample.rt Sample.batch 7 = Ok Sample.batch_out)
    by (vm_compute; reflexivity).
  split; [exact E|].
  exact (canonical_ad_media_fields Sample.rt Sample.batch 7 Sample.batch_out E).
Defined.

(** *** Sizes *)

Lemma map_set_nonempty key e (m : jsmap) : map_set key e m ≠ [].
Proof. destruct m as [|[k e'] r]; simpl; [done|]. by destruct (String.eqb k key). Qed.

Lemma group_under_nonempty key e (m : jsmap) : group_under key e m ≠ [].
Proof.
  unfold group_under. destruct (map_get key m) eqn:E.
  - destruct (earlier_known _ _); [apply map_set_nonempty|]. by destruct m.
  - apply map_set_nonempty.
Qed.

Lemma group_step_nonempty rt prefix signal it m t m' t' :
  group_step rt prefix signal it (m, t) = Ok (m', t') → m' ≠ [].
Proof.
  unfold group_step. intros H.
  apply DedupFacts.bind_Ok in H as (s & Hs & H).
  apply DedupFacts.bind_Ok in H as (ts & Hts & H).
  destruct (negb (String.eqb s "")).
  - injection H as <- <-. apply group_under_nonempty.
  - apply DedupFacts.bind_Ok in H as ([key t1] & Hkey & H). injection H as <- <-.
    apply map_set_nonempty.
Qed.

Lemma group_loop_nonempty rt prefix signal items : ∀ m t m' t',
  group_loop rt prefix signal items (m, t) = Ok (m', t') →
  items ≠ [] ∨ m ≠ [] → m' ≠ [].
Proof.
  induction items as [|it rest IH]; intros m t m' t' H Hne; simpl in H.
  - injection H as <- <-. by destruct Hne.
  - apply DedupFacts.bind_Ok in H as ([m1 t1] & H1 & H).
    eapply IH; [exact H|]. right. by eapply group_step_nonempty.
Qed.

Lemma uniqueById_nonempty it rest kept :
  uniqueById [] (it :: rest) = Ok kept → kept ≠ [].
Proof.
  simpl. intros H. apply DedupFacts.bind_Ok in H as (v & _ & H).
  destruct (negb (truthy v));
    apply DedupFacts.bind_Ok in H as (k & _ & H); by injection H as <-.
Qed.

Lemma map_values_nil (m : jsmap) : map_values m = [] ↔ m = [].
Proof. unfold map_values. split; [apply fmap_nil_inv|by intros ->]. Qed.

(** The Deduplicator invents no item and, of a batch that is not empty,
    always keeps at least one: only an empty batch gives an empty output. *)
Theorem dedup_keeps_some_of_a_batch rt items b out :
  transformApifyResults rt items b = Ok out →
  (length out ≤ length items)%nat ∧ (out = [] ↔ items = []).
Proof.
  unfold transformApifyResults. intros H.
  apply DedupFacts.bind_Ok in H as ([survivors tick] & Hu & H).
  destruct (DedupFacts.map_indexed_lookup _ _ _ _ H) as [Hlen _].
  apply DedupFacts.uniqueResults_Ok in Hu
    as (byId & mg & t1 & hg & H1 & H2 & H3 & ->).
  destruct (DedupFacts.group_loop_keyed rt "media:" media_fingerprint byId
              [] 0%nat mg t1 (DedupFacts.keyed_nil _ _) H2) as [_ S2].
  destruct (DedupFacts.group_loop_keyed rt "headline:" normalized_headline
              (map_values mg) [] t1 hg tick (DedupFacts.keyed_nil _ _) H3) as [_ S3].
  pose proof (sublist_length _ _ (DedupFacts.uniqueById_sublist _ _ _ H1)) as L1.
  apply submseteq_length in S2, S3. rewrite !length_app in S2, S3. simpl in S2, S3.
  rewrite length_take in Hlen. split; [lia|]. split.
  - intros ->. simpl in Hlen.
    destruct items as [|it rest]; [done|]. exfalso.
    pose proof (uniqueById_nonempty _ _ _ H1) as N1.
    assert (N2 : mg ≠ []) by (eapply group_loop_nonempty; [exact H2|by left]).
    assert (N3 : hg ≠ []).
    { eapply group_loop_nonempty; [exact H3|]. left. by rewrite map_values_nil. }
    destruct (map_values hg) eqn:E; [by apply map_values_nil in E|].
    simpl in Hlen. lia.
  - intros ->. simpl in H1. injection H1 as <-. simpl in H2. injection H2 as <- <-.
    simpl in H3. injection H3 as <- <-. simpl in H. by injection H as <-.
Qed.

Lemma dedup_keeps_some_of_a_batch_witness :
  transformApifyResults Sample.rt Sample.batch 7 = Ok Sample.batch_out
  ∧ (length Sample.batch_out ≤ length Sample.batch)%nat
  ∧ (Sample.batch_out = [] ↔ Sample.batch = []).
Proof.
  assert (E : transformApifyResults Sample.rt Sample.batch 7 = Ok Sample.batch_out)
    by (vm_compute; reflexivity).
  split; [exact E|].
  exact (dedup_keeps_some_of_a_batch Sample.rt Sample.batch 7 Sample.batch_out E).
Defined.


(** *** A feed of the expected shape is always accepted *)

Lemma js_or_textual a b :
  textual a = true → is_string b = true → is_string (js_or a b) = true.
Proof. intros Ha Hb. unfold js_or. destruct a; try done. simpl. by destruct (String.eqb s ""). Qed.

Lemma getMediaFingerprint_string v :
  is_string v = true → ∃ f, getMediaFingerprint v = Ok f.
Proof.
  destruct v; try done. intros _. unfold getMediaFingerprint.
  destruct (negb _); [by eexists|]. destruct (find_file_id s); by eexists.
Qed.

Section shaped.
Variable rt : Runtime.
Variable it : value.
Hypothesis Hws : well_shaped it = true.

Lemma shaped_object : ∃ fields, it = VObj fields.
Proof using Hws. destruct it; try done. by eexists. Qed.

Lemma shaped_external_id : ∃ v, external_id it = Ok v.
Proof using Hws. destruct shaped_object as [f ->]. by eexists. Qed.

Lemma shaped_parts :
  let snapshot := js_or (prop it "snapshot") (VObj []) in
  let firstVideo := opt_index (prop snapshot "videos") 0 in
  let firstImage := opt_index (prop snapshot "images") 0 in
  let firstCard := first_card snapshot in
  Forall (λ v, textual v = true)
    [opt_prop firstVideo "video_hd_url"; opt_prop firstVideo "video_sd_url";
     opt_prop firstImage "resizedImageUrl"; opt_prop firstImage "url";
     prop firstCard "title"; prop snapshot "title";
     prop snapshot "link_description"; prop it "startDateFormatted"]
  ∧ match prop it "startDate" with
    | VNum n => Z.abs (n * 1000) <=? 8640000000000000
    | _ => true
    end = true.
Proof using Hws.
  destruct shaped_object as [f E]. revert Hws. rewrite E. unfold well_shaped.
  intros H. apply andb_true_iff in H as [H1 H2]. split; [|done].
  rewrite forallb_forall in H1. apply Forall_forall. intros v Hv.
  apply H1. by apply list_elem_of_In.
Qed.

Lemma shaped_media : ∃ f, media_fingerprint it = Ok f.
Proof using Hws.
  destruct shaped_object as [fs E]. destruct shaped_parts as [Hp _].
  rewrite !Forall_cons in Hp. destruct Hp as (T1 & T2 & T3 & T4 & _).
  unfold media_fingerprint, snapshot_of, get. rewrite E in *. cbn [nullish bind].
  apply getMediaFingerprint_string.
  match goal with |- is_string (js_or ?a ?b) = true =>
    assert (Ha : is_string a = true); [|assert (Hb : is_string b = true)] end.
  - apply js_or_textual; [done|]. by apply js_or_textual.
  - match goal with |- is_string (if ?c then _ else _) = true =>
      destruct c eqn:Es end; [exact Es|].
    apply js_or_textual; [done|]. by apply js_or_textual.
  - unfold js_or at 1. by destruct (truthy _).
Qed.

Lemma shaped_headline : ∃ h, normalized_headline it = Ok h.
Proof using Hws.
  destruct shaped_object as [fs E]. destruct shaped_parts as [Hp _].
  rewrite !Forall_cons in Hp. destruct Hp as (_ & _ & _ & _ & T5 & T6 & T7 & _).
  unfold normalized_headline, snapshot_of, get. rewrite E in *. cbn [nullish bind].
  match goal with |- ∃ h, match ?r with _ => _ end = _ =>
    assert (Hr : is_string r = true) end.
  { apply js_or_textual; [done|]. apply js_or_textual; [done|]. by apply js_or_textual. }
  revert Hr.
  match goal with |- is_string ?r = true → _ => destruct r; try done end.
  intros _. by eexists.
Qed.

Lemma shaped_start : ∃ ts, start_of rt it = Ok ts.
Proof using Hws.
  destruct shaped_object as [fs E]. unfold start_of, get. rewrite E. cbn [nullish bind].
  destruct (truthy _); [by eexists|]. destruct (prop _ "startDate"); by eexists.
Qed.

Lemma shaped_own_key tick : ∃ k, own_key rt it tick = Ok k.
Proof using Hws.
  destruct shaped_external_id as [v Hv]. unfold own_key. rewrite Hv. cbn [bind].
  destruct (truthy v); by eexists.
Qed.

Lemma shaped_startDate : ∃ v, startDate_of rt it = Ok v.
Proof using Hws.
  destruct shaped_parts as [Hp Hn].
  rewrite !Forall_cons in Hp. destruct Hp as (_ & _ & _ & _ & _ & _ & _ & T8 & _).
  assert (Hrest : ∃ v, match prop it "startDate" with
                       | VNum n =>
                           if Z.abs (n * 1000) <=? 8640000000000000
                           then Ok (VStr (iso_date_of_ms rt (n * 1000)))
                           else Throw (RangeError "Invalid time value")
                       | _ => if truthy (prop it "startDate")
                              then Ok (prop it "startDate") else Ok VNull
                       end = Ok v).
  { destruct (prop it "startDate") eqn:Es;
      try (destruct (truthy _); by eexists). rewrite Hn. by eexists. }
  unfold startDate_of. destruct (prop it "startDateFormatted") eqn:Ef; try done.
  destruct (truthy (VStr s)); [by eexists|done].
Qed.

Lemma shaped_canonical b tick i : ∃ ad, to_canonical rt b tick i it = Ok ad.
Proof using Hws.
  destruct shaped_external_id as [v Hv]. destruct shaped_startDate as [sd Hsd].
  unfold to_canonical. rewrite Hv. cbn [bind].
  destruct (resolve_media rt _ _) as [[cu vu] ct]. rewrite Hsd. cbn [bind]. by eexists.
Qed.

Lemma shaped_step prefix signal m tick :
  (∃ s, signal it = Ok s) → ∃ st, group_step rt prefix signal it (m, tick) = Ok st.
Proof using Hws.
  intros [s Hs]. destruct shaped_start as [ts Hts].
  unfold group_step. rewrite Hs, Hts. cbn [bind].
  destruct (negb _); [by eexists|].
  destruct (shaped_own_key tick) as [[k t'] Hk]. rewrite Hk. cbn [bind]. by eexists.
Qed.

End shaped.

Lemma shaped_uniqueById items : ∀ seen,
  Forall (λ it, well_shaped it = true) items → ∃ kept, uniqueById seen items = Ok kept.
Proof.
  induction items as [|it rest IH]; intros seen H; cbn [uniqueById]; [by eexists|].
  apply Forall_cons in H as [Hit H].
  destruct (shaped_external_id it Hit) as [v ->]. cbn [bind].
  destruct (negb (truthy v)).
  - destruct (IH seen H) as [k ->]. by eexists.
  - destruct (existsb _ _); [by apply IH|].
    destruct (IH (v :: seen) H) as [k ->]. by eexists.
Qed.

Lemma shaped_group_loop rt prefix signal items : ∀ st,
  Forall (λ it, well_shaped it = true) items →
  (∀ it, well_shaped it = true → ∃ s, signal it = Ok s) →
  ∃ st', group_loop rt prefix signal items st = Ok st'.
Proof.
  induction items as [|it rest IH]; intros [m t] H Hsig; cbn [group_loop];
    [by eexists|].
  apply Forall_cons in H as [Hit H].
  destruct (shaped_step rt it Hit prefix signal m t (Hsig it Hit)) as [st' ->].
  cbn [bind]. by apply IH.
Qed.

Lemma shaped_map_indexed rt b tick xs : ∀ i,
  Forall (λ it, well_shaped it = true) xs →
  ∃ ys, map_indexed (to_canonical rt b tick) i xs = Ok ys.
Proof.
  induction xs as [|x r IH]; intros i H; cbn [map_indexed]; [by eexists|].
  apply Forall_cons in H as [Hx H].
  destruct (shaped_canonical rt x Hx b tick i) as [ad ->]. cbn [bind].
  destruct (IH (S i) H) as [ys ->]. by eexists.
Qed.

Lemma Forall_submseteq {A} (P : A → Prop) (l k : list A) :
  l ⊆+ k → Forall P k → Forall P l.
Proof.
  intros Hs Hk. apply Forall_forall. intros x Hx.
  rewrite Forall_forall in Hk. apply Hk. by eapply elem_of_submseteq.
Qed.



End FeedFacts.

(** ** Properties of the three write paths *)

Module LedgerFacts.
Import Vault Ledger VaultFacts.

(** *** Weeks *)

Lemma getWeekStart_bounds (t : instant) :
  getWeekStart t ≤ day_of t ≤ getWeekStart t + 6.
Proof.
  rewrite getWeekStart_day.
  pose proof (Z.mod_pos_bound (day_of t + 4) 7 ltac:(lia)) as Hm.
  destruct (Z.eqb_spec ((day_of t + 4) mod 7) 0) as [E|E]; [rewrite E|]; lia.
Qed.





(** *** The Reconciler *)

(** What the three statements of the cleanup leave of a row that the
    WHERE clause does not select, whichever of them the storage rejects. *)
Lemma delete_snapshots_other ids d adId b' w :
  adId ∉ ids →
  weekly_snapshots (delete_snapshots ids d) !! (b', adId, w)
  = weekly_snapshots d !! (b', adId, w).
Proof.
  intros Hn. unfold delete_snapshots; simpl.
  destruct (weekly_snapshots d !! (b', adId, w)) as [rk|] eqn:E.
  - apply map_lookup_filter_Some. done.
  - apply map_lookup_filter_None. by left.
Qed.

Lemma select_stale_spec b ids d adId :
  adId ∈ select_stale b ids d
  ↔ ∃ r, ad_vault d !! adId = Some r ∧ stale b ids (adId, r) = true.
Proof.
  unfold select_stale. rewrite elem_of_dom. unfold is_Some.
  split; intros [r H]; exists r; by apply map_lookup_filter_Some in H || apply map_lookup_filter_Some.
Qed.

Lemma cleanup_spares fails b ids d adId r :
  ad_vault d !! adId = Some r → stale b ids (adId, r) = false →
  ad_vault (fst (cleanup fails b ids d)) !! adId = Some r
  ∧ (∀ b' w, weekly_snapshots (fst (cleanup fails b ids d)) !! (b', adId, w)
             = weekly_snapshots d !! (b', adId, w))
  ∧ brands (fst (cleanup fails b ids d)) = brands d.
Proof.
  intros Hr Hs.
  assert (Hn : adId ∉ select_stale b ids d).
  { rewrite select_stale_spec. intros (r' & Hr' & Hs'). congruence. }
  unfold cleanup, and_then, query, command, execute, ret.
  destruct (fails SelectStale); simpl; [done|].
  case_bool_decide as E; simpl.
  - destruct (fails DeleteStale); simpl; [done|].
    split; [|done]. by apply map_lookup_filter_Some.
  - destruct (fails DeleteSnapshots); simpl; [done|].
    destruct (fails DeleteStale); simpl.
    + split; [done|]. split; [|done]. intros b' w.
      by apply (delete_snapshots_other _ d).
    + split; [by apply map_lookup_filter_Some|]. split; [|done]. intros b' w.
      by apply (delete_snapshots_other _ d).
Qed.

Lemma merge_ad_spares fails rt now b ad d adId :
  adId ≠ Dedup.ad_id ad →
  ad_vault (fst (merge_ad fails rt now b ad d)) !! adId = ad_vault d !! adId
  ∧ (∀ b' w, weekly_snapshots (fst (merge_ad fails rt now b ad d)) !! (b', adId, w)
             = weekly_snapshots d !! (b', adId, w))
  ∧ brands (fst (merge_ad fails rt now b ad d)) = brands d.
Proof.
  intros Hne. split; [by apply merge_ad_frame|].
  unfold merge_ad, and_then, query, command, execute, ret.
  destruct (fails (SelectAd _)); simpl; [done|].
  destruct (ad_vault d !! Dedup.ad_id ad) as [ex|]; simpl.
  - destruct (fails (UpdateAd _)); simpl; [done|].
    destruct (fails (UpsertSnapshot _)); simpl; [done|].
    split; [|done]. intros b' w. rewrite lookup_insert_ne; [done|congruence].
  - destruct (fails (InsertAd _)); simpl; [done|].
    destruct (fails (UpsertSnapshot _)); simpl; [done|].
    split; [|done]. intros b' w. rewrite lookup_insert_ne; [done|congruence].
Qed.

Lemma merge_loop_spares fails rt now b ads : ∀ acc d adId,
  adId ∉ map Dedup.ad_id ads →
  ad_vault (fst (merge_loop fails rt now b ads acc d)) !! adId = ad_vault d !! adId
  ∧ (∀ b' w, weekly_snapshots (fst (merge_loop fails rt now b ads acc d)) !! (b', adId, w)
             = weekly_snapshots d !! (b', adId, w))
  ∧ brands (fst (merge_loop fails rt now b ads acc d)) = brands d.
Proof.
  induction ads as [|ad rest IH]; intros acc d adId Hn; [done|].
  simpl in Hn. apply not_elem_of_cons in Hn as [Hne Hn].
  cbn [merge_loop]. unfold and_then.
  destruct (merge_ad_spares fails rt now b ad d adId Hne) as (M1 & M2 & M3).
  destruct (merge_ad fails rt now b ad d) as [d1 [e|e]]; simpl in *; [|done].
  destruct (IH (acc ++ [e]) d1 adId Hn) as (L1 & L2 & L3).
  rewrite L1, M1, L3, M3. split; [done|]. split; [|done].
  intros b' w. by rewrite L2, M2.
Qed.

(** Whatever the storage does, the reconciliation of a brand leaves every
    stored ad of another brand that is not in the batch, and the snapshot
    rows of that ad, as they were. *)
Theorem other_brands_are_out_of_reach fails rt now b ads d adId r :
  ad_vault d !! adId = Some r → brand_id r ≠ b → adId ∉ map Dedup.ad_id ads →
  let d' := fst (processScrapedAds fails rt now b ads d) in
  ad_vault d' !! adId = Some r
  ∧ ∀ b' w, weekly_snapshots d' !! (b', adId, w) = weekly_snapshots d !! (b', adId, w).
Proof.
  intros Hr Hb Hn.
  set (P := λ d' : db,
         ad_vault d' !! adId = Some r
         ∧ ∀ b' w, weekly_snapshots d' !! (b', adId, w)
                   = weekly_snapshots d !! (b', adId, w)).
  change (P (fst (processScrapedAds fails rt now b ads d))).
  assert (P0 : P d) by done.
  assert (Hs : stale b (map Dedup.ad_id ads) (adId, r) = false).
  { unfold stale; simpl. destruct (Z.eqb_spec (brand_id r) b); done. }
  unfold processScrapedAds, and_then at 1, query at 1, execute at 1.
  destruct (fails SelectBrand); cbn [fst snd]; [done|].
  destruct (brands d !! b) as [ls|]; [|done].
  set (start := if 0 <? Z.of_nat (length (map Dedup.ad_id ads))
                then cleanup fails b (map Dedup.ad_id ads) else ret tt).
  assert (Hstart : P (fst (start d))).
  { subst start. destruct (0 <? _); [|done].
    destruct (cleanup_spares fails b (map Dedup.ad_id ads) d adId r Hr Hs) as (C1 & C2 & _).
    done. }
  unfold and_then at 1. destruct (start d) as [d0 [[]|e]]; cbn [fst] in Hstart; [|done].
  destruct Hstart as [S1 S2].
  unfold and_then at 1.
  destruct (merge_loop_spares fails rt now b ads [] d0 adId Hn) as (L1 & L2 & _).
  assert (P1 : P (fst (merge_loop fails rt now b ads [] d0))).
  { split; [by rewrite L1|]. intros b' w. by rewrite L2. }
  destruct (merge_loop fails rt now b ads [] d0) as [d1 [out|e]]; cbn [fst] in P1; [|done].
  unfold and_then, command, execute, ret. by destruct (fails TouchBrand).
Qed.

Lemma other_brands_are_out_of_reach_witness :
  let d := {| brands := <[2 := None]> (brands Sample.stocked);
              ad_vault := ad_vault Sample.stocked;
              weekly_snapshots := weekly_snapshots Sample.stocked;
              ad_seq := ad_seq Sample.stocked |} in
  ad_vault (fst (processScrapedAds reliable Sample.rt Sample.wednesday 2
                   [Sample.ad_b] d)) !! "old" = Some Sample.row_old.
Proof.
  intros d.
  apply (other_brands_are_out_of_reach reliable Sample.rt Sample.wednesday 2
           [Sample.ad_b] d "old" Sample.row_old);
    [reflexivity|vm_compute; discriminate|].
  apply not_elem_of_cons. split; [discriminate|apply not_elem_of_nil].
Defined.


(** The merges never write the descriptive, the provenance or the analysis
    columns of a stored row. *)
Lemma fold_merged_kept rt now b ads : ∀ d adId r,
  ad_vault d !! adId = Some r →
  ∃ r', ad_vault (fold_left (merged rt now b) ads d) !! adId = Some r'
        ∧ descriptive r' = descriptive r ∧ provenance r' = provenance r
        ∧ legacy_analysis r' = legacy_analysis r ∧ tags r' = tags r.
Proof.
  induction ads as [|ad rest IH]; intros d adId r Hr; simpl.
  - exists r. done.
  - destruct (decide (Dedup.ad_id ad = adId)) as [E|Hne]; [subst adId|].
    + destruct (IH (merged rt now b d ad) (Dedup.ad_id ad) (updated_row now ad r))
        as (r' & H1 & H2); [|by exists r'].
      simpl. unfold merged_row. rewrite Hr. apply lookup_insert_eq.
    + apply (IH (merged rt now b d ad) adId r). simpl. by rewrite lookup_insert_ne.
Qed.

Lemma start_lookup_batch b ads d adId :
  adId ∈ map Dedup.ad_id ads →
  ad_vault (if 0 <? Z.of_nat (length (map Dedup.ad_id ads))
            then cleaned b (map Dedup.ad_id ads) d else d) !! adId
  = ad_vault d !! adId.
Proof.
  intros Hin. destruct (0 <? _); [|done].
  destruct (ad_vault d !! adId) as [r|] eqn:E.
  - apply cleaned_lookup_kept; [done|by apply stale_in_batch].
  - by apply cleaned_lookup_None.
Qed.

(** A stored ad that is scraped again keeps what was stored about it: its
    copy, headline, call to action, start date and link, its row id, its
    brand, its first sighting, its bookmark and all its analysis columns,
    whatever the scraped ad says; its last sighting becomes today. *)
Theorem rescrape_keeps_what_was_stored rt now b ads d ls0 adId r :
  brands d !! b = Some ls0 →
  ad_vault d !! adId = Some r → adId ∈ map Dedup.ad_id ads →
  ∃ r', ad_vault (fst (processScrapedAds reliable rt now b ads d)) !! adId = Some r'
        ∧ descriptive r' = descriptive r ∧ provenance r' = provenance r
        ∧ legacy_analysis r' = legacy_analysis r ∧ tags r' = tags r
        ∧ last_seen r' = Some (day_of now).
Proof.
  intros Hb Hr Hin.
  destruct (processScrapedAds_reliable rt now b ads d ls0 Hb) as [out ->]; simpl.
  pose proof (start_lookup_batch b ads d adId Hin) as Hs. rewrite Hr in Hs.
  destruct (fold_merged_kept rt now b ads _ adId r Hs) as (r' & H1 & K).
  destruct (fold_merged_seen rt now b ads
              (if 0 <? Z.of_nat (length (map Dedup.ad_id ads))
               then cleaned b (map Dedup.ad_id ads) d else d) adId Hin) as (r'' & H2 & Hls).
  rewrite H1 in H2. injection H2 as <-. exists r'.
  destruct K as (K1 & K2 & K3 & K4). by repeat split.
Qed.

Lemma rescrape_keeps_what_was_stored_witness :
  ∃ r', ad_vault (fst (processScrapedAds reliable Sample.rt Sample.next_tuesday 1
                         [Sample.ad_a] Sample.stocked)) !! "a" = Some r'
        ∧ descriptive r' = descriptive Sample.row_a
        ∧ provenance r' = provenance Sample.row_a
        ∧ legacy_analysis r' = legacy_analysis Sample.row_a
        ∧ tags r' = tags Sample.row_a
        ∧ last_seen r' = Some (day_of Sample.next_tuesday).
Proof.
  apply (rescrape_keeps_what_was_stored Sample.rt Sample.next_tuesday 1
           [Sample.ad_a] Sample.stocked None "a" Sample.row_a);
    [reflexivity|reflexivity|].
  apply list_elem_of_singleton. reflexivity.
Defined.

(** *** The snapshot recorder *)

Lemma fold_merged_snapshots_week rt now b ads : ∀ d b' adId w,
  (b', w) ≠ (b, getWeekStart now) →
  weekly_snapshots (fold_left (merged rt now b) ads d) !! (b', adId, w)
  = weekly_snapshots d !! (b', adId, w).
Proof.
  induction ads as [|ad rest IH]; intros d b' adId w Hne; simpl; [done|].
  rewrite IH by done. simpl. rewrite lookup_insert_ne; [done|congruence].
Qed.

Lemma cleaned_snapshots_batch b ads d adId b' w :
  adId ∈ map Dedup.ad_id ads →
  weekly_snapshots (if 0 <? Z.of_nat (length (map Dedup.ad_id ads))
                    then cleaned b (map Dedup.ad_id ads) d else d) !! (b', adId, w)
  = weekly_snapshots d !! (b', adId, w).
Proof.
  intros Hin. destruct (0 <? _); [|done]. unfold cleaned; simpl.
  apply (delete_snapshots_other _ d). rewrite select_stale_spec.
  intros (r & _ & Hs). by rewrite stale_in_batch in Hs.
Qed.

(** After a reconciliation every ad of the batch has a snapshot row for
    the current week, with the rank that the vault holds for it (the rank
    of its last occurrence in the batch); the snapshot rows of the ad for
    other weeks are kept. *)
Theorem snapshot_follows_the_vault rt now b pre ad post d ls0 :
  brands d !! b = Some ls0 →
  Dedup.ad_id ad ∉ map Dedup.ad_id post →
  let d' := fst (processScrapedAds reliable rt now b (pre ++ ad :: post) d) in
  weekly_snapshots d' !! (b, Dedup.ad_id ad, getWeekStart now) = Some (Dedup.rank ad)
  ∧ (∃ r', ad_vault d' !! Dedup.ad_id ad = Some r' ∧ rank r' = Dedup.rank ad)
  ∧ ∀ b' w, (b', w) ≠ (b, getWeekStart now) →
      weekly_snapshots d' !! (b', Dedup.ad_id ad, w)
      = weekly_snapshots d !! (b', Dedup.ad_id ad, w).
Proof.
  intros Hb Hn d'. subst d'.
  destruct (processScrapedAds_reliable rt now b (pre ++ ad :: post) d ls0 Hb) as [out ->].
  cbn [fst touch_brand weekly_snapshots ad_vault].
  set (start := if 0 <? Z.of_nat (length (map Dedup.ad_id (pre ++ ad :: post)))
                then cleaned b (map Dedup.ad_id (pre ++ ad :: post)) d else d).
  split; [|split].
  - rewrite fold_left_app. cbn [fold_left].
    rewrite fold_merged_snapshots_other by done. simpl. apply lookup_insert_eq.
  - rewrite fold_left_app. cbn [fold_left].
    rewrite fold_merged_other by done. simpl. rewrite lookup_insert_eq.
    eexists. split; [done|]. unfold merged_row.
    by destruct (ad_vault _ !! Dedup.ad_id ad).
  - intros b' w Hne. rewrite fold_merged_snapshots_week by done. subst start.
    apply cleaned_snapshots_batch. rewrite map_app, elem_of_app. right.
    simpl. apply elem_of_cons. by left.
Qed.

Lemma snapshot_follows_the_vault_witness :
  let d' := fst (processScrapedAds reliable Sample.rt Sample.wednesday 1
                   ([Sample.ad_a] ++ Sample.ad_b :: []) Sample.stocked) in
  weekly_snapshots d' !! (1, "b", getWeekStart Sample.wednesday) = Some 2
  ∧ ∃ r', ad_vault d' !! "b" = Some r' ∧ rank r' = 2.
Proof.
  intros d'.
  destruct (snapshot_follows_the_vault Sample.rt Sample.wednesday 1
              [Sample.ad_a] Sample.ad_b [] Sample.stocked None eq_refl) as (H1 & H2 & _).
  { apply not_elem_of_nil. }
  split; [exact H1|exact H2].
Defined.


(** *** References to the [brands] table *)

Lemma referential_sub d d' :
  referential d → brands d' = brands d →
  (∀ adId r, ad_vault d' !! adId = Some r →
     ad_vault d !! adId = Some r ∨ is_Some (brands d !! brand_id r)) →
  (∀ b adId w rk, weekly_snapshots d' !! (b, adId, w) = Some rk →
     weekly_snapshots d !! (b, adId, w) = Some rk ∨ is_Some (brands d !! b)) →
  referential d'.
Proof.
  intros [R1 R2] Hb Ha Hw. split.
  - intros adId r H. rewrite Hb. destruct (Ha _ _ H) as [H'|H']; [by eapply R1|done].
  - intros b adId w rk H. rewrite Hb. destruct (Hw _ _ _ _ H) as [H'|H']; [by eapply R2|done].
Qed.

Lemma cleanup_referential fails b ids d :
  referential d →
  referential (fst (cleanup fails b ids d)) ∧ brands (fst (cleanup fails b ids d)) = brands d.
Proof.
  intros R.
  assert (F1 : ∀ d0 S, referential d0 → referential (delete_snapshots S d0)).
  { intros d0 S R0. apply (referential_sub d0); [done|done|by left|].
    intros b0 adId w rk H. left. unfold delete_snapshots in H; simpl in H.
    by apply map_lookup_filter_Some in H as [H _]. }
  assert (F2 : ∀ d0, referential d0 → referential (delete_stale b ids d0)).
  { intros d0 R0. apply (referential_sub d0); [done|done| |by left].
    intros adId r H. left. unfold delete_stale in H; simpl in H.
    by apply map_lookup_filter_Some in H as [H _]. }
  unfold cleanup, and_then, query, command, execute, ret.
  destruct (fails SelectStale); simpl; [done|].
  case_bool_decide as E; simpl.
  - destruct (fails DeleteStale); simpl; [done|]. split; [by apply F2|done].
  - destruct (fails DeleteSnapshots); simpl; [done|].
    destruct (fails DeleteStale); simpl; [split; [by apply F1|done]|].
    split; [|done]. apply F2. by apply F1.
Qed.

Lemma merge_ad_referential fails rt now b ad d :
  referential d → is_Some (brands d !! b) →
  referential (fst (merge_ad fails rt now b ad d))
  ∧ brands (fst (merge_ad fails rt now b ad d)) = brands d.
Proof.
  intros R Hb.
  assert (F1 : ∀ d0 row, referential d0 → is_Some (brands d0 !! brand_id row) →
                 referential (put_ad (Dedup.ad_id ad) row d0)).
  { intros d0 row R0 Hrow. apply (referential_sub d0); [done|done| |by left].
    intros adId r H. simpl in H. apply lookup_insert_Some in H as [[_ <-]|[_ H]]; [by right|by left]. }
  assert (F2 : ∀ d0, referential d0 → brands d0 = brands d →
                 referential (upsert_snapshot b (Dedup.ad_id ad) (getWeekStart now)
                                (Dedup.rank ad) d0)).
  { intros d0 R0 E0. apply (referential_sub d0); [done|done|by left|].
    intros b0 adId w rk H. simpl in H.
    apply lookup_insert_Some in H as [[[= <- _ _] _]|[_ H]]; [right; by rewrite E0|by left]. }
  unfold merge_ad, and_then, query, command, execute, ret.
  destruct (fails (SelectAd _)); simpl; [done|].
  destruct (ad_vault d !! Dedup.ad_id ad) as [ex|] eqn:Eex; simpl.
  - assert (R1 : referential (put_ad (Dedup.ad_id ad) (updated_row now ad ex) d)).
    { apply F1; [done|]. simpl. destruct R as [R _]. by eapply R. }
    destruct (fails (UpdateAd _)); simpl; [done|].
    destruct (fails (UpsertSnapshot _)); simpl; [done|].
    split; [|done]. by apply (F2 (put_ad _ _ d)).
  - assert (R1 : referential
             (put_ad (Dedup.ad_id ad) (inserted_row rt now b ad (ad_seq d + 1)) d))
      by (by apply F1).
    assert (R1' : referential (fst (insert_ad (Dedup.ad_id ad) (inserted_row rt now b ad) d))).
    { destruct R1 as [A B]. split; [exact A|exact B]. }
    destruct (fails (InsertAd _)); simpl; [done|].
    destruct (fails (UpsertSnapshot _)); simpl; [done|].
    split; [|done]. by apply (F2 (fst (insert_ad _ _ d))).
Qed.

Lemma merge_loop_referential fails rt now b ads : ∀ acc d,
  referential d → is_Some (brands d !! b) →
  referential (fst (merge_loop fails rt now b ads acc d))
  ∧ brands (fst (merge_loop fails rt now b ads acc d)) = brands d.
Proof.
  induction ads as [|ad rest IH]; intros acc d R Hb; [done|].
  cbn [merge_loop]. unfold and_then.
  destruct (merge_ad_referential fails rt now b ad d R Hb) as [R1 B1].
  destruct (merge_ad fails rt now b ad d) as [d1 [e|e]]; simpl in *; [|done].
  destruct (IH (acc ++ [e]) d1 R1) as [R2 B2]; [by rewrite B1|].
  split; [done|]. by rewrite B2.
Qed.

Lemma touch_brand_referential now b d : referential d → referential (touch_brand now b d).
Proof.
  intros [R1 R2]. split.
  - intros adId r H. simpl in *. apply lookup_alter_is_Some. by eapply R1.
  - intros b0 adId w rk H. simpl in *. apply lookup_alter_is_Some. by eapply R2.
Qed.

Lemma processScrapedAds_referential fails rt now b ads d :
  referential d → referential (fst (processScrapedAds fails rt now b ads d)).
Proof.
  intros R. unfold processScrapedAds, and_then at 1, query at 1, execute at 1.
  destruct (fails SelectBrand); cbn [fst snd]; [done|].
  destruct (brands d !! b) as [ls|] eqn:Hb; [|done].
  set (start := if 0 <? Z.of_nat (length (map Dedup.ad_id ads))
                then cleanup fails b (map Dedup.ad_id ads) else ret tt).
  assert (Hstart : referential (fst (start d)) ∧ brands (fst (start d)) = brands d).
  { subst start. destruct (0 <? _); [by apply cleanup_referential|done]. }
  unfold and_then at 1. destruct (start d) as [d0 [[]|e]]; cbn [fst] in Hstart; [|tauto].
  destruct Hstart as [R0 B0].
  unfold and_then at 1.
  destruct (merge_loop_referential fails rt now b ads [] d0 R0) as [R1 B1].
  { rewrite B0, Hb. by eexists. }
  destruct (merge_loop fails rt now b ads [] d0) as [d1 [out|e]]; cbn [fst] in *; [|done].
  unfold and_then, command, execute, ret.
  destruct (fails TouchBrand); cbn [fst]; [done|]. by apply touch_brand_referential.
Qed.

Lemma store_scheduled_referential fails now b ads : ∀ d,
  referential d → is_Some (brands d !! b) →
  referential (fst (store_scheduled fails now b ads d)).
Proof.
  induction ads as [|ad rest IH]; intros d R Hb; [done|].
  cbn [store_scheduled]. unfold and_then.
  assert (R1 : referential (fst (store_scheduled_ad fails now b ad d))
               ∧ brands (fst (store_scheduled_ad fails now b ad d)) = brands d).
  { unfold store_scheduled_ad, ignoring_errors. cbn [fst].
    destruct (forallb _ _); [|done]. unfold execute.
    destruct (fails _); cbn [fst]; [done|]. split; [|done].
    apply (referential_sub d); [done|done| |by left].
    intros adId r H. simpl in H.
    apply lookup_insert_Some in H as [[_ <-]|[_ H]]; [by right|by left]. }
  destruct R1 as [R1 B1].
  destruct (store_scheduled_ad fails now b ad d) as [d1 [[]|e]] eqn:E; cbn [fst] in *.
  - apply IH; [done|by rewrite B1].
  - unfold store_scheduled_ad, ignoring_errors in E. discriminate.
Qed.

Lemma analyze_each_referential fails provider now l : ∀ d,
  referential d → referential (fst (analyze_each fails provider now l d)).
Proof.
  induction l as [|[k ad] rest IH]; intros d R; [done|].
  cbn [analyze_each]. unfold and_then, ignoring_errors. cbn [fst snd].
  apply IH. unfold write_tags.
  destruct (text_cell _); [|done]. destruct (text_cell _); [|done].
  destruct (text_cell _); [|done]. destruct (text_cell _); [|done].
  destruct (text_cell _); [|done].
  unfold command, execute. destruct (fails _); cbn [fst]; [done|].
  apply (referential_sub d); [done|done| |by left].
  intros adId r H. simpl in H. rewrite lookup_alter in H. case_decide.
  - subst adId. destruct (ad_vault d !! k) as [r0|] eqn:E0; [|done].
    simpl in H. injection H as <-. right. simpl. destruct R as [R _]. by eapply R.
  - by left.
Qed.

(** Whatever the storage does, the three write paths keep every stored ad
    and every snapshot row attached to a brand of the [brands] table. *)
Theorem write_paths_keep_the_references fails rt provider now b ads d :
  referential d →
  referential (fst (processScrapedAds fails rt now b ads d))
  ∧ (is_Some (brands d !! b) → referential (fst (store_scheduled fails now b ads d)))
  ∧ referential (fst (runBatchAnalysis fails provider now d)).
Proof.
  intros R. split; [by apply processScrapedAds_referential|]. split.
  - intros Hb. by apply store_scheduled_referential.
  - unfold runBatchAnalysis, and_then, query, execute.
    destruct (fails SelectUnanalyzed); cbn [fst snd]; [done|].
    by apply analyze_each_referential.
Qed.


Lemma stocked_referential : referential Sample.stocked.
Proof.
  split.
  - intros adId r H. simpl in H.
    repeat (apply lookup_insert_Some in H as [[_ <-]|[_ H]]; [by eexists|]).
    apply lookup_singleton_Some in H as [_ <-]. by eexists.
  - intros b adId w rk H. simpl in H.
    repeat (apply lookup_insert_Some in H as [[[= <- _ _] _]|[_ H]]; [by eexists|]).
    apply lookup_singleton_Some in H as [[= <- _ _] _]. by eexists.
Qed.

Lemma write_paths_keep_the_references_witness :
  referential Sample.stocked
  ∧ referential (fst (processScrapedAds Sample.rejects_b Sample.rt Sample.wednesday 1
                        [Sample.ad_a; Sample.ad_b] Sample.stocked)).
Proof.
  split; [exact stocked_referential|].
  exact (proj1 (write_paths_keep_the_references Sample.rejects_b Sample.rt
                  Sample.provider Sample.wednesday 1 [Sample.ad_a; Sample.ad_b]
                  Sample.stocked stocked_referential)).
Defined.

(** *** The store of the scheduled scrape *)

Lemma store_scheduled_ad_frame fails now b ad d :
  snd (store_scheduled_ad fails now b ad d) = Ok tt
  ∧ weekly_snapshots (fst (store_scheduled_ad fails now b ad d)) = weekly_snapshots d
  ∧ brands (fst (store_scheduled_ad fails now b ad d)) = brands d
  ∧ (∀ k, is_Some (ad_vault d !! k) →
          is_Some (ad_vault (fst (store_scheduled_ad fails now b ad d)) !! k))
  ∧ (∀ k, k ≠ Dedup.ad_id ad →
          ad_vault (fst (store_scheduled_ad fails now b ad d)) !! k = ad_vault d !! k).
Proof.
  unfold store_scheduled_ad, ignoring_errors. cbn [fst snd]. split; [done|].
  destruct (forallb _ _); [|done]. unfold execute.
  destruct (fails _); cbn [fst]; [done|]. simpl.
  split; [done|]. split; [done|]. split.
  - intros k Hk. destruct (decide (Dedup.ad_id ad = k)) as [<-|Hne].
    + rewrite lookup_insert_eq. by eexists.
    + by rewrite lookup_insert_ne.
  - intros k Hne. by rewrite lookup_insert_ne.
Qed.

(** Whatever the storage does, the store of the scheduled scrape does not
    throw, deletes no stored ad, leaves the ads that are not in the batch
    as they were, writes no snapshot row and does not stamp the brand. *)
Theorem scheduled_store_only_adds fails now b ads d :
  let run := store_scheduled fails now b ads d in
  snd run = Ok tt
  ∧ weekly_snapshots (fst run) = weekly_snapshots d
  ∧ brands (fst run) = brands d
  ∧ (∀ k, is_Some (ad_vault d !! k) → is_Some (ad_vault (fst run) !! k))
  ∧ (∀ k, k ∉ map Dedup.ad_id ads → ad_vault (fst run) !! k = ad_vault d !! k).
Proof.
  revert d. induction ads as [|ad rest IH]; intros d; [done|].
  cbn [store_scheduled]. unfold and_then. cbn zeta.
  destruct (store_scheduled_ad_frame fails now b ad d) as (F0 & F1 & F2 & F3 & F4).
  destruct (store_scheduled_ad fails now b ad d) as [d1 [[]|e]]; cbn [fst snd] in *;
    [|discriminate].
  destruct (IH d1) as (I0 & I1 & I2 & I3 & I4).
  split; [done|]. split; [by rewrite I1|]. split; [by rewrite I2|]. split.
  - intros k Hk. by apply I3, F3.
  - intros k Hk. simpl in Hk. apply not_elem_of_cons in Hk as [Hne Hk].
    rewrite I4 by done. by apply F4.
Qed.

Lemma storable_write now b ad d :
  storable ad = true →
  store_scheduled_ad reliable now b ad d = (fst (replace_ad now b ad d), Ok tt).
Proof.
  intros Hs. unfold store_scheduled_ad, ignoring_errors. unfold storable in Hs.
  rewrite Hs. unfold execute, reliable. by destruct (replace_ad now b ad d).
Qed.

Lemma store_scheduled_reset now b ads : ∀ d k r,
  Forall (λ ad, storable ad = true) ads →
  ad_vault d !! k = Some r → reset now b r →
  ∃ r', ad_vault (fst (store_scheduled reliable now b ads d)) !! k = Some r'
        ∧ reset now b r'.
Proof.
  induction ads as [|ad rest IH]; intros d k r Hall Hr Hres; [by exists r|].
  apply Forall_cons in Hall as [Hs Hall].
  cbn [store_scheduled]. unfold and_then. rewrite storable_write by done.
  destruct (decide (Dedup.ad_id ad = k)) as [<-|Hne].
  - eapply IH; [done| |]; [simpl; apply lookup_insert_eq|]. done.
  - eapply IH; [done| |exact Hres]. simpl. by rewrite lookup_insert_ne.
Qed.


(** On reliable storage the scheduled store leaves every ad of its batch
    not bookmarked and without any analysis, under the brand of the
    scrape, whatever the stored row was: a bookmark and the tags of an ad
    that is seen again are lost. *)
Theorem scheduled_store_resets_what_it_sees now b ads d ad :
  Forall (λ ad, storable ad = true) ads → ad ∈ ads →
  ∃ r', ad_vault (fst (store_scheduled reliable now b ads d)) !! Dedup.ad_id ad = Some r'
        ∧ reset now b r'.
Proof.
  revert d. induction ads as [|a rest IH]; intros d Hall Hin.
  - by apply elem_of_nil in Hin.
  - pose proof Hall as Hall'. apply Forall_cons in Hall' as [Hs Hrest].
    cbn [store_scheduled]. unfold and_then. rewrite storable_write by done.
    apply elem_of_cons in Hin as [->|Hin]; [|by apply IH].
    eapply store_scheduled_reset; [done| |].
    + simpl. apply lookup_insert_eq.
    + by repeat split.
Qed.

Lemma scheduled_store_resets_what_it_sees_witness :
  bookmarked Sample.row_fav = Some 1
  ∧ ∃ r', ad_vault (fst (store_scheduled reliable Sample.wednesday 1
                           [Sample.canonical "fav" 1] Sample.stocked)) !! "fav" = Some r'
          ∧ reset Sample.wednesday 1 r'.
Proof.
  split; [reflexivity|].
  apply (scheduled_store_resets_what_it_sees Sample.wednesday 1
           [Sample.canonical "fav" 1] Sample.stocked (Sample.canonical "fav" 1)).
  - repeat constructor.
  - apply list_elem_of_singleton. reflexivity.
Defined.

(** *** The batch analysis *)

Lemma write_tags_untagged fails now adId a d k :
  untagged_part <$> ad_vault (fst (write_tags fails now adId a d)) !! k
  = untagged_part <$> ad_vault d !! k.
Proof.
  unfold write_tags.
  destruct (text_cell _); [|done]. destruct (text_cell _); [|done].
  destruct (text_cell _); [|done]. destruct (text_cell _); [|done].
  destruct (text_cell _); [|done].
  unfold command, execute. destruct (fails _); cbn [fst]; [done|]. simpl.
  rewrite lookup_alter. case_decide; [subst k|done].
  by destruct (ad_vault d !! adId).
Qed.

Lemma analyze_each_untagged fails provider now l : ∀ d k,
  untagged_part <$> ad_vault (fst (analyze_each fails provider now l d)) !! k
  = untagged_part <$> ad_vault d !! k.
Proof.
  induction l as [|[k0 ad] rest IH]; intros d k; [done|].
  cbn [analyze_each]. unfold and_then, ignoring_errors. cbn [fst snd].
  rewrite IH. apply write_tags_untagged.
Qed.

Lemma analyze_each_frame fails provider now l : ∀ d,
  snd (analyze_each fails provider now l d) = Ok tt
  ∧ brands (fst (analyze_each fails provider now l d)) = brands d
  ∧ weekly_snapshots (fst (analyze_each fails provider now l d)) = weekly_snapshots d.
Proof.
  induction l as [|[k0 ad] rest IH]; intros d; [done|].
  cbn [analyze_each]. unfold and_then, ignoring_errors. cbn [fst snd].
  destruct (IH (fst (write_tags fails now k0 (analyzeAdCreative provider ad) d)))
    as (I0 & I1 & I2).
  rewrite I0, I1, I2. split; [done|]. unfold write_tags.
  destruct (text_cell _); [|done]. destruct (text_cell _); [|done].
  destruct (text_cell _); [|done]. destruct (text_cell _); [|done].
  destruct (text_cell _); [|done].
  unfold command, execute. by destruct (fails _).
Qed.


Lemma unanalyzed_not_tagged ad : unanalyzed ad = true → has_all_tags ad = false.
Proof.
  unfold unanalyzed, has_all_tags, present.
  destruct (ai_asset_type ad) as [s|]; [|done]. intros ->. done.
Qed.

Lemma write_tags_answers provider now k ad d :
  answers provider → has_all_tags ad = false →
  ∀ r', ad_vault (fst (write_tags reliable now k (analyzeAdCreative provider ad) d)) !! k
        = Some r' → unanalyzed r' = false.
Proof.
  intros Ha Hn r'. unfold analyzeAdCreative. rewrite Hn.
  destruct (Ha ad) as (a & b & c & e & f & H1 & Hne & H2 & H3 & H4 & H5).
  unfold write_tags. rewrite H1, H2, H3, H4, H5.
  unfold command, execute, reliable. cbn [fst]. simpl.
  rewrite lookup_alter_eq. destruct (ad_vault d !! k); [|done]. simpl.
  intros [= <-]. unfold unanalyzed. simpl. by destruct (String.eqb_spec a "").
Qed.

Lemma analyze_each_done provider now l : ∀ d,
  answers provider → Forall (λ kv, has_all_tags (snd kv) = false) l →
  ∀ k r', k ∈ l.*1 →
    ad_vault (fst (analyze_each reliable provider now l d)) !! k = Some r' →
    unanalyzed r' = false.
Proof.
  induction l as [|[k0 ad] rest IH]; intros d Ha Hall k r' Hin Hr.
  - by apply elem_of_nil in Hin.
  - apply Forall_cons in Hall as [Hn Hall]. simpl in Hn.
    cbn [analyze_each] in Hr. unfold and_then, ignoring_errors in Hr. cbn [fst snd] in Hr.
    destruct (decide (k ∈ rest.*1)) as [Hk|Hk]; [by eapply IH|].
    rewrite fmap_cons in Hin. apply elem_of_cons in Hin as [->|Hin]; [|done].
    rewrite analyze_each_other in Hr by done. simpl in Hr.
    by eapply write_tags_answers.
Qed.

(** On reliable storage, with a provider that answers every ad, the batch
    analysis leaves no ad that the next selection would pick again. *)
Theorem batch_analysis_leaves_nothing_unanalyzed provider now d :
  answers provider →
  ∀ k r', ad_vault (fst (runBatchAnalysis reliable provider now d)) !! k = Some r' →
          unanalyzed r' = false.
Proof.
  intros Ha k r'. unfold runBatchAnalysis, and_then, query, execute, reliable.
  cbn [fst snd].
  set (l := map_to_list (filter (λ kv, unanalyzed (snd kv) = true) (ad_vault d))).
  intros Hr. destruct (decide (k ∈ l.*1)) as [Hk|Hk].
  - eapply (analyze_each_done provider now l d Ha); [|exact Hk|exact Hr].
    apply Forall_forall. intros [k1 r1] H1. subst l.
    apply elem_of_map_to_list in H1. apply map_lookup_filter_Some in H1 as [_ H1].
    simpl in *. by apply unanalyzed_not_tagged.
  - change (λ _ : stmt, false) with reliable in Hr.
    rewrite analyze_each_other in Hr by done.
    destruct (unanalyzed r') eqn:Hu; [|done]. exfalso. apply Hk.
    apply list_elem_of_fmap. exists (k, r'). split; [done|]. subst l.
    apply elem_of_map_to_list. by apply map_lookup_filter_Some.
Qed.

Lemma sample_provider_answers : answers Sample.provider.
Proof. intros ad. by eexists _, _, _, _, _. Qed.

Lemma batch_analysis_leaves_nothing_unanalyzed_witness :
  answers Sample.provider
  ∧ ∀ k r', ad_vault (fst (runBatchAnalysis reliable Sample.provider Sample.wednesday
                             Sample.stocked)) !! k = Some r' →
            unanalyzed r' = false.
Proof.
  split; [exact sample_provider_answers|].
  exact (batch_analysis_leaves_nothing_unanalyzed Sample.provider Sample.wednesday
           Sample.stocked sample_provider_answers).
Defined.


(** *** The report of the Reconciler *)

Lemma merge_ad_entry rt now b ad d :
  merge_ad reliable rt now b ad d = (merged rt now b d ad, Ok (entry now d ad)).
Proof.
  unfold merge_ad, merged, merged_row, entry, and_then, query, command, execute, ret,
    reliable; simpl.
  destruct (ad_vault d !! Dedup.ad_id ad) as [ex|] eqn:E; simpl; reflexivity.
Qed.

Lemma merge_loop_entries rt now b ads : ∀ acc d,
  ∃ out, merge_loop reliable rt now b ads acc d
         = (fold_left (merged rt now b) ads d, Ok (acc ++ out))
    ∧ length out = length ads
    ∧ ∀ i p, out !! i = Some p →
        ∃ ad, ads !! i = Some ad
              ∧ p = entry now (fold_left (merged rt now b) (take i ads) d) ad.
Proof.
  induction ads as [|ad rest IH]; intros acc d.
  - exists []. rewrite app_nil_r. split; [done|]. split; [done|].
    intros i p H. by rewrite lookup_nil in H.
  - cbn [merge_loop]. unfold and_then. rewrite merge_ad_entry.
    destruct (IH (acc ++ [entry now d ad]) (merged rt now b d ad)) as (out & E & L & Hout).
    exists (entry now d ad :: out). rewrite E. split.
    { simpl. by rewrite <- app_assoc. }
    split; [simpl; by rewrite L|].
    intros [|i] p Hp; simpl in Hp.
    + injection Hp as <-. exists ad. done.
    + destruct (Hout i p Hp) as (ad' & H1 & H2). exists ad'. done.
Qed.

Lemma fold_merged_absent rt now b ads : ∀ d k,
  ad_vault (fold_left (merged rt now b) ads d) !! k = None
  ↔ ad_vault d !! k = None ∧ k ∉ map Dedup.ad_id ads.
Proof.
  induction ads as [|ad rest IH]; intros d k; simpl.
  - split; [intros H; split; [done|apply not_elem_of_nil]|tauto].
  - rewrite IH. simpl. rewrite lookup_insert_None, not_elem_of_cons.
    intuition congruence.
Qed.

Lemma processScrapedAds_report_length rt now b ads d ls0 :
  brands d !! b = Some ls0 →
  ∃ d' out, processScrapedAds reliable rt now b ads d = (d', Ok out)
            ∧ length out = length ads.
Proof.
  intros Hb. unfold processScrapedAds, and_then at 1, query at 1, execute at 1.
  unfold reliable at 1. cbn [fst snd]. rewrite Hb.
  set (start := if 0 <? Z.of_nat (length (map Dedup.ad_id ads))
                then cleaned b (map Dedup.ad_id ads) d else d).
  assert (Hc : (if 0 <? Z.of_nat (length (map Dedup.ad_id ads))
                then cleanup reliable b (map Dedup.ad_id ads) else ret tt) d
               = (start, Ok tt)).
  { subst start. destruct (0 <? _); [apply cleanup_reliable|done]. }
  unfold and_then at 1. rewrite Hc.
  destruct (merge_loop_entries rt now b ads [] start) as (out & E & L & _).
  unfold and_then at 1. rewrite E. cbn [app].
  eexists _, out. split; [reflexivity|done].
Qed.

(** On reliable storage and for a registered brand the report lists the
    ads of the batch once each and in the order of the batch; an entry is
    flagged new exactly when its [ad_id] was not stored before the run and
    does not occur earlier in the batch. *)
Theorem report_lists_the_batch rt now b ads d ls0 :
  brands d !! b = Some ls0 →
  ∃ out, snd (processScrapedAds reliable rt now b ads d) = Ok out
    ∧ map processed_id out = map Dedup.ad_id ads
    ∧ ∀ i p ad, out !! i = Some p → ads !! i = Some ad →
        (isNew p = true
         ↔ ad_vault d !! Dedup.ad_id ad = None
           ∧ Dedup.ad_id ad ∉ map Dedup.ad_id (take i ads)).
Proof.
  intros Hb. unfold processScrapedAds, and_then at 1, query at 1, execute at 1.
  unfold reliable at 1. cbn [fst snd]. rewrite Hb.
  set (start := if 0 <? Z.of_nat (length (map Dedup.ad_id ads))
                then cleaned b (map Dedup.ad_id ads) d else d).
  assert (Hc : (if 0 <? Z.of_nat (length (map Dedup.ad_id ads))
                then cleanup reliable b (map Dedup.ad_id ads) else ret tt) d
               = (start, Ok tt)).
  { subst start. destruct (0 <? _); [apply cleanup_reliable|done]. }
  unfold and_then at 1. rewrite Hc.
  destruct (merge_loop_entries rt now b ads [] start) as (out & E & L & Hout).
  unfold and_then at 1. rewrite E. cbn [app].
  unfold and_then, command, execute, ret, reliable. cbn [fst snd].
  exists out. split; [done|].
  assert (Hent : ∀ i p ad, out !! i = Some p → ads !! i = Some ad →
            p = entry now (fold_left (merged rt now b) (take i ads) start) ad).
  { intros i p ad Hp Had. destruct (Hout i p Hp) as (ad' & H1 & H2). congruence. }
  split.
  - apply list_eq. intros i. rewrite !list_lookup_fmap.
    destruct (out !! i) as [p|] eqn:Hp.
    + destruct (Hout i p Hp) as (ad & H1 & ->). rewrite H1. simpl. f_equal.
      unfold entry. by destruct (ad_vault _ !! Dedup.ad_id ad).
    + apply lookup_ge_None in Hp. rewrite L in Hp.
      apply lookup_ge_None in Hp. by rewrite Hp.
  - intros i p ad Hp Had. rewrite (Hent i p ad Hp Had).
    assert (Hin : Dedup.ad_id ad ∈ map Dedup.ad_id ads).
    { apply list_elem_of_fmap. exists ad. split; [done|]. by eapply list_elem_of_lookup_2. }
    pose proof (start_lookup_batch b ads d (Dedup.ad_id ad) Hin) as Hs. fold start in Hs.
    unfold entry.
    destruct (ad_vault (fold_left (merged rt now b) (take i ads) start) !! Dedup.ad_id ad)
      as [ex|] eqn:Ex.
    + simpl. split; [done|]. intros [H1 H2]. exfalso.
      assert (Hnone : ad_vault (fold_left (merged rt now b) (take i ads) start)
                        !! Dedup.ad_id ad = None).
      { apply fold_merged_absent. by rewrite Hs. }
      congruence.
    + simpl. split; [|done]. intros _.
      apply fold_merged_absent in Ex as [E1 E2]. by rewrite Hs in E1.
Qed.

Lemma report_lists_the_batch_witness :
  ∃ out, snd (processScrapedAds reliable Sample.rt Sample.wednesday 1
                [Sample.ad_a; Sample.ad_b] Sample.stocked) = Ok out
    ∧ map processed_id out = ["a"; "b"]%string.
Proof.
  destruct (report_lists_the_batch Sample.rt Sample.wednesday 1
              [Sample.ad_a; Sample.ad_b] Sample.stocked None eq_refl)
    as (out & H1 & H2 & _).
  exists out. split; [exact H1|exact H2].
Defined.

End LedgerFacts.

(** ** Properties of the schedule settings *)

Module SettingsFacts.
Import Effect Settings.

Lemma getSetting_reliable key dflt (t : gmap string (option string)) :
  getSetting reliable key dflt t
  = (t, Ok (match t !! key with
            | Some cell => Vault.cell_value cell
            | None => dflt
            end)).
Proof. reflexivity. Qed.

Lemma getScheduleSettings_reliable (t : gmap string (option string)) :
  getScheduleSettings reliable t
  = (t, Ok {| enabled := is_true_text (default (VStr "false")
                                         (Vault.cell_value <$> t !! "schedule_enabled"));
              day := default (VStr "1") (Vault.cell_value <$> t !! "schedule_day");
              hour := default (VStr "6") (Vault.cell_value <$> t !! "schedule_hour");
              autoAnalyze := is_true_text (default (VStr "false")
                                             (Vault.cell_value <$> t !! "auto_analyze")) |}).
Proof.
  unfold getScheduleSettings, and_then. rewrite !getSetting_reliable. unfold ret.
  destruct (t !! "schedule_enabled"), (t !! "schedule_day"),
    (t !! "schedule_hour"), (t !! "auto_analyze"); reflexivity.
Qed.



End SettingsFacts.

(** ** Properties of the page identifiers *)

Module PageIdFacts.
Import PageIds Feed FeedFacts.

Lemma clash_app lit s t : clash lit s = true → strip_prefix lit (s +:+ t) = None.
Proof.
  revert s. induction lit as [|a lit IH]; intros s H; [done|].
  destruct s as [|b s]; [done|]. simpl in *.
  destruct (Ascii.eqb a b); [by apply IH|done].
Qed.

Lemma match_here_clash lit close s t :
  clash lit s = true → match_here lit close (s +:+ t) = None.
Proof. intros H. unfold match_here. by rewrite clash_app. Qed.

(** A stretch in which the literal cannot start is skipped. *)
Lemma search_skip lit close pre s :
  clash_everywhere lit pre = true →
  search lit close (pre +:+ s) = search lit close s.
Proof.
  induction pre as [|c pre IH]; intros H; [done|].
  simpl in H. apply andb_true_iff in H as [H1 H2].
  change (String c pre +:+ s) with (String c (pre +:+ s)).
  cbn [search].
  change (String c (pre +:+ s)) with (String c pre +:+ s) at 1.
  rewrite match_here_clash by done. by apply IH.
Qed.

Lemma strip_prefix_app lit s : strip_prefix lit (lit +:+ s) = Some s.
Proof. induction lit as [|a lit IH]; [done|]. simpl. by rewrite Ascii.eqb_refl. Qed.

Lemma search_here lit close s m :
  match_here lit close s = Some m → search lit close s = Some m.
Proof. intros H. destruct s; simpl; by rewrite H. Qed.

Lemma span_fst_all p s : all_chars p (fst (span p s)) = true.
Proof.
  induction s as [|c s IH]; [done|]. simpl.
  destruct (p c) eqn:E; [|done]. destruct (span p s). simpl in *. by rewrite E.
Qed.

(** What a search gives is a run of digits that is not empty. *)
Lemma match_here_digits lit close s m :
  match_here lit close s = Some m → all_chars is_digit m = true ∧ m ≠ "".
Proof.
  unfold match_here. destruct (strip_prefix lit s) as [r|]; [|done].
  pose proof (span_fst_all is_digit r) as Hd.
  destruct (span is_digit r) as [digits r']. simpl in Hd.
  destruct (String.eqb_spec digits ""); simpl; [done|].
  destruct (bool_decide _); [|done]. by intros [= <-].
Qed.

Lemma search_digits lit close s m :
  search lit close s = Some m → all_chars is_digit m = true ∧ m ≠ "".
Proof.
  induction s as [|c s IH]; simpl.
  - destruct (match_here lit close "") eqn:E; [|done].
    intros [= <-]. by eapply match_here_digits.
  - destruct (match_here lit close (String c s)) eqn:E; [|done].
    intros [= <-]. by eapply match_here_digits.
Qed.

Lemma append_nil_r (s : string) : s +:+ "" = s.
Proof.
  induction s as [|c s IH]; [done|].
  change (String c (s +:+ "") = String c s). by rewrite IH.
Qed.

Lemma pageIdMatch_builds (pre p : string) :
  clash_everywhere "view_all_page_id=" pre = true →
  all_chars is_digit p = true → p ≠ "" →
  pageIdMatch (VStr (pre +:+ "view_all_page_id=" +:+ p)) = Ok (Some p).
Proof.
  intros Hpre Hd Hne. unfold pageIdMatch. f_equal.
  rewrite search_skip by done. apply search_here. unfold match_here.
  rewrite strip_prefix_app.
  rewrite <- (append_nil_r p) at 1.
  rewrite (span_all is_digit p "") by (try done; by left).
  destruct (String.eqb_spec p ""); [done|]. simpl. done.
Qed.

Lemma built_address_matches (p : string) :
  all_chars is_digit p = true → p ≠ "" →
  pageIdMatch (VStr (buildAdLibraryUrl (VStr p))) = Ok (Some p).
Proof.
  intros Hd Hne.
  apply (pageIdMatch_builds
    "https://www.facebook.com/ads/library/?active_status=active&ad_type=all&country=US&media_type=all&search_type=page&sort_data[direction]=desc&sort_data[mode]=total_impressions&");
    [vm_compute; reflexivity|done|done].
Qed.

Lemma imported_address_matches (p : string) :
  all_chars is_digit p = true → p ≠ "" →
  pageIdMatch (VStr (importedAdLibraryUrl (VStr p))) = Ok (Some p).
Proof.
  intros Hd Hne.
  apply (pageIdMatch_builds
    "https://www.facebook.com/ads/library/?active_status=active&ad_type=all&country=US&is_targeted_country=false&media_type=all&search_type=page&sort_data[direction]=desc&sort_data[mode]=total_impressions&");
    [vm_compute; reflexivity|done|done].
Qed.

(** The address that [buildAdLibraryUrl] makes for a page identifier, and
    the one that the CSV import stores, give the identifier back to the
    pattern of [POST /api/brands]. *)
Theorem ad_library_address_round_trip (p : string) :
  all_chars is_digit p = true → p ≠ "" →
  pageIdMatch (VStr (buildAdLibraryUrl (VStr p))) = Ok (Some p)
  ∧ pageIdMatch (VStr (importedAdLibraryUrl (VStr p))) = Ok (Some p).
Proof.
  intros Hd Hne. split; [by apply built_address_matches|by apply imported_address_matches].
Qed.

Lemma ad_library_address_round_trip_witness :
  pageIdMatch (VStr (buildAdLibraryUrl (VStr "269498423082199")))
  = Ok (Some "269498423082199"%string).
Proof.
  apply (ad_library_address_round_trip "269498423082199"); [reflexivity|discriminate].
Defined.

Lemma first_match_digits ps html m :
  first_match ps html = Some m → all_chars is_digit m = true ∧ m ≠ "".
Proof.
  induction ps as [|[lit close] ps IH]; simpl; [done|].
  destruct (search lit close html) eqn:E; [|done].
  intros [= <-]. by eapply search_digits.
Qed.

(** [resolvePageId] gives [null] or a run of digits that is not empty, and
    never throws; an identifier it gave comes back from the address that
    [buildAdLibraryUrl] makes of it. *)
Theorem resolved_page_id_is_numeric (html : result string) :
  resolvePageId html = VNull
  ∨ ∃ p, resolvePageId html = VStr p
         ∧ all_chars is_digit p = true ∧ p ≠ ""
         ∧ pageIdMatch (VStr (buildAdLibraryUrl (VStr p))) = Ok (Some p).
Proof.
  unfold resolvePageId. destruct html as [h|e]; [|by left].
  destruct (first_match patterns h) as [m|] eqn:E; [|by left].
  right. exists m. destruct (first_match_digits _ _ _ E) as [Hd Hne].
  split; [done|]. split; [done|]. split; [done|].
  by apply built_address_matches.
Qed.

End PageIdFacts.

(** ** Properties of the handlers *)

Module ServerFacts.
Import Effect Server.

(** *** The bookmark *)

Lemma rows_by_id_elem n d k r :
  (k, r) ∈ rows_by_id n d ↔ Vault.ad_vault d !! k = Some r ∧ Vault.id r = n.
Proof.
  unfold rows_by_id. rewrite elem_of_map_to_list, map_lookup_filter_Some. done.
Qed.

Lemma toggled_flips now r :
  Vault.unbookmarked (bookmarked_row now (toggled r) r) = negb (Vault.unbookmarked r)
  ∧ (toggled r =? 1) = Vault.unbookmarked r.
Proof.
  unfold Vault.unbookmarked, toggled. simpl.
  destruct (Vault.bookmarked r) as [b|]; [|done]. by destruct (b =? 0).
Qed.

(** The row that the handler writes. *)
Lemma toggle_bookmark_row now n s k r :
  rows_by_id n (vault s) = [(k, r)] →
  Vault.ad_vault (vault (fst (toggle_bookmark reliable now n s))) !! k
  = Some (bookmarked_row now (toggled r) r).
Proof.
  intros Hrows.
  assert (Hk : Vault.ad_vault (vault s) !! k = Some r ∧ Vault.id r = n).
  { apply rows_by_id_elem. rewrite Hrows. apply list_elem_of_singleton. done. }
  destruct Hk as [Hk Hid].
  unfold toggle_bookmark, catching, and_then, query, command, execute, reliable, ret.
  rewrite Hrows. cbn [fst snd vault with_vault scrape_jobs].
  unfold set_bookmark; simpl.
  rewrite lookup_fmap, Hk. simpl. rewrite Hid. by rewrite bool_decide_eq_true_2.
Qed.

(** On reliable storage the bookmark handler turns the protection of the ad
    over: a row that the cleanup would select is protected afterwards and
    the other way round; the answer says what the row holds now; nothing
    but the bookmark and [updated_at] of that row changes. *)
Theorem bookmark_toggle_flips now n s k r :
  rows_by_id n (vault s) = [(k, r)] →
  let run := toggle_bookmark reliable now n s in
  let r' := bookmarked_row now (toggled r) r in
  snd run = Ok (json (VObj [("bookmarked", VBool (negb (Vault.unbookmarked r')))]))
  ∧ Vault.unbookmarked r' = negb (Vault.unbookmarked r)
  ∧ Vault.ad_vault (vault (fst run)) !! k = Some r'
  ∧ (∀ k', k' ≠ k →
       Vault.ad_vault (vault (fst run)) !! k' = Vault.ad_vault (vault s) !! k')
  ∧ Vault.weekly_snapshots (vault (fst run)) = Vault.weekly_snapshots (vault s)
  ∧ scrape_jobs (fst run) = scrape_jobs s.
Proof.
  intros Hrows run r'. subst run.
  assert (Hk : Vault.ad_vault (vault s) !! k = Some r ∧ Vault.id r = n).
  { apply rows_by_id_elem. rewrite Hrows. apply list_elem_of_singleton. done. }
  destruct Hk as [Hk Hid].
  destruct (toggled_flips now r) as [F1 F2]. fold r' in F1.
  unfold toggle_bookmark, catching, and_then, query, command, execute, reliable, ret.
  rewrite Hrows. cbn [fst snd vault with_vault scrape_jobs].
  split; [by rewrite F1, negb_involutive, F2|]. split; [done|].
  unfold set_bookmark; simpl. split; [|split; [|done]].
  - rewrite lookup_fmap, Hk. simpl. rewrite Hid. by rewrite bool_decide_eq_true_2.
  - intros k' Hne. rewrite lookup_fmap.
    destruct (Vault.ad_vault (vault s) !! k') as [r0|] eqn:E0; [|done]. simpl.
    case_bool_decide as Hid0; [|done]. exfalso.
    assert (Hin : (k', r0) ∈ rows_by_id n (vault s)).
    { apply rows_by_id_elem. split; [done|congruence]. }
    rewrite Hrows in Hin. apply list_elem_of_singleton in Hin. congruence.
Qed.


Lemma bookmark_toggle_flips_witness :
  let run := toggle_bookmark reliable Sample.wednesday 2 Demo.server in
  Vault.unbookmarked Sample.row_old = true
  ∧ ∃ r', Vault.ad_vault (vault (fst run)) !! "old" = Some r'
          ∧ Vault.unbookmarked r' = false.
Proof.
  intros run. split; [reflexivity|].
  assert (H : rows_by_id 2 (vault Demo.server) = [("old"%string, Sample.row_old)])
    by (vm_compute; reflexivity).
  destruct (bookmark_toggle_flips Sample.wednesday 2 Demo.server "old" Sample.row_old H)
    as (_ & H2 & H3 & _).
  eexists. split; [exact H3|exact H2].
Defined.

(** An ad that the cleanup of the next reconciliation would delete is
    kept, as the row the handler wrote, once it has been bookmarked. *)
Theorem bookmark_protects_from_the_cleanup now n s k r rt now' b ads ls0 :
  rows_by_id n (vault s) = [(k, r)] → Vault.unbookmarked r = true →
  Vault.brands (vault s) !! b = Some ls0 → k ∉ map Dedup.ad_id ads →
  let s1 := fst (toggle_bookmark reliable now n s) in
  Vault.ad_vault (fst (Vault.processScrapedAds Vault.reliable rt now' b ads (vault s1))) !! k
  = Some (bookmarked_row now 1 r).
Proof.
  intros Hrows Hu Hb Hn s1.
  destruct (toggled_flips now r) as [F1 _].
  pose proof (toggle_bookmark_row now n s k r Hrows) as F2.
  assert (Ht : toggled r = 1).
  { unfold toggled. unfold Vault.unbookmarked in Hu.
    destruct (Vault.bookmarked r); [by rewrite Hu|done]. }
  rewrite Ht in F1, F2. fold s1 in F2.
  assert (Hb1 : Vault.brands (vault s1) !! b = Some ls0).
  { subst s1. unfold toggle_bookmark, catching, and_then, query, command, execute,
      reliable, ret. rewrite Hrows. simpl. done. }
  destruct (VaultFacts.processScrapedAds_reliable rt now' b ads (vault s1) ls0 Hb1)
    as [out ->]. cbn [fst]. rewrite VaultFacts.touch_vault.
  rewrite VaultFacts.fold_merged_other by done.
  destruct (0 <? _); [|done].
  apply VaultFacts.cleaned_lookup_kept; [done|].
  apply VaultFacts.stale_bookmarked. by rewrite F1, Hu.
Qed.

Lemma bookmark_protects_from_the_cleanup_witness :
  let s1 := fst (toggle_bookmark reliable Sample.wednesday 2 Demo.server) in
  Vault.ad_vault (fst (Vault.processScrapedAds Vault.reliable Sample.rt Sample.thursday 1
                         [Sample.ad_a] (vault Demo.server))) !! "old" = None
  ∧ Vault.ad_vault (fst (Vault.processScrapedAds Vault.reliable Sample.rt Sample.thursday 1
                           [Sample.ad_a] (vault s1))) !! "old"
    = Some (bookmarked_row Sample.wednesday 1 Sample.row_old).
Proof.
  intros s1. split; [vm_compute; reflexivity|].
  apply (bookmark_protects_from_the_cleanup Sample.wednesday 2 Demo.server "old"
           Sample.row_old Sample.rt Sample.thursday 1 [Sample.ad_a] None).
  - vm_compute; reflexivity.
  - reflexivity.
  - reflexivity.
  - apply not_elem_of_cons. split; [discriminate|apply not_elem_of_nil].
Defined.

(** *** The analysis handlers *)

Lemma analyze_counting_spec fails now provider l : ∀ a e s,
  ∃ a' e',
    analyze_counting fails now provider l a e s
    = (with_vault (fst (Vault.analyze_each (λ t, fails (Core t)) provider now l (vault s))) s,
       Ok (a', e'))
    ∧ a' + e' = a + e + Z.of_nat (length l) ∧ a ≤ a' ∧ e ≤ e'.
Proof.
  induction l as [|[k ad] rest IH]; intros a e s.
  - exists a, e. simpl. split; [by destruct s|lia].
  - cbn [analyze_counting Vault.analyze_each].
    unfold and_then at 1, catching, and_then at 1, in_vault.
    unfold Vault.and_then, Vault.ignoring_errors. cbn [fst snd].
    destruct (Vault.write_tags (λ t, fails (Core t)) now k
                (Vault.analyzeAdCreative provider ad) (vault s)) as [d1 [[]|err]];
      cbn [fst snd ret].
    + destruct (IH (a + 1) e (with_vault d1 s)) as (a' & e' & E & Hsum & Ha & He).
      exists a', e'. rewrite E. split; [done|]. rewrite length_cons. lia.
    + destruct (IH a (e + 1) (with_vault d1 s)) as (a' & e' & E & Hsum & Ha & He).
      exists a', e'. rewrite E. split; [done|]. rewrite length_cons. lia.
Qed.

(** Whatever the storage and the provider do, the batch handler counts
    every selected ad once, as analyzed or as an error, and leaves the
    vault as [runBatchAnalysis] leaves it. *)
Theorem analyze_batch_counts_every_ad fails now provider s :
  fails (Core Vault.SelectUnanalyzed) = false →
  unanalyzed_rows (vault s) ≠ [] →
  ∃ a e,
    snd (analyze_batch fails now provider s)
    = Ok (json (VObj [("analyzed", VNum a); ("errors", VNum e);
                      ("total", VNum (Z.of_nat (length (unanalyzed_rows (vault s)))))]))
    ∧ a + e = Z.of_nat (length (unanalyzed_rows (vault s))) ∧ 0 ≤ a ∧ 0 ≤ e
    ∧ vault (fst (analyze_batch fails now provider s))
      = fst (Vault.runBatchAnalysis (λ t, fails (Core t)) provider now (vault s))
    ∧ scrape_jobs (fst (analyze_batch fails now provider s)) = scrape_jobs s.
Proof.
  intros Hf Hne.
  destruct (analyze_counting_spec fails now provider (unanalyzed_rows (vault s)) 0 0 s)
    as (a & e & E & Hsum & Ha & He).
  assert (Hrun : analyze_batch fails now provider s
    = (with_vault (fst (Vault.analyze_each (λ t, fails (Core t)) provider now
                          (unanalyzed_rows (vault s)) (vault s))) s,
       Ok (json (VObj [("analyzed", VNum a); ("errors", VNum e);
                       ("total", VNum (Z.of_nat (length (unanalyzed_rows (vault s)))))])))).
  { unfold analyze_batch, catching, and_then at 1, query, execute. rewrite Hf.
    cbn [fst snd].
    destruct (unanalyzed_rows (vault s)) as [|kv rest] eqn:Hrows; [done|].
    unfold and_then. rewrite E. reflexivity. }
  rewrite Hrun. cbn [fst snd vault with_vault scrape_jobs].
  exists a, e. split; [done|]. split; [lia|]. split; [lia|]. split; [lia|]. split; [|done].
  unfold Vault.runBatchAnalysis, Vault.and_then, Vault.query, Vault.execute.
  rewrite Hf. reflexivity.
Qed.

Lemma analyze_batch_counts_every_ad_witness :
  ∃ a e,
    snd (analyze_batch reliable Sample.wednesday Sample.provider Demo.server)
    = Ok (json (VObj [("analyzed", VNum a); ("errors", VNum e); ("total", VNum 3)]))
    ∧ a + e = 3.
Proof.
  destruct (analyze_batch_counts_every_ad reliable Sample.wednesday Sample.provider
              Demo.server eq_refl) as (a & e & H1 & H2 & _).
  { vm_compute. discriminate. }
  exists a, e. split; [exact H1|exact H2].
Defined.

Lemma has_all_tags_cells r :
  Vault.has_all_tags r = true →
  Vault.text_cell (Vault.cell_value (Vault.ai_asset_type r)) = Ok (Vault.ai_asset_type r)
  ∧ Vault.text_cell (Vault.cell_value (Vault.ai_visual_format r)) = Ok (Vault.ai_visual_format r)
  ∧ Vault.text_cell (Vault.cell_value (Vault.ai_messaging_angle r))
    = Ok (Vault.ai_messaging_angle r)
  ∧ Vault.text_cell (Vault.cell_value (Vault.ai_hook_tactic r)) = Ok (Vault.ai_hook_tactic r)
  ∧ Vault.text_cell (Vault.cell_value (Vault.ai_offer_type r)) = Ok (Vault.ai_offer_type r).
Proof.
  intros _. repeat split;
    match goal with |- context [Vault.cell_value ?c] => by destruct c end.
Qed.




(** *** The status of a scrape job *)

Section status.
Variable fails : stmt → bool.
Variable now : instant.
Variable rt : Runtime.
Variable pollApifyJob getApifyResults : string → value.
Variable stringify : list Vault.processed → result string.

Lemma rejected_feed jobId job run s :
  scrape_jobs s !! jobId = Some job →
  job_status job ≠ "complete"%string → job_status job ≠ "error"%string →
  apify_run_id job = Some run → run ≠ ""%string →
  pollApifyJob run = VStr "SUCCEEDED" →
  nullish (getApifyResults run) = true
  ∨ returns (transform rt (getApifyResults run) (job_brand job)) = false →
  fails (SelectJob jobId) = false →
  scrape_status fails now rt pollApifyJob getApifyResults stringify jobId s
  = (s, Ok (failure 500 "Status check failed")).
Proof.
  intros Hjob H1 H2 Hrun Hne Hpoll Hbad Hf.
  unfold scrape_status, catching, and_then at 1, query, execute. rewrite Hf.
  cbn [fst snd]. rewrite Hjob.
  destruct (String.eqb_spec (job_status job) "complete"); [done|].
  destruct (String.eqb_spec (job_status job) "error"); [done|]. cbn [orb].
  rewrite Hrun. destruct (String.eqb_spec run ""); [done|].
  rewrite Hpoll. cbn [is_text]. rewrite String.eqb_refl.
  unfold and_then at 1, lift, get.
  destruct Hbad as [Hn|Ht].
  - rewrite Hn. done.
  - destruct (nullish (getApifyResults run)); [done|].
    unfold and_then at 1.
    destruct (transform rt (getApifyResults run) (job_brand job)); [done|]. done.
Qed.

(** A job whose run succeeded but whose items the Deduplicator rejects,
    or whose items are [null]: the handler answers 500 and writes
    nothing, so the job stays as it is and the next poll does the same. *)
Theorem rejected_feed_leaves_the_job_as_it_is jobId job run s :
  scrape_jobs s !! jobId = Some job →
  job_status job ≠ "complete"%string → job_status job ≠ "error"%string →
  apify_run_id job = Some run → run ≠ ""%string →
  pollApifyJob run = VStr "SUCCEEDED" →
  nullish (getApifyResults run) = true
  ∨ returns (transform rt (getApifyResults run) (job_brand job)) = false →
  fst (scrape_status fails now rt pollApifyJob getApifyResults stringify jobId s) = s
  ∧ (fails (SelectJob jobId) = false →
     snd (scrape_status fails now rt pollApifyJob getApifyResults stringify jobId s)
     = Ok (failure 500 "Status check failed")).
Proof.
  intros Hjob H1 H2 Hrun Hne Hpoll Hbad.
  destruct (fails (SelectJob jobId)) eqn:Hf.
  - unfold scrape_status, catching, and_then at 1, query, execute. rewrite Hf. done.
  - rewrite (rejected_feed jobId job run s) by done. done.
Qed.



End status.

Lemma rejected_feed_leaves_the_job_as_it_is_witness :
  scrape_status reliable Sample.wednesday Sample.rt (λ _, VStr "SUCCEEDED")
    (λ _, VArr [VNull]) (λ _, Ok "[]"%string) 2 Demo.server
  = (Demo.server, Ok (failure 500 "Status check failed")).
Proof.
  destruct (rejected_feed_leaves_the_job_as_it_is reliable Sample.wednesday Sample.rt
              (λ _, VStr "SUCCEEDED") (λ _, VArr [VNull]) (λ _, Ok "[]"%string)
              2 Demo.running "run-1" Demo.server) as [H1 H2];
    [reflexivity|discriminate|discriminate|reflexivity|discriminate|reflexivity| |].
  - right. reflexivity.
  - specialize (H2 eq_refl).
    destruct (scrape_status _ _ _ _ _ _ _ _) as [s r]. simpl in *. by rewrite H1, H2.
Defined.



(** *** Rows without a brand *)

Lemma cleanupOrphanedData_reliable s :
  cleanupOrphanedData reliable s
  = (delete_orphan_jobs (delete_orphan_snapshots (delete_orphan_ads s)), Ok tt).
Proof. reflexivity. Qed.


(** Whatever the storage does, the cleanup at startup does not throw. *)
Lemma cleanupOrphanedData_returns fails s : snd (cleanupOrphanedData fails s) = Ok tt.
Proof.
  unfold cleanupOrphanedData, catching, and_then, command, execute.
  destruct (fails DeleteOrphanAds); [done|]. cbn [fst snd].
  destruct (fails DeleteOrphanSnapshots); [done|]. cbn [fst snd].
  by destruct (fails DeleteOrphanJobs).
Qed.

Lemma consistent_sub s s' :
  consistent s → Vault.brands (vault s') = Vault.brands (vault s) →
  (∀ adId r, Vault.ad_vault (vault s') !! adId = Some r →
     Vault.ad_vault (vault s) !! adId = Some r) →
  (∀ k rk, Vault.weekly_snapshots (vault s') !! k = Some rk →
     Vault.weekly_snapshots (vault s) !! k = Some rk) →
  (∀ jobId job, scrape_jobs s' !! jobId = Some job → scrape_jobs s !! jobId = Some job) →
  consistent s'.
Proof.
  intros [[R1 R2] R3] Hb Ha Hw Hj. split; [split|].
  - intros adId r H. rewrite Hb. eapply R1. by apply Ha.
  - intros b adId w rk H. rewrite Hb. eapply R2. by apply Hw.
  - intros jobId job H. rewrite Hb. eapply R3. by apply Hj.
Qed.


Lemma demo_consistent : consistent Demo.server.
Proof.
  split; [exact LedgerFacts.stocked_referential|].
  intros jobId job H. simpl in H.
  apply lookup_insert_Some in H as [[_ <-]|[_ H]]; [by eexists|].
  apply lookup_singleton_Some in H as [_ <-]. by eexists.
Qed.


End ServerFacts.

(** ** Properties of the CSV import *)

Module RegistryFacts.
Import Effect Registry.

(** *** Every line is accounted for *)

Lemma split_on_nonempty sep s : split_on sep s ≠ [].
Proof.
  induction s as [|c r IH]; simpl; [done|].
  destruct (Ascii.eqb c sep); [done|]. by destruct (split_on sep r).
Qed.

Lemma fates_partition (fates : list fate) :
  (length (inserted fates) + length (skipped fates) + length (errors fates)
   + length (blanks fates) = length fates)%nat.
Proof.
  unfold inserted, skipped, errors, blanks.
  unfold omap. induction fates as [|x rest IH]; [done|]. destruct x; simpl in *; lia.
Qed.

Section import.
Variable fails : stmt → bool.
Variable resolve : string → value.

Lemma import_lines_length b c w f lines : ∀ i t t' fates,
  import_lines fails resolve b c w f i lines t = (t', Ok fates) →
  length fates = length lines.
Proof.
  induction lines as [|raw rest IH]; intros i t t' fates H; simpl in H.
  - by injection H as <- <-.
  - unfold and_then in H.
    destruct (import_line fails resolve b c w f i raw t) as [t1 [x|e]]; [|done].
    destruct (import_lines fails resolve b c w f (S i) rest t1) as [t2 [xs|e]] eqn:E;
      [|done].
    injection H as <- <-. simpl. f_equal. by eapply IH.
Qed.



Lemma grows_refl t : bounded t → grows t t.
Proof. intros B. split; [done|]. split; [done|]. intros name. lia. Qed.

Lemma grows_trans t1 t2 t3 : grows t1 t2 → grows t2 t3 → grows t1 t3.
Proof.
  intros (B2 & K2 & C2) (B3 & K3 & C3). split; [done|]. split.
  - intros k br H. by apply K3, K2.
  - intros name. specialize (C2 name). specialize (C3 name). lia.
Qed.

Lemma insert_brand_grows br t :
  bounded t → named (brand_name br) t = ∅ → grows t (fst (insert_brand br t)).
Proof.
  intros B Hnone.
  assert (Hfresh : rows t !! (seq t + 1) = None).
  { destruct (rows t !! (seq t + 1)) eqn:E; [|done].
    assert (seq t + 1 ≤ seq t) by (apply B; by eexists). lia. }
  split; [|split].
  - intros k [x Hk]. simpl in *. apply lookup_insert_Some in Hk as [[<- _]|[_ Hk]]; [lia|].
    assert (k ≤ seq t) by (apply B; by eexists). lia.
  - intros k x Hk. simpl. rewrite lookup_insert_ne; [done|]. intros <-. congruence.
  - intros name. unfold count, named. simpl.
    destruct (decide (brand_name br = name)) as [E|E].
    + rewrite map_filter_insert_True by done.
      rewrite map_size_insert_None.
      * subst name. unfold named in Hnone. rewrite Hnone, map_size_empty. lia.
      * apply map_lookup_filter_None. by left.
    + rewrite map_filter_insert_not' by (try done; intros y; congruence). lia.
Qed.

Lemma import_line_grows b c w f i raw t :
  bounded t → grows t (fst (import_line fails resolve b c w f i raw t)).
Proof.
  intros B. unfold import_line.
  destruct (String.eqb (trim raw) ""); [by apply grows_refl|].
  destruct (negb _ || negb _); [by apply grows_refl|].
  unfold and_then, query, execute.
  destruct (fails (SelectByName _)); cbn [fst snd]; [by apply grows_refl|].
  case_bool_decide as Hex; [by apply grows_refl|].
  unfold catching.
  destruct (negb (truthy _)); [by apply grows_refl|].
  unfold and_then, lift.
  destruct (Vault.text_cell _); [|by apply grows_refl].
  destruct (vertical_of _); [|by apply grows_refl].
  unfold execute. destruct (fails (InsertBrand _)); cbn [fst snd]; [by apply grows_refl|].
  apply insert_brand_grows; [done|]. simpl.
  destruct (decide (named (default "" (cell (map trim (split_on "," (trim raw))) b)) t = ∅));
    [done|]. by exfalso.
Qed.

Lemma import_lines_grows b c w f lines : ∀ i t,
  bounded t → grows t (fst (import_lines fails resolve b c w f i lines t)).
Proof.
  induction lines as [|raw rest IH]; intros i t B; [by apply grows_refl|].
  cbn [import_lines]. unfold and_then.
  pose proof (import_line_grows b c w f i raw t B) as G1.
  destruct (import_line fails resolve b c w f i raw t) as [t1 [x|e]]; cbn [fst] in *;
    [|done].
  pose proof (IH (S i) t1 (proj1 G1)) as G2.
  destruct (import_lines fails resolve b c w f (S i) rest t1) as [t2 [xs|e]];
    cbn [fst] in *; by eapply grows_trans.
Qed.

(** Whatever the storage and the resolver do, the CSV import only adds
    rows, and never a second row for a name: a name that was stored keeps
    the rows it had, and a name that was not stored ends with one row at
    most, however often the file lists it. *)
Theorem csv_import_never_repeats_a_name csv t :
  bounded t →
  let t' := fst (import_csv fails resolve csv t) in
  (∀ k br, rows t !! k = Some br → rows t' !! k = Some br)
  ∧ ∀ name, (count name t ≤ count name t' ∧ count name t' ≤ Nat.max 1 (count name t))%nat.
Proof.
  intros B t'. subst t'.
  cut (grows t (fst (import_csv fails resolve csv t))); [by intros (_ & K & C)|].
  unfold import_csv, catching.
  destruct csv as [| | | |text| |]; try by apply grows_refl.
  destruct (String.eqb text ""); [by apply grows_refl|].
  destruct (missing_columns _); [|by apply grows_refl].
  unfold and_then.
  match goal with |- context [import_lines ?fl ?rs ?b ?c ?w ?f ?i ?ls t] =>
    pose proof (import_lines_grows b c w f ls i t B) as G;
    destruct (import_lines fl rs b c w f i ls t) as [t1 [xs|e]] end; done.
Qed.


End import.


Lemma empty_bounded : bounded empty.
Proof. intros k [x H]. simpl in H. by rewrite lookup_empty in H. Qed.

Lemma csv_import_never_repeats_a_name_witness :
  (count "AG1" (fst (import_csv reliable sample_resolver (VStr sample_csv) empty)) ≤ 1)%nat.
Proof.
  destruct (csv_import_never_repeats_a_name reliable sample_resolver (VStr sample_csv)
              empty empty_bounded) as [_ H].
  exact (proj2 (H "AG1"%string)).
Defined.

(** *** A second import *)

Section again.
Variable resolve : string → value.

Lemma import_line_plan b c w f i raw t :
  import_line reliable resolve b c w f i raw t
  = match plan_of resolve b c w f i raw with
    | Nothing => (t, Ok Blank)
    | Reject label => (t, Ok (Failed label))
    | Propose name brand =>
        if bool_decide (named name t ≠ ∅) then (t, Ok (Skipped name))
        else match brand with
             | Some br => (fst (insert_brand br t), Ok (Inserted (seq t + 1) name))
             | None => (t, Ok (Failed name))
             end
    end.
Proof.
  unfold import_line, plan_of.
  destruct (String.eqb (trim raw) ""); [done|].
  destruct (negb _ || negb _); [done|].
  unfold and_then, query, execute, reliable. cbn [fst snd].
  case_bool_decide; [done|].
  unfold catching. destruct (negb (truthy _)); [done|].
  unfold and_then, lift.
  destruct (Vault.text_cell _); [|done].
  destruct (vertical_of _); done.
Qed.

Lemma import_line_returns b c w f i raw t :
  ∃ t1 x, import_line reliable resolve b c w f i raw t = (t1, Ok x).
Proof.
  rewrite import_line_plan. destruct (plan_of resolve b c w f i raw) as [| |name brand].
  - by eexists _, _.
  - by eexists _, _.
  - case_bool_decide; [by eexists _, _|]. destruct brand; by eexists _, _.
Qed.

(** A line that proposes a brand leaves its name stored. *)
Lemma import_line_stores b c w f i raw t name br :
  bounded t → plan_of resolve b c w f i raw = Propose name (Some br) →
  (1 ≤ count name (fst (import_line reliable resolve b c w f i raw t)))%nat.
Proof.
  intros B Hp. rewrite import_line_plan, Hp. case_bool_decide as Hn.
  - cbn [fst]. unfold count. destruct (decide (size (named name t) = 0%nat)) as [E|E]; [|lia].
    apply map_size_empty_iff in E. done.
  - cbn [fst].
    assert (Hnone : named name t = ∅).
    { destruct (decide (named name t = ∅)); [done|]. by exfalso. }
    assert (Hbr : brand_name br = name).
    { unfold plan_of in Hp. destruct (String.eqb _ _); [done|].
      destruct (_ || _); [done|]. injection Hp as <- Hp.
      destruct (negb _); [done|]. destruct (Vault.text_cell _); [|done].
      destruct (vertical_of _); [|done]. by injection Hp as <-. }
    subst name.
    destruct (insert_brand_grows br t B Hnone) as (_ & _ & C).
    unfold count, named. simpl. rewrite map_filter_insert_True by done.
    rewrite map_size_insert_None; [lia|].
    apply map_lookup_filter_None. left.
    destruct (rows t !! (seq t + 1)) eqn:E; [|done].
    assert (seq t + 1 ≤ seq t) by (apply B; by eexists). lia.
Qed.

(** Every name that the lines propose with a brand is stored after the
    run. *)
Lemma import_lines_store b c w f lines : ∀ i t,
  bounded t →
  ∀ k raw name br, lines !! k = Some raw →
    plan_of resolve b c w f (i + k) raw = Propose name (Some br) →
    (1 ≤ count name (fst (import_lines reliable resolve b c w f i lines t)))%nat.
Proof.
  induction lines as [|l rest IH]; intros i t B k raw name br Hk Hp.
  - by rewrite lookup_nil in Hk.
  - cbn [import_lines]. unfold and_then.
    pose proof (import_line_grows reliable resolve b c w f i l t B) as G1.
    pose proof (import_line_stores b c w f i l t) as S1.
    destruct (import_line reliable resolve b c w f i l t) as [t1 [x|e]] eqn:E1;
      cbn [fst] in *.
    2: { destruct (import_line_returns b c w f i l t) as (? & ? & ?). congruence. }
    pose proof (import_lines_grows reliable resolve b c w f rest (S i) t1 (proj1 G1)) as G2.
    destruct k as [|k].
    + simpl in Hk. injection Hk as ->. rewrite Nat.add_0_r in Hp.
      specialize (S1 name br B Hp).
      destruct (import_lines reliable resolve b c w f (S i) rest t1) as [t2 [xs|e]];
        cbn [fst] in *; destruct G2 as (_ & _ & C); specialize (C name);
        unfold ret; cbn [fst]; lia.
    + simpl in Hk. replace (i + S k)%nat with (S i + k)%nat in Hp by lia.
      specialize (IH (S i) t1 (proj1 G1) k raw name br Hk Hp).
      destruct (import_lines reliable resolve b c w f (S i) rest t1) as [t2 [xs|e]];
        unfold ret; cbn [fst] in *; done.
Qed.

(** Over a registry that holds every name that the lines propose with a
    brand, a run changes nothing and inserts nothing. *)
Lemma import_lines_idle b c w f lines : ∀ i t,
  (∀ k raw name br, lines !! k = Some raw →
     plan_of resolve b c w f (i + k) raw = Propose name (Some br) →
     (1 ≤ count name t)%nat) →
  ∃ fates, import_lines reliable resolve b c w f i lines t = (t, Ok fates)
           ∧ inserted fates = [].
Proof.
  induction lines as [|l rest IH]; intros i t H.
  - by exists [].
  - cbn [import_lines]. unfold and_then.
    destruct (IH (S i) t) as (xs & E & Hx).
    { intros k raw name br Hk Hp. apply (H (S k) raw name br); [done|].
      by replace (i + S k)%nat with (S i + k)%nat by lia. }
    assert (H1 : ∃ x, import_line reliable resolve b c w f i l t = (t, Ok x)
                      ∧ inserted [x] = []).
    { rewrite import_line_plan.
      destruct (plan_of resolve b c w f i l) as [|label|name brand] eqn:Hp;
        [by eexists|by eexists|].
      case_bool_decide as Hn; [by eexists|].
      destruct brand as [br|]; [|by eexists]. exfalso.
      specialize (H 0%nat l name br eq_refl). rewrite Nat.add_0_r in H.
      specialize (H Hp). unfold count in H.
      rewrite Hn, map_size_empty in H. lia. }
    destruct H1 as (x & -> & Hx1). rewrite E. exists (x :: xs). split; [done|].
    unfold inserted in *. simpl in *. destruct x; try done.
Qed.


End again.


End RegistryFacts.
